(** * The OSv memory-management unit (mmu.cc): address-space tracker and
      page-table walker, embedded in Rocq.

    Machine words ([uintptr_t], [size_t], [pt_element], [phys]) are 64-bit
    unsigned integers, modelled as [Z] with the wrap-around written out.
    The intrusive ordered set [vma_list] is a list of records kept sorted by
    start address with unique keys; an iterator into it is the key of the
    node it points at.  Physical memory, reached through the identity
    [phys_cast], is a function from byte addresses to 64-bit words where
    the page tables lie, and a function from byte addresses to bytes for
    the data that [memset] and [read] store through the page walk. *)

From Stdlib Require Import ZArith List Bool Lia.
From coqutil Require Import Z.bitblast.
Import ListNotations.
Local Open Scope Z_scope.

(** ** Machine arithmetic *)

Definition wrap64 (x : Z) : Z := x mod 2 ^ 64.

(** [~x] on a 64-bit word. *)
Definition not64 (x : Z) : Z := Z.lxor x (Z.ones 64).

Notation "'do' x <- e ; k" :=
  (match e with Some x => k | None => None end)
  (at level 10, x pattern, e at level 100, k at level 200,
   format "'[v' 'do'  x  <-  e ; '/' k ']'").

(** ** Virtual memory areas (mmu.cc 239-288) *)

Definition page_size : Z := 4096.

Definition align_down (ptr : Z) : Z := Z.land ptr (not64 (page_size - 1)).

Definition align_up (ptr : Z) : Z := align_down (wrap64 (ptr + page_size - 1)).

Record vma : Type := mk_vma { _start : Z; _end : Z }.

(** The constructor [vma::vma(start, end)]. *)
Definition vma_new (start end_ : Z) : vma :=
  {| _start := align_down start; _end := align_up end_ |}.

Definition vma_addr (v : vma) : Z := _start v.

Definition vma_size (v : vma) : Z := wrap64 (_end v - _start v).

(** ** The tracker: [boost::intrusive::set] ordered by [vma_compare] *)

(** [set::insert]: the node is linked at its place in key order; when a node
    with an equivalent key is already linked, nothing is inserted. *)
Fixpoint insert (n : vma) (l : list vma) : list vma :=
  match l with
  | [] => [n]
  | x :: r =>
      if _start n <? _start x then n :: l
      else if _start x <? _start n then x :: insert n r
      else l
  end.

(** [vma_list_type::vma_list_type()]: the two edge markers. *)
Definition vma_list_init : list vma :=
  let l := insert (vma_new 0 0) [] in
  let e := 0x800000000000 in
  insert (vma_new e e) l.

Definition sentinel_lo : vma := mk_vma 0 0.
Definition sentinel_hi : vma := mk_vma 0x800000000000 0x800000000000.

(** Iterators.  [None] is [end()]. *)
Definition iterator : Type := option Z.

Definition iterator_eqb (i j : iterator) : bool :=
  match i, j with
  | Some a, Some b => a =? b
  | None, None => true
  | _, _ => false
  end.

Definition begin (l : list vma) : iterator := option_map _start (hd_error l).

(** The node an iterator points at ([*i]). *)
Definition deref (l : list vma) (k : Z) : option vma :=
  find (fun x => _start x =? k) l.

(** [++i]: the first node whose key is greater. *)
Fixpoint next_key (l : list vma) (k : Z) : iterator :=
  match l with
  | [] => None
  | x :: r => if k <? _start x then Some (_start x) else next_key r k
  end.

(** [--i]: the last node whose key is smaller. *)
Fixpoint prev_key (l : list vma) (k : Z) : iterator :=
  match l with
  | [] => None
  | x :: r =>
      if _start x <? k then
        match prev_key r k with
        | Some j => Some j
        | None => Some (_start x)
        end
      else None
  end.

(** [std::prev(vma_list.end())]. *)
Definition prev_end (l : list vma) : iterator :=
  option_map _start (hd_error (rev l)).

(** [set::erase(dead)]. *)
Fixpoint erase (k : Z) (l : list vma) : list vma :=
  match l with
  | [] => []
  | x :: r => if _start x =? k then r else x :: erase k r
  end.

(** The assignment [_end = edge] on the node with key [k]. *)
Fixpoint set_end (k edge : Z) (l : list vma) : list vma :=
  match l with
  | [] => []
  | x :: r =>
      if _start x =? k then {| _start := _start x; _end := edge |} :: r
      else x :: set_end k edge r
  end.

(** [vma::split(edge)] called on the node with key [k]. *)
Definition vma_split (k edge : Z) (l : list vma) : list vma :=
  match deref l k with
  | None => l
  | Some x =>
      if (edge <=? _start x) || (_end x <=? edge) then l
      else
        let n := vma_new edge (_end x) in
        insert n (set_end k edge l)
  end.

(** ** find_hole, contains, evacuate, reserve, unmap (mmu.cc 148-203) *)

(** The scan of [find_hole] with [p] the current node and [rest] the nodes
    after it; running off the end is [abort()]. *)
Fixpoint find_hole_from (p : vma) (rest : list vma) (start size : Z)
  : option Z :=
  match rest with
  | [] => None
  | n :: rest' =>
      if (_end p <=? start) && (wrap64 (start + size) <=? _start n)
      then Some start
      else if (start <=? _end p) && (size <=? wrap64 (_start n - _end p))
      then Some (_end p)
      else find_hole_from n rest' start size
  end.

Definition find_hole (l : list vma) (start size : Z) : option Z :=
  match l with
  | [] => None
  | p :: rest => find_hole_from p rest start size
  end.

Definition contains (x y : vma) : bool :=
  (_start x <=? _start y) && (_end y <=? _end x).

(** The loop of [evacuate].  The set changes under the iterator, so the
    number of rounds is not fixed by the list we start from: the loop runs
    on fuel, and [None] means the fuel ran out or an iterator left the
    set. *)
Fixpoint evacuate_loop (fuel : nat) (v : vma) (i : iterator) (l : list vma)
  : option (list vma) :=
  match fuel with
  | O => None
  | S fuel' =>
      if iterator_eqb i (prev_end l) then Some l
      else
        match i with
        | None => None
        | Some k =>
            let l1 := vma_split k (_end v) l in
            let l2 := vma_split k (_start v) l1 in
            do x <- deref l2 k;
            if contains v x then
              do j <- prev_key l2 k;
              let l3 := erase k l2 in
              evacuate_loop fuel' v (next_key l3 j) l3
            else evacuate_loop fuel' v (next_key l2 k) l2
        end
  end.

Definition evacuate (v : vma) (l : list vma) : option (list vma) :=
  do b <- begin l;
  evacuate_loop (3 * length l + 1) v (next_key l b) l.

Definition mmap_base : Z := 0x200000000000.

Definition reserve (hint size : Z) (l : list vma) : option (vma * list vma) :=
  let start := hint in
  let start := if start =? 0 then mmap_base else start in
  do start <- find_hole l start size;
  let v := vma_new start (wrap64 (start + size)) in
  Some (v, insert v l).

Definition unmap (addr size : Z) (l : list vma) : option (list vma) :=
  let tmp := vma_new addr size in
  evacuate tmp l.

(** ** Page tables (mmu.cc 45-146) *)

Definition nlevels : nat := 4.

(** Physical memory as the walker sees it through [phys_cast]: the 64-bit
    word stored at each byte address. *)
Definition memory : Type := Z -> Z.

Definition upd (m : memory) (a v : Z) : memory :=
  fun x => if x =? a then v else m x.

(** The whole machine: the tracker, physical memory as the page tables lie
    in it, the pages the external allocator has left to hand out, the
    page-table base register, and the byte at each physical address as data
    accesses read and write it.  Tables are read as words through [mem] and
    data as bytes through [contents]. *)
Record state : Type := mk_state {
  vma_list : list vma;
  mem : memory;
  free_pages : list Z;
  cr3 : Z;
  contents : Z -> Z
}.

Definition set_vma_list (st : state) (l : list vma) : state :=
  mk_state l (mem st) (free_pages st) (cr3 st) (contents st).

Definition set_mem (st : state) (m : memory) : state :=
  mk_state (vma_list st) m (free_pages st) (cr3 st) (contents st).

Definition set_free_pages (st : state) (f : list Z) : state :=
  mk_state (vma_list st) (mem st) f (cr3 st) (contents st).

Definition set_contents (st : state) (c : Z -> Z) : state :=
  mk_state (vma_list st) (mem st) (free_pages st) (cr3 st) c.

Definition phys_cast (pa : Z) : Z := pa.

Definition virt_to_phys (virt : Z) : Z := virt.

Definition pt_index (virt : Z) (level : nat) : Z :=
  let v := virt in
  Z.land (Z.shiftr v (12 + Z.of_nat level * 9)) 511.

Definition pte_mask : Z :=
  Z.land (wrap64 (Z.shiftl 1 53 - 1)) (not64 (wrap64 (Z.shiftl 1 12 - 1))).

Definition pte_phys (pte : Z) : Z := Z.land pte pte_mask.

Definition pte_present (pte : Z) : bool := negb (Z.land pte 1 =? 0).

(** Modelled from the spec: [memory::alloc_page] of mempool.hh, the external
    page allocator, "allocate_one_page() -> physical_address; must return a
    page-aligned, previously-unused physical page or fail fatally if
    exhausted".  The pages it will return, in order, are [free_pages]. *)
Definition memory_alloc_page (st : state) : option (Z * state) :=
  match free_pages st with
  | [] => None
  | p :: rest => Some (p, set_free_pages st rest)
  end.

Definition alloc_page (st : state) : option (Z * state) :=
  do (p, st) <- memory_alloc_page st;
  Some (virt_to_phys p, st).

(** [for (auto i = 0; i < 512; ++i) pt[i] = f(i)], from index [i] for [n]
    rounds. *)
Fixpoint store_table (pt : Z) (f : Z -> Z) (i : Z) (n : nat) (m : memory)
  : memory :=
  match n with
  | O => m
  | S n' => store_table pt f (i + 1) n' (upd m (pt + 8 * i) (f i))
  end.

Definition allocate_intermediate_level (ptep : Z) (st : state)
  : option state :=
  do (pt_page, st) <- alloc_page st;
  let pt := phys_cast pt_page in
  let m := store_table pt (fun _ => 0) 0 512 (mem st) in
  Some (set_mem st (upd m ptep (Z.lor pt_page 0x63))).

Definition make_pte (addr : Z) : Z := Z.lor addr 0x63.

Definition pte_large (pt : Z) : bool :=
  negb (Z.land pt (Z.shiftl 1 7) =? 0).

Definition split_large_page (ptep : Z) (level : nat) (st : state)
  : option state :=
  let pte_orig := mem st ptep in
  let pte_orig :=
    if Nat.eqb level 1 then Z.land pte_orig (not64 (Z.shiftl 1 7))
    else pte_orig in
  do st <- allocate_intermediate_level ptep st;
  let pt := phys_cast (pte_phys (mem st ptep)) in
  let entry i :=
    Z.lor pte_orig (wrap64 (Z.shiftl i (12 + 9 * (Z.of_nat level - 1)))) in
  Some (set_mem st (store_table pt entry 0 512 (mem st))).

(** The [while (level > 0)] loop of [populate_page]; it yields the final
    [ptep]. *)
Fixpoint populate_page_loop (level : nat) (addr ptep : Z) (st : state)
  : option (Z * state) :=
  match level with
  | O => Some (ptep, st)
  | S level' =>
      do st <-
        (if negb (pte_present (mem st ptep)) then
           allocate_intermediate_level ptep st
         else if pte_large (mem st ptep) then
           split_large_page ptep level st
         else Some st);
      let pte := mem st ptep in
      let pt := phys_cast (pte_phys pte) in
      populate_page_loop level' addr (pt + 8 * pt_index addr level') st
  end.

Definition populate_page (addr : Z) (st : state) : option state :=
  let pte := cr3 st in
  let pt := phys_cast (pte_phys pte) in
  let ptep := pt + 8 * pt_index addr (nlevels - 1) in
  do (ptep, st) <- populate_page_loop (nlevels - 1) addr ptep st;
  do (p, st) <- alloc_page st;
  Some (set_mem st (upd (mem st) ptep (make_pte p))).

(** The [for] loop of [populate]: [None] also when the fuel runs out with
    [addr < limit] still true. *)
Fixpoint populate_loop (fuel : nat) (addr limit : Z) (st : state)
  : option state :=
  if addr <? limit then
    match fuel with
    | O => None
    | S fuel' =>
        do st <- populate_page addr st;
        populate_loop fuel' (wrap64 (addr + 4096)) limit st
    end
  else Some st.

Definition populate (v : vma) (st : state) : option state :=
  populate_loop (Z.to_nat (vma_size v / 4096 + 1)) (vma_addr v)
    (wrap64 (vma_addr v + vma_size v)) st.

(** ** Data accesses *)

(** Modelled from the x86-64 architecture, on which the source relies when
    it hands a virtual address to [memset] and to [read]: the walk the
    processor makes for a data access at the virtual address [va].  Bits 48
    to 63 of the address repeat bit 47; an entry that is not present ends
    the walk in a page fault, [None]; a large entry above the bottom level
    maps the whole range below it.  The code runs in supervisor mode: the
    permission bits are not consulted. *)
Definition canonical (va : Z) : bool :=
  ((0 <=? va) && (va <? 2 ^ 47))
  || ((2 ^ 64 - 2 ^ 47 <=? va) && (va <? 2 ^ 64)).

Fixpoint translate_from (m : memory) (level : nat) (va ptep : Z) : option Z :=
  let pte := m ptep in
  if pte_present pte then
    match level with
    | O => Some (pte_phys pte + va mod 4096)
    | S level' =>
        if pte_large pte then
          let span := 2 ^ (12 + 9 * Z.of_nat level) in
          Some (pte_phys pte / span * span + va mod span)
        else
          translate_from m level' va
            (phys_cast (pte_phys pte) + 8 * pt_index va level')
    end
  else None.

Definition translate (st : state) (va : Z) : option Z :=
  if canonical va then
    translate_from (mem st) (nlevels - 1) va
      (phys_cast (pte_phys (cr3 st)) + 8 * pt_index va (nlevels - 1))
  else None.

Definition store_byte (va v : Z) (st : state) : option state :=
  do pa <- translate st va;
  Some (set_contents st (upd (contents st) pa v)).


(** [memset(s, c, n)]: [n] byte stores from [s] upwards. *)
Fixpoint memset_loop (n : nat) (s c : Z) (st : state) : option state :=
  match n with
  | O => Some st
  | S n' =>
      do st <- store_byte s c st;
      memset_loop n' (wrap64 (s + 1)) c st
  end.

Definition memset (s c n : Z) (st : state) : option state :=
  memset_loop (Z.to_nat n) s c st.

(** Modelled from the spec: the backing-file reference of mmu.hh, "size() ->
    integer; read(buffer, file_offset, length) synchronously fills buffer".
    A file is its size and the byte at each offset; a read stores the bytes
    the file has from [offset] on, at most [len] of them, from [buffer]
    upwards, and leaves the rest of the buffer as it was. *)
Record file : Type := mk_file { f_size : Z; f_byte : Z -> Z }.

Fixpoint f_read_loop (n : nat) (f : file) (buffer offset : Z) (st : state)
  : option state :=
  match n with
  | O => Some st
  | S n' =>
      do st <- store_byte buffer (f_byte f offset) st;
      f_read_loop n' f (wrap64 (buffer + 1)) (offset + 1) st
  end.

Definition f_read (f : file) (buffer offset len : Z) (st : state)
  : option state :=
  f_read_loop (Z.to_nat (Z.min len (f_size f - offset))) f buffer offset st.

(** ** The mapping entry points (mmu.cc 205-237) *)

Definition map_anon_dontzero (start end_ perm : Z) (st : state)
  : option (vma * state) :=
  let ret := vma_new start end_ in
  do l <- evacuate ret (vma_list st);
  let st := set_vma_list st (insert ret l) in
  do st <- populate ret st;
  Some (ret, st).

Definition map_anon (addr size perm : Z) (st : state) : option (vma * state) :=
  let start := addr in
  do (ret, st) <- map_anon_dontzero start (wrap64 (start + size)) perm st;
  do st <- memset addr 0 size st;
  Some (ret, st).

Definition map_file (addr size perm : Z) (f : file) (offset : Z) (st : state)
  : option (vma * state) :=
  let start := addr in
  let fsize := f_size f in
  if fsize <=? offset then map_anon addr size perm st
  else
    do (ret, st) <- map_anon_dontzero start (wrap64 (start + size)) perm st;
    let rsize := wrap64 (Z.min (wrap64 (offset + size)) fsize - offset) in
    do st <- f_read f addr offset rsize st;
    do st <- memset (wrap64 (addr + rsize)) 0 (wrap64 (size - rsize)) st;
    Some (ret, st).

(** * Specification vocabulary *)

(** ** The tracker *)

(** A 64-bit word that is a multiple of the page size. *)
Definition aligned64 (a : Z) : Prop :=
  0 <= a < 2 ^ 64 /\ a mod page_size = 0.

Definition good_vma (v : vma) : Prop :=
  aligned64 (_start v) /\ aligned64 (_end v) /\ _start v <= _end v.

(** [x] lies wholly below [y], and has the smaller key. *)
Definition before (x y : vma) : Prop :=
  _end x <= _start y /\ _start x < _start y.

(** Sorted by start and pairwise non-overlapping. *)
Fixpoint sorted (l : list vma) : Prop :=
  match l with
  | [] => True
  | x :: r => Forall (before x) r /\ sorted r
  end.

Definition wf (l : list vma) : Prop := sorted l /\ Forall good_vma l.

(** Two half-open ranges share an address. *)
Definition overlaps (x y : vma) : bool :=
  Z.max (_start x) (_start y) <? Z.min (_end x) (_end y).

(** [y] lies wholly on one side of [v]. *)
Definition clear (v y : vma) : Prop :=
  _end y <= _start v \/ _end v <= _start y.

(** The tracker between its two markers. *)
Definition tracker_inv (l : list vma) : Prop :=
  wf l /\ exists mid, l = sentinel_lo :: mid ++ [sentinel_hi].

(** What [vma::split(edge)] leaves of the node itself, and what it links
    behind it. *)
Definition inside (x : vma) (edge : Z) : bool :=
  negb ((edge <=? _start x) || (_end x <=? edge)).

Definition trunc (x : vma) (edge : Z) : vma :=
  if inside x edge then mk_vma (_start x) edge else x.

Definition remainder (x : vma) (edge : Z) : list vma :=
  if inside x edge then [mk_vma edge (_end x)] else [].

(** How many of the bounds of [v] fall strictly inside [y], and the rounds
    of [evacuate] a list can still cost. *)
Definition cuts (v y : vma) : nat :=
  (if inside y (_end v) then 1 else 0) + (if inside y (_start v) then 1 else 0).

Fixpoint weight (v : vma) (l : list vma) : nat :=
  match l with
  | [] => O
  | y :: r => S (cuts v y + weight v r)
  end.

(** The keys left of the iterator are smaller, those right of it greater. *)
Definition keys_below (k : Z) (l : list vma) : Prop :=
  Forall (fun y => _start y < k) l.

Definition keys_above (k : Z) (l : list vma) : Prop :=
  Forall (fun y => k < _start y) l.

(** A piece [p] cut out of [x]: it stays within [x] and keeps either the key
    of [x] or a non-empty range. *)
Definition piece_of (x p : vma) : Prop :=
  _start x <= _start p /\ _end p <= _end x /\
  (_start p = _start x \/ _start p < _end p).

(** The scan of [find_hole] as the specification words it: the hint wins at
    the first pair of neighbours it fits between; failing that, the first
    gap that is large enough and not below the hint wins.  Sums and
    differences are those of the integers: the request fits when
    [start + size] does not pass the next start. *)
Definition adjacent_pairs (l : list vma) : list (vma * vma) :=
  combine l (tl l).

Definition hint_fits (start size : Z) (pn : vma * vma) : bool :=
  (_end (fst pn) <=? start) && (start + size <=? _start (snd pn)).

Definition gap_fits (start size : Z) (pn : vma * vma) : bool :=
  (start <=? _end (fst pn)) && (size <=? _start (snd pn) - _end (fst pn)).

Definition find_hole_spec (l : list vma) (start size : Z) : option Z :=
  match find (hint_fits start size) (adjacent_pairs l) with
  | Some _ => Some start
  | None =>
      match find (gap_fits start size) (adjacent_pairs l) with
      | Some (p, _) => Some (_end p)
      | None => None
      end
  end.

(** ** Sequences of calls *)

Inductive call : Type :=
| Reserve (hint size : Z)
| MapAnon (addr size perm : Z)
| MapAnonDontzero (start end_ perm : Z)
| MapFile (addr size perm : Z) (f : file) (offset : Z)
| Unmap (addr size : Z).

Definition run_call (c : call) (st : state) : option state :=
  match c with
  | Reserve hint size =>
      do (_, l) <- reserve hint size (vma_list st);
      Some (set_vma_list st l)
  | MapAnon addr size perm => option_map snd (map_anon addr size perm st)
  | MapAnonDontzero start end_ perm =>
      option_map snd (map_anon_dontzero start end_ perm st)
  | MapFile addr size perm f offset =>
      option_map snd (map_file addr size perm f offset st)
  | Unmap addr size =>
      do l <- unmap addr size (vma_list st);
      Some (set_vma_list st l)
  end.

Fixpoint run (cs : list call) (st : state) : option state :=
  match cs with
  | [] => Some st
  | c :: cs' => do st <- run_call c st; run cs' st
  end.

Definition top : Z := 0x800000000000.

(** The arguments are 64-bit words and the requested range lies inside the
    allocatable area, below the upper marker. *)
Definition in_area (c : call) : Prop :=
  match c with
  | Reserve hint size =>
      0 <= hint /\ 0 <= size /\
      (if hint =? 0 then mmap_base else hint) + size < 2 ^ 64
  | MapAnon addr size _ | MapFile addr size _ _ _ =>
      0 <= addr /\ 0 <= size /\ addr + size <= top
  | MapAnonDontzero start end_ _ => 0 <= start <= end_ /\ end_ <= top
  | Unmap addr size => 0 <= addr < 2 ^ 64 /\ 0 <= size < 2 ^ 64
  end.

(** The request asks for at least one byte. *)
Definition positive_size (c : call) : Prop :=
  match c with
  | Reserve _ size | MapAnon _ size _ | MapFile _ size _ _ _ => 0 < size
  | MapAnonDontzero start end_ _ => start < end_
  | Unmap _ _ => True
  end.

(** Every VMA of the tracker other than the two markers has [end > start]. *)
Definition non_empty (y : vma) : Prop := _start y < _end y.

Definition non_empty_vmas (l : list vma) : Prop :=
  forall y, In y l -> y <> sentinel_lo -> y <> sentinel_hi -> non_empty y.

(** ** Example machines *)

(** The pages [base], [base + 4096], ... the allocator hands out. *)
Definition pages_from (base : Z) (n : nat) : list Z :=
  map (fun k => base + 4096 * Z.of_nat k) (seq 0 n).

(** A machine after start-up: the initial tracker, an empty root table at
    [0x1000], and [free] for the allocator. *)
Definition boot_state (free : list Z) : state :=
  mk_state vma_list_init (fun _ => 0) free 0x1000 (fun _ => 0).

Definition invariant_calls : list call :=
  [Reserve 0 0x3000; MapAnon 0x400ff0 0x20 0; Unmap 0x400000 0x1000;
   MapAnonDontzero 0x401000 0x403000 0].

(** What a data access leaves alone: everything but the bytes. *)
Definition same_tables (st st' : state) : Prop :=
  vma_list st' = vma_list st /\ mem st' = mem st
  /\ free_pages st' = free_pages st /\ cr3 st' = cr3 st.

(** What a walk of the page tables leaves alone besides memory and the
    allocator. *)
Definition frame (st st' : state) : Prop :=
  vma_list st' = vma_list st /\ cr3 st' = cr3 st
  /\ contents st' = contents st.

(** ** Page-table entries *)

(** The x86-64 flag bits of an entry that the source leaves unnamed, next to
    its [pte_present] (bit 0) and [pte_large] (bit 7). *)
Definition pte_writable (pte : Z) : bool := Z.testbit pte 1.
Definition pte_user (pte : Z) : bool := Z.testbit pte 2.
Definition pte_accessed (pte : Z) : bool := Z.testbit pte 5.
Definition pte_dirty (pte : Z) : bool := Z.testbit pte 6.

(** Everything of an entry that [pte_phys] masks away. *)
Definition pte_flags (pte : Z) : Z := Z.ldiff pte pte_mask.

(** What the processor makes of a walk that ends in the entry [leaf],
    reached through the entry [above] when there is one: the physical
    address of the byte [off] into the mapped page, and whether the byte is
    present, may be written, and may be reached from user mode.  On x86-64
    each of the three holds when every entry on the walk has the bit. *)
Record access : Type := mk_access {
  acc_phys : Z;
  acc_present : bool;
  acc_write : bool;
  acc_user : bool
}.

Definition through (above : option Z) (leaf off : Z) : access :=
  let every (bit : Z -> bool) :=
    match above with
    | Some e => bit e && bit leaf
    | None => bit leaf
    end in
  mk_access (pte_phys leaf + off) (every pte_present) (every pte_writable)
    (every pte_user).

(** A page-aligned physical address that fits the address bits of an
    entry. *)
Definition phys_page (p : Z) : Prop := 0 <= p < 2 ^ 53 /\ p mod 4096 = 0.

Definition in_page (p a : Z) : Prop := p <= a < p + 4096.

(** The entry [populate_page] reaches from [ptep] at [level] when every
    level on the way is present and not large, and whether that is so. *)
Fixpoint walk_ptep (m : memory) (level : nat) (addr ptep : Z) : Z :=
  match level with
  | O => ptep
  | S level' =>
      walk_ptep m level' addr (pte_phys (m ptep) + 8 * pt_index addr level')
  end.

Fixpoint levels_ready (m : memory) (level : nat) (addr ptep : Z) : bool :=
  match level with
  | O => true
  | S level' =>
      pte_present (m ptep) && negb (pte_large (m ptep))
      && levels_ready m level' addr
           (pte_phys (m ptep) + 8 * pt_index addr level')
  end.

Definition root_ptep (st : state) (addr : Z) : Z :=
  pte_phys (cr3 st) + 8 * pt_index addr (nlevels - 1).

Definition leaf_ptep (st : state) (addr : Z) : Z :=
  walk_ptep (mem st) (nlevels - 1) addr (root_ptep st addr).

Definition ready (st : state) (addr : Z) : bool :=
  levels_ready (mem st) (nlevels - 1) addr (root_ptep st addr).

(** The page at [addr] is mapped: the walk reaches a present leaf entry. *)
Definition mapped (st : state) (addr : Z) : bool :=
  ready st addr && pte_present (mem st (leaf_ptep st addr)).

(** Populating with the tables that are there: one page from the allocator,
    written as the leaf entry, and nothing else. *)
Definition repopulate_page (addr : Z) (st : state) : option state :=
  match free_pages st with
  | [] => None
  | p :: rest =>
      Some (mk_state (vma_list st)
              (upd (mem st) (leaf_ptep st addr) (make_pte p))
              rest (cr3 st) (contents st))
  end.

Fixpoint repopulate_loop (fuel : nat) (addr limit : Z) (st : state)
  : option state :=
  if addr <? limit then
    match fuel with
    | O => None
    | S fuel' =>
        do st <- repopulate_page addr st;
        repopulate_loop fuel' (wrap64 (addr + 4096)) limit st
    end
  else Some st.

Definition repopulate (v : vma) (st : state) : option state :=
  repopulate_loop (Z.to_nat (vma_size v / 4096 + 1)) (vma_addr v)
    (wrap64 (vma_addr v + vma_size v)) st.

(** The addresses the loop of [populate] passes to [populate_page]. *)
Fixpoint visited (fuel : nat) (addr limit a : Z) : Prop :=
  if addr <? limit then
    match fuel with
    | O => False
    | S fuel' => a = addr \/ visited fuel' (wrap64 (addr + 4096)) limit a
    end
  else False.

(** The page tables in memory, with [tbl] giving the level of each page that
    is a table: the root is a level-3 table; a present entry that is not
    large, in a table above the bottom level, points to a table one level
    down; and the pages the allocator still holds are page-aligned, distinct
    and not in use as tables. *)
Record tables_ok (tbl : Z -> option nat) (st : state) : Prop := {
  ok_root : tbl (pte_phys (cr3 st)) = Some 3%nat;
  ok_aligned : forall p l, tbl p = Some l -> p mod 4096 = 0;
  ok_entries : forall p l i,
      tbl p = Some (S l) -> 0 <= i < 512 ->
      pte_present (mem st (p + 8 * i)) = true ->
      pte_large (mem st (p + 8 * i)) = false ->
      tbl (pte_phys (mem st (p + 8 * i))) = Some l;
  ok_free : forall p, In p (free_pages st) -> tbl p = None /\ phys_page p;
  ok_nodup : NoDup (free_pages st)
}.

Definition page_tables_ok (st : state) : Prop := exists tbl, tables_ok tbl st.

(** Tables stay tables, and an entry above the bottom level that is present
    and not large keeps its value. *)
Definition extends (tbl : Z -> option nat) (m : memory)
    (tbl' : Z -> option nat) (m' : memory) : Prop :=
  (forall p l, tbl p = Some l -> tbl' p = Some l)
  /\ (forall p l i,
         tbl p = Some (S l) -> 0 <= i < 512 ->
         pte_present (m (p + 8 * i)) = true ->
         pte_large (m (p + 8 * i)) = false ->
         m' (p + 8 * i) = m (p + 8 * i)).

(** A machine whose root table holds [pte] in slot 1 and nothing else, with
    one page left to allocate. *)
Definition large_state (pte : Z) : state :=
  mk_state vma_list_init (fun a => if a =? 0x1008 then pte else 0)
    [0x2000] 0x1000 (fun _ => 0).

(** [tbl] with page [q] entered as a table of level [l]. *)
Definition set_tbl (tbl : Z -> option nat) (q : Z) (l : nat)
  : Z -> option nat :=
  fun x => if x =? q then Some l else tbl x.

(** The machine after [populate_page(0x400000)] on a fresh one. *)
Definition mapped_state : state :=
  match populate_page 0x400000 (boot_state (pages_from 0x2000 8)) with
  | Some st => st
  | None => boot_state []
  end.

(** The level of each table of [boot_state]: only the root. *)
Definition boot_tbl : Z -> option nat :=
  fun p => if p =? 0x1000 then Some 3%nat else None.




(** ** Page tables that form a tree *)








(** ** Example trackers *)

Definition hole_example : list vma :=
  [sentinel_lo; mk_vma 0x10000 0x20000; sentinel_hi].

Definition evacuate_example : list vma :=
  [sentinel_lo; mk_vma 0x1000 0x3000; mk_vma 0x4000 0x7000; sentinel_hi].

(** The tracker after [map_anon_dontzero] of [0x800000001000,
    0x800000004000) and then of [0x800000002000, 0x800000003000), both above
    the upper marker. *)
Definition overlap_calls : list call :=
  [MapAnonDontzero 0x800000001000 0x800000004000 0;
   MapAnonDontzero 0x800000002000 0x800000003000 0].

Definition overlap_tracker : list vma :=
  [sentinel_lo; sentinel_hi; mk_vma 0x800000001000 0x800000004000;
   mk_vma 0x800000002000 0x800000003000].

(** Some VMA of [l] has address [a]. *)
Definition tracks (l : list vma) (a : Z) : bool :=
  existsb (fun y => (_start y <=? a) && (a <? _end y)) l.

(** ** Further vocabulary *)

(** Strictly increasing keys: the order the set keeps. *)
Fixpoint key_sorted (l : list vma) : Prop :=
  match l with
  | [] => True
  | x :: r => keys_above (_start x) r /\ key_sorted r
  end.

(** Address [a] lies in the range of [y]; some VMA of [l] has it. *)
Definition covers (y : vma) (a : Z) : Prop := _start y <= a < _end y.

Definition covered (l : list vma) (a : Z) : Prop :=
  Exists (fun y => covers y a) l.

(** * Proofs *)

(** ** Sanity checks on small inputs *)

Example vma_list_init_eq : vma_list_init = [sentinel_lo; sentinel_hi].
Proof. reflexivity. Qed.

Example evacuate_small :
  evacuate (vma_new 0x2000 0x5000)
    [sentinel_lo; mk_vma 0x1000 0x3000; mk_vma 0x4000 0x7000; sentinel_hi]
  = Some [sentinel_lo; mk_vma 0x1000 0x2000; mk_vma 0x5000 0x7000; sentinel_hi].
Proof. reflexivity. Qed.

(** ** Alignment *)

Lemma wrap64_small x : 0 <= x < 2 ^ 64 -> wrap64 x = x.
Proof. intros H. unfold wrap64. apply Z.mod_small. exact H. Qed.

Lemma wrap64_range x : 0 <= wrap64 x < 2 ^ 64.
Proof. unfold wrap64. apply Z.mod_pos_bound. lia. Qed.

Lemma align_down_eq x :
  0 <= x < 2 ^ 64 -> align_down x = 4096 * (x / 4096).
Proof.
  intros H. unfold align_down, not64, page_size.
  change (4096 - 1) with (Z.ones 12).
  transitivity (Z.shiftl (Z.shiftr x 12) 12).
  - replace x with (Z.land x (Z.ones 64))
      by (rewrite Z.land_ones by lia; now apply Z.mod_small).
    Z.bitblast;
      rewrite Z.land_spec, Z.testbit_ones_nonneg by lia;
      destruct (Z.ltb_spec l 64); try lia;
      destruct (Z.testbit x l); reflexivity.
  - rewrite Z.shiftl_mul_pow2, Z.shiftr_div_pow2 by lia.
    change (2 ^ 12) with 4096. lia.
Qed.

Lemma align_down_aligned x : 0 <= x < 2 ^ 64 -> aligned64 (align_down x).
Proof.
  intros H. rewrite align_down_eq by exact H. unfold aligned64, page_size.
  pose proof (Z.mul_div_le x 4096 ltac:(lia)).
  pose proof (Z.div_pos x 4096 ltac:(lia) ltac:(lia)).
  split; [lia|]. rewrite Z.mul_comm. apply Z.mod_mul. lia.
Qed.

Lemma align_down_fix a : aligned64 a -> align_down a = a.
Proof.
  intros [H M]. rewrite align_down_eq by exact H. unfold page_size in M.
  pose proof (Z.div_mod a 4096 ltac:(lia)). lia.
Qed.

Lemma align_down_le x : 0 <= x < 2 ^ 64 -> x - 4096 < align_down x <= x.
Proof.
  intros H. rewrite align_down_eq by exact H.
  pose proof (Z.div_mod x 4096 ltac:(lia)).
  pose proof (Z.mod_pos_bound x 4096 ltac:(lia)). lia.
Qed.

Lemma align_up_aligned x : aligned64 (align_up x).
Proof. unfold align_up. apply align_down_aligned, wrap64_range. Qed.

Lemma aligned64_top a : aligned64 a -> a <= 2 ^ 64 - 4096.
Proof.
  intros [H M]. unfold page_size in M.
  pose proof (Z.div_mod a 4096 ltac:(lia)).
  assert (a / 4096 < 2 ^ 52) by (apply Z.div_lt_upper_bound; lia).
  lia.
Qed.

Lemma align_up_fix a : aligned64 a -> align_up a = a.
Proof.
  intros A. pose proof (aligned64_top a A) as T. destruct A as [H M].
  unfold align_up, page_size. rewrite wrap64_small by lia.
  rewrite align_down_eq by lia. unfold page_size in M.
  pose proof (Z.div_mod a 4096 ltac:(lia)).
  replace (a + 4096 - 1) with (4095 + (a / 4096) * 4096) by lia.
  rewrite Z.div_add by lia. change (4095 / 4096) with 0. lia.
Qed.

Lemma align_up_ge x :
  0 <= x <= 2 ^ 64 - 4096 -> x <= align_up x < x + 4096.
Proof.
  intros H. unfold align_up, page_size. rewrite wrap64_small by lia.
  pose proof (align_down_le (x + 4096 - 1) ltac:(lia)). lia.
Qed.

Lemma vma_new_aligned s e :
  aligned64 s -> aligned64 e -> vma_new s e = mk_vma s e.
Proof.
  intros A B. unfold vma_new. now rewrite align_down_fix, align_up_fix.
Qed.

(** ** The ordered set as a sorted list *)

Lemma sorted_app (l1 l2 : list vma) :
  sorted (l1 ++ l2) <->
  sorted l1 /\ sorted l2 /\ Forall (fun a => Forall (before a) l2) l1.
Proof.
  induction l1 as [|a l1 IH]; simpl.
  - intuition.
  - rewrite Forall_app, IH, Forall_cons_iff. tauto.
Qed.

Lemma sorted_zip pre x post :
  sorted (pre ++ x :: post) ->
  Forall (fun y => before y x) pre /\ Forall (before x) post.
Proof.
  rewrite sorted_app. simpl. intros (_ & (Hx & _) & Hp). split; [|exact Hx].
  eapply Forall_impl; [|exact Hp]. intros a Ha. now inversion Ha.
Qed.

Lemma sorted_keys pre x post :
  sorted (pre ++ x :: post) ->
  keys_below (_start x) pre /\ keys_above (_start x) post.
Proof.
  intros H. apply sorted_zip in H. destruct H as [H1 H2]. split.
  - eapply Forall_impl; [|exact H1]. intros a [_ Ha]. exact Ha.
  - eapply Forall_impl; [|exact H2]. intros a [_ Ha]. exact Ha.
Qed.

Lemma deref_zip pre x post :
  keys_below (_start x) pre -> deref (pre ++ x :: post) (_start x) = Some x.
Proof.
  unfold deref. induction 1 as [|a l Ha Hl IH]; simpl.
  - now rewrite Z.eqb_refl.
  - destruct (Z.eqb_spec (_start a) (_start x)); [lia|exact IH].
Qed.

Lemma set_end_zip pre x post edge :
  keys_below (_start x) pre ->
  set_end (_start x) edge (pre ++ x :: post)
  = pre ++ mk_vma (_start x) edge :: post.
Proof.
  induction 1 as [|a l Ha Hl IH]; simpl.
  - now rewrite Z.eqb_refl.
  - destruct (Z.eqb_spec (_start a) (_start x)); [lia|now rewrite IH].
Qed.

Lemma erase_zip pre x post :
  keys_below (_start x) pre -> erase (_start x) (pre ++ x :: post) = pre ++ post.
Proof.
  induction 1 as [|a l Ha Hl IH]; simpl.
  - now rewrite Z.eqb_refl.
  - destruct (Z.eqb_spec (_start a) (_start x)); [lia|now rewrite IH].
Qed.

Lemma insert_zip pre x post n :
  keys_below (_start x) pre -> _start x < _start n ->
  insert n (pre ++ x :: post) = pre ++ x :: insert n post.
Proof.
  intros H Hn. induction H as [|a l Ha Hl IH]; simpl.
  - destruct (Z.ltb_spec (_start n) (_start x)); [lia|].
    destruct (Z.ltb_spec (_start x) (_start n)); [reflexivity|lia].
  - destruct (Z.ltb_spec (_start n) (_start a)); [lia|].
    destruct (Z.ltb_spec (_start a) (_start n)); [now rewrite IH|lia].
Qed.

Lemma insert_front n post :
  keys_above (_start n) post -> insert n post = n :: post.
Proof.
  destruct 1 as [|b r Hb Hr]; simpl; [reflexivity|].
  destruct (Z.ltb_spec (_start n) (_start b)); [reflexivity|lia].
Qed.

Lemma next_key_zip pre x post :
  keys_below (_start x) pre -> keys_above (_start x) post ->
  next_key (pre ++ x :: post) (_start x) = begin post.
Proof.
  intros H Hpost. induction H as [|a l Ha Hl IH]; simpl.
  - rewrite Z.ltb_irrefl. destruct Hpost as [|b r Hb Hr]; simpl; [reflexivity|].
    destruct (Z.ltb_spec (_start x) (_start b)); [reflexivity|lia].
  - destruct (Z.ltb_spec (_start x) (_start a)); [lia|exact IH].
Qed.

Lemma prev_key_zip pre x post :
  keys_below (_start x) pre ->
  prev_key (pre ++ x :: post) (_start x) = prev_end pre.
Proof.
  unfold prev_end. induction 1 as [|a l Ha Hl IH]; simpl.
  - now rewrite Z.ltb_irrefl.
  - destruct (Z.ltb_spec (_start a) (_start x)); [|lia].
    rewrite IH. rewrite <- (rev_involutive l) at 1.
    destruct (rev l) as [|b r]; simpl; [reflexivity|].
    rewrite rev_app_distr. reflexivity.
Qed.

Lemma prev_end_snoc (l : list vma) (y : vma) :
  prev_end (l ++ [y]) = Some (_start y).
Proof. unfold prev_end. now rewrite rev_app_distr. Qed.

Lemma prev_end_zip pre x post :
  prev_end (pre ++ x :: post) = Some (_start (last post x)).
Proof.
  destruct post as [|b r] using rev_ind.
  - apply prev_end_snoc.
  - rewrite last_last.
    replace (pre ++ x :: r ++ [b]) with ((pre ++ x :: r) ++ [b])
      by now rewrite <- app_assoc.
    apply prev_end_snoc.
Qed.

(** ** Splitting keeps the tracker well formed *)

Lemma wf_replace pre x ps post :
  wf (pre ++ x :: post) ->
  sorted ps -> Forall good_vma ps -> Forall (piece_of x) ps ->
  wf (pre ++ ps ++ post).
Proof.
  intros [Hs Hg] Hps Hgs Hpc. split.
  - pose proof (sorted_zip _ _ _ Hs) as [Hb Ha].
    apply sorted_app in Hs. destruct Hs as (Hpre & [_ Hpost] & Hcross).
    rewrite !sorted_app. repeat split; trivial.
    + rewrite Forall_forall in *. intros p Hp.
      rewrite Forall_forall. intros z Hz.
      specialize (Hpc p Hp). specialize (Ha z Hz).
      unfold piece_of, before in *. lia.
    + rewrite Forall_forall in *. intros a Hin. rewrite Forall_app. split.
      * rewrite Forall_forall. intros p Hp.
        specialize (Hpc p Hp). specialize (Hb a Hin).
        unfold piece_of, before in *. lia.
      * specialize (Hcross a Hin). now inversion Hcross.
  - rewrite !Forall_app in *. destruct Hg as [Hg1 Hg2].
    inversion Hg2; subst. auto.
Qed.

Lemma wf_erase pre x post : wf (pre ++ x :: post) -> wf (pre ++ post).
Proof. intros H. apply (wf_replace pre x [] post H); simpl; auto. Qed.

Lemma wf_good pre x post : wf (pre ++ x :: post) -> good_vma x.
Proof.
  intros [_ Hg]. rewrite Forall_app in Hg. destruct Hg as [_ Hg].
  now inversion Hg.
Qed.

Lemma trunc_start x edge : _start (trunc x edge) = _start x.
Proof. unfold trunc. now destruct (inside x edge). Qed.

Lemma inside_iff x edge : inside x edge = true <-> _start x < edge < _end x.
Proof.
  unfold inside. rewrite negb_true_iff, orb_false_iff, !Z.leb_gt. tauto.
Qed.

Lemma vma_split_zip pre x post edge :
  wf (pre ++ x :: post) -> aligned64 edge ->
  vma_split (_start x) edge (pre ++ x :: post)
  = pre ++ trunc x edge :: remainder x edge ++ post.
Proof.
  intros Hwf Hedge. pose proof (wf_good _ _ _ Hwf) as (Gs & Ge & Gle).
  destruct Hwf as [Hs _].
  pose proof (sorted_keys _ _ _ Hs) as [Kb Ka].
  pose proof (sorted_zip _ _ _ Hs) as [_ Ha].
  unfold vma_split, trunc, remainder. rewrite deref_zip by exact Kb.
  pose proof (inside_iff x edge) as Hin. unfold inside in *.
  destruct ((edge <=? _start x) || (_end x <=? edge)); simpl; [reflexivity|].
  apply proj1 in Hin. specialize (Hin eq_refl).
  rewrite vma_new_aligned by assumption.
  rewrite set_end_zip by exact Kb.
  rewrite (insert_zip pre (mk_vma (_start x) edge)) by (simpl; trivial; lia).
  rewrite insert_front; [reflexivity|].
  eapply Forall_impl; [|exact Ha]. intros z [Hz _]. simpl. lia.
Qed.

Lemma wf_split pre x post edge :
  wf (pre ++ x :: post) -> aligned64 edge ->
  wf (pre ++ trunc x edge :: remainder x edge ++ post).
Proof.
  intros Hwf Hedge. pose proof (wf_good _ _ _ Hwf) as (Gs & Ge & Gle).
  apply (wf_replace pre x (trunc x edge :: remainder x edge) post Hwf);
    unfold trunc, remainder; destruct (inside x edge) eqn:Hin;
    try apply inside_iff in Hin;
    unfold good_vma, aligned64, before, piece_of in *; simpl;
    repeat first [apply Forall_nil | apply Forall_cons | split];
    simpl; try tauto; lia.
Qed.

(** ** The rounds of [evacuate] *)

Lemma weight_app v l1 l2 :
  weight v (l1 ++ l2) = (weight v l1 + weight v l2)%nat.
Proof. induction l1 as [|a l1 IH]; simpl; [reflexivity|rewrite IH; lia]. Qed.

Lemma weight_bound v l : (weight v l <= 3 * length l)%nat.
Proof.
  induction l as [|a l IH]; simpl; [lia|].
  assert (cuts v a <= 2)%nat
    by (unfold cuts; destruct (inside a (_end v)), (inside a (_start v)); lia).
  lia.
Qed.

Ltac split_cases :=
  repeat first
    [ progress (unfold cuts, trunc, remainder, inside, contains, clear in * )
    | progress (simpl in * )
    | match goal with
      | |- context [?a <=? ?b] => destruct (Z.leb_spec a b)
      | H : context [?a <=? ?b] |- _ => destruct (Z.leb_spec a b)
      end ];
  try discriminate; try lia.

Lemma weight_split v x edge :
  edge = _end v \/ edge = _start v ->
  (cuts v (trunc x edge) + weight v (remainder x edge) <= cuts v x)%nat.
Proof. intros [->| ->]; split_cases. Qed.

Lemma trunc_clear v x :
  let x2 := trunc (trunc x (_end v)) (_start v) in
  contains v x2 = false -> clear v x2.
Proof. intros x2 H. subst x2. split_cases. Qed.

Lemma begin_cons (z : vma) (r : list vma) : begin (z :: r) = Some (_start z).
Proof. reflexivity. Qed.

(** One run of the loop from the node at the head of [body]: everything
    between the nodes already passed ([pre]) and the last node is left clear
    of [v]. *)
Lemma evacuate_loop_ok v :
  aligned64 (_start v) -> aligned64 (_end v) ->
  forall fuel pre body lst,
    wf (pre ++ body ++ [lst]) -> pre <> [] ->
    (weight v body < fuel)%nat ->
    exists mid,
      evacuate_loop fuel v (begin (body ++ [lst])) (pre ++ body ++ [lst])
      = Some (pre ++ mid ++ [lst])
      /\ wf (pre ++ mid ++ [lst]) /\ Forall (clear v) mid.
Proof.
  intros Hs He. induction fuel as [|fuel IH];
    intros pre body lst Hwf Hne Hw; [lia|].
  destruct body as [|x body].
  - exists []. simpl app. cbn [evacuate_loop].
    rewrite prev_end_snoc. simpl. rewrite Z.eqb_refl. auto.
  - simpl app in *. rewrite begin_cons. cbn [evacuate_loop].
    replace (prev_end (pre ++ x :: body ++ [lst])) with (Some (_start lst))
      by (rewrite app_comm_cons, app_assoc; symmetry; apply prev_end_snoc).
    cbn [iterator_eqb].
    pose proof Hwf as [Hsorted _].
    pose proof (sorted_keys _ _ _ Hsorted) as [Kb Ka].
    assert (Hlt : _start x < _start lst).
    { unfold keys_above in Ka. rewrite Forall_app in Ka.
      destruct Ka as [_ Ka]. now inversion Ka. }
    destruct (Z.eqb_spec (_start x) (_start lst)) as [|_]; [lia|].
    rewrite (vma_split_zip pre x (body ++ [lst]) (_end v) Hwf He).
    pose proof (wf_split pre x _ (_end v) Hwf He) as Hwf1.
    pose proof (weight_split v x (_end v) (or_introl eq_refl)) as W1.
    set (x1 := trunc x (_end v)) in *.
    rewrite <- (trunc_start x (_end v)). fold x1.
    rewrite (vma_split_zip pre x1 _ (_start v) Hwf1 Hs).
    pose proof (wf_split pre x1 _ (_start v) Hwf1 Hs) as Hwf2.
    pose proof (weight_split v x1 (_start v) (or_intror eq_refl)) as W2.
    pose proof (trunc_clear v x) as Hclear. cbv zeta in Hclear. fold x1 in Hclear.
    set (x2 := trunc x1 (_start v)) in *.
    rewrite <- (trunc_start x1 (_start v)). fold x2.
    set (B2 := remainder x1 (_start v) ++ remainder x (_end v) ++ body).
    assert (EB : remainder x1 (_start v) ++ remainder x (_end v) ++ body ++ [lst]
                 = B2 ++ [lst])
      by (unfold B2; now rewrite <- !app_assoc).
    rewrite EB in *.
    assert (HwB : (weight v B2 < fuel)%nat).
    { unfold B2. rewrite !weight_app. simpl in Hw. lia. }
    pose proof Hwf2 as [Hs2 _].
    pose proof (sorted_keys _ _ _ Hs2) as [Kb2 Ka2].
    rewrite deref_zip by exact Kb2.
    destruct (contains v x2) eqn:Hc.
    + rewrite prev_key_zip by exact Kb2.
      destruct (exists_last Hne) as (pre' & y & ->).
      rewrite prev_end_snoc, erase_zip by exact Kb2.
      pose proof (wf_erase _ _ _ Hwf2) as Hwf3.
      assert (Hn : next_key ((pre' ++ [y]) ++ B2 ++ [lst]) (_start y)
                   = begin (B2 ++ [lst])).
      { destruct Hwf3 as [Hs3 _]. rewrite <- app_assoc in *. simpl in *.
        pose proof (sorted_keys _ _ _ Hs3) as [? ?].
        now apply next_key_zip. }
      rewrite Hn. now apply IH.
    + rewrite next_key_zip by assumption.
      destruct (IH (pre ++ [x2]) B2 lst) as (mid & E & W & C).
      { rewrite <- app_assoc. exact Hwf2. }
      { intros Hnil. now apply app_eq_nil in Hnil. }
      { exact HwB. }
      exists (x2 :: mid). rewrite <- !app_assoc in *. simpl in *.
      repeat split; try apply W; auto.
Qed.

Lemma evacuate_ok v first body lst :
  aligned64 (_start v) -> aligned64 (_end v) ->
  wf (first :: body ++ [lst]) ->
  exists mid,
    evacuate v (first :: body ++ [lst]) = Some (first :: mid ++ [lst])
    /\ wf (first :: mid ++ [lst]) /\ Forall (clear v) mid.
Proof.
  intros Hs He Hwf. unfold evacuate. rewrite begin_cons.
  pose proof Hwf as [Hsorted _].
  pose proof (sorted_keys [] first _ Hsorted) as [Kb Ka].
  pose proof (next_key_zip [] first _ Kb Ka) as Hn. simpl app in Hn.
  rewrite Hn.
  apply (evacuate_loop_ok v Hs He _ [first] body lst Hwf); [discriminate|].
  pose proof (weight_bound v body). simpl length. rewrite length_app. simpl. lia.
Qed.

(** ** Small inputs *)

Ltac solve_wf :=
  unfold tracker_inv, wf, good_vma, aligned64, before, page_size,
    sentinel_lo, sentinel_hi; simpl;
  repeat first [apply Forall_nil | apply Forall_cons | split];
  simpl; try reflexivity; try lia.

Example wf_vma_list_init : tracker_inv vma_list_init.
Proof. rewrite vma_list_init_eq. split; [solve_wf|]. now exists []. Qed.

(** ** split *)

(** C8. Splitting a VMA of a well-formed tracker at a page-aligned edge
    strictly inside it truncates the node in place to [start, edge) and
    links the new node [edge, end) right behind it, with the same addresses
    covered and the same total size; at or outside either boundary the call
    changes nothing. *)
Theorem split_correct pre x post :
  wf (pre ++ x :: post) ->
  (forall edge,
      aligned64 edge -> _start x < edge < _end x ->
      vma_split (_start x) edge (pre ++ x :: post)
      = pre ++ mk_vma (_start x) edge :: mk_vma edge (_end x) :: post
      /\ (forall a, (_start x <= a < edge \/ edge <= a < _end x)
                    <-> _start x <= a < _end x)
      /\ vma_size (mk_vma (_start x) edge) + vma_size (mk_vma edge (_end x))
         = vma_size x)
  /\ (forall edge,
      edge <= _start x \/ _end x <= edge ->
      vma_split (_start x) edge (pre ++ x :: post) = pre ++ x :: post).
Proof.
  intros Hwf. split.
  - intros edge Hedge Hin. split; [|split].
    + rewrite vma_split_zip by assumption. unfold trunc, remainder.
      apply inside_iff in Hin. rewrite Hin. reflexivity.
    + intros a. lia.
    + destruct (wf_good _ _ _ Hwf) as ((Rs & _) & (Re & _) & Hle).
      destruct Hedge as [Redge _].
      unfold vma_size. simpl. rewrite !wrap64_small by lia. lia.
  - intros edge Hout. destruct Hwf as [Hs _].
    pose proof (sorted_keys _ _ _ Hs) as [Kb _].
    unfold vma_split. rewrite deref_zip by exact Kb.
    destruct (Z.leb_spec edge (_start x)); [reflexivity|].
    destruct (Z.leb_spec (_end x) edge); [reflexivity|lia].
Qed.

Lemma split_correct_witness :
  wf ([sentinel_lo] ++ mk_vma 0x1000 0x5000 :: [sentinel_hi])
  /\ vma_split 0x1000 0x3000 [sentinel_lo; mk_vma 0x1000 0x5000; sentinel_hi]
     = [sentinel_lo; mk_vma 0x1000 0x3000; mk_vma 0x3000 0x5000; sentinel_hi]
  /\ vma_split 0x1000 0x1000 [sentinel_lo; mk_vma 0x1000 0x5000; sentinel_hi]
     = [sentinel_lo; mk_vma 0x1000 0x5000; sentinel_hi]
  /\ vma_split 0x1000 0x5000 [sentinel_lo; mk_vma 0x1000 0x5000; sentinel_hi]
     = [sentinel_lo; mk_vma 0x1000 0x5000; sentinel_hi].
Proof.
  assert (W : wf ([sentinel_lo] ++ mk_vma 0x1000 0x5000 :: [sentinel_hi]))
    by solve_wf.
  split; [exact W|].
  destruct (split_correct [sentinel_lo] (mk_vma 0x1000 0x5000) [sentinel_hi] W)
    as [Hin Hout].
  split; [|split].
  - apply (Hin 0x3000); [solve_wf | simpl; lia].
  - apply (Hout 0x1000). simpl. lia.
  - apply (Hout 0x5000). simpl. lia.
Defined.

(** Without the invariant the remainder can be lost.  Two
    [map_anon_dontzero] calls above the upper marker leave
    [0x800000001000, 0x800000004000) and [0x800000002000, 0x800000003000)
    tracked together; splitting the first at [0x800000002000], a page-aligned
    edge strictly inside it, truncates it in place, and the set refuses the
    new node because the second VMA holds its key: [0x800000003000,
    0x800000004000) is tracked before the split and not after. *)
Lemma split_loses_remainder :
  option_map vma_list (run overlap_calls (boot_state (pages_from 0x2000 16)))
  = Some overlap_tracker
  /\ inside (mk_vma 0x800000001000 0x800000004000) 0x800000002000 = true
  /\ vma_split 0x800000001000 0x800000002000 overlap_tracker
     = [sentinel_lo; sentinel_hi; mk_vma 0x800000001000 0x800000002000;
        mk_vma 0x800000002000 0x800000003000]
  /\ tracks overlap_tracker 0x800000003000 = true
  /\ tracks (vma_split 0x800000001000 0x800000002000 overlap_tracker)
       0x800000003000 = false.
Proof.
  split; [vm_compute; reflexivity|].
  split; [reflexivity|]. split; [reflexivity|].
  split; reflexivity.
Qed.

(** ** find_hole *)

Lemma find_all_false {A : Type} (f : A -> bool) (l : list A) :
  (forall a, In a l -> f a = false) -> find f l = None.
Proof.
  induction l as [|a l IH]; simpl; intros H; [reflexivity|].
  rewrite (H a) by now left. apply IH. intros b Hb. apply H. now right.
Qed.

Lemma wf_tail x l : wf (x :: l) -> wf l.
Proof. intros [[_ Hs] Hg]. split; [exact Hs|now inversion Hg]. Qed.

Lemma wf_head_le x l y :
  wf (x :: l) -> In y l -> _end x <= _start y /\ _start x < _start y.
Proof.
  intros [[Hb _] _] Hy. rewrite Forall_forall in Hb. exact (Hb y Hy).
Qed.

Lemma wf_in_good l y : wf l -> In y l -> good_vma y.
Proof. intros [_ Hg] Hy. rewrite Forall_forall in Hg. exact (Hg y Hy). Qed.

Lemma find_hole_from_spec start size :
  0 <= size -> 0 <= start -> start + size < 2 ^ 64 ->
  forall rest p,
    wf (p :: rest) ->
    find_hole_from p rest start size = find_hole_spec (p :: rest) start size.
Proof.
  intros Hsz Hst Hfit. induction rest as [|n rest IH]; intros p Hwf;
    [reflexivity|].
  unfold find_hole_spec. change (adjacent_pairs (p :: n :: rest))
    with ((p, n) :: adjacent_pairs (n :: rest)).
  cbn [find_hole_from find]. unfold hint_fits at 1, gap_fits at 1. cbn [fst snd].
  destruct (wf_head_le p _ n Hwf (or_introl eq_refl)) as [Hpn _].
  destruct (wf_in_good _ p Hwf (or_introl eq_refl)) as (_ & ((Pe & _) & _)).
  destruct (wf_in_good _ n Hwf (or_intror (or_introl eq_refl)))
    as ((Ns & _) & _).
  rewrite (wrap64_small (start + size)) by lia.
  rewrite (wrap64_small (_start n - _end p)) by lia.
  destruct ((_end p <=? start) && (start + size <=? _start n)) eqn:H1;
    [reflexivity|].
  destruct ((start <=? _end p) && (size <=? _start n - _end p)) eqn:H2.
  - rewrite find_all_false; [reflexivity|]. intros [p' n'] Hin.
    apply in_combine_l in Hin.
    destruct (hint_fits start size (p', n')) eqn:H3; [exfalso|reflexivity].
    unfold hint_fits in H3. cbn [fst snd] in H3.
    apply andb_true_iff in H2, H3. destruct H2 as [H2 H2'], H3 as [H3 _].
    apply Z.leb_le in H2, H2', H3.
    destruct (wf_in_good _ p' (wf_tail _ _ Hwf) Hin) as (_ & _ & Hp').
    assert (_start n <= _start p').
    { destruct Hin as [<-|Hin]; [lia|].
      destruct (wf_head_le n _ p' (wf_tail _ _ Hwf) Hin). lia. }
    assert (size = 0) by lia. subst size.
    rewrite Z.add_0_r in H1.
    apply andb_false_iff in H1. rewrite !Z.leb_gt in H1. lia.
  - apply IH. exact (wf_tail _ _ Hwf).
Qed.

(** C6. On a sorted, non-overlapping tracker, for a request whose
    [start + size] stays below [2 ^ 64], [find_hole] answers as the scan is
    described: the hint, when some pair of neighbours has it in their gap
    with [start + size <= next.start]; otherwise the end of the first node
    at or above the hint whose gap is large enough; otherwise it aborts.
    With [0x10000, 0x20000) between the markers, [find_hole(0x9000, 0x1000)]
    is [0x9000] and [find_hole(0x15000, 0x2000)] is at or after [0x20000]. *)
Theorem find_hole_scan :
  (forall l start size,
      wf l -> 0 <= size -> 0 <= start -> start + size < 2 ^ 64 ->
      find_hole l start size = find_hole_spec l start size)
  /\ find_hole hole_example 0x9000 0x1000 = Some 0x9000
  /\ exists a, find_hole hole_example 0x15000 0x2000 = Some a /\ 0x20000 <= a.
Proof.
  split; [|split].
  - intros [|p rest] start size Hwf Hsz Hst Hfit; [reflexivity|].
    now apply find_hole_from_spec.
  - reflexivity.
  - exists 0x20000. split; [reflexivity|lia].
Qed.

Lemma find_hole_scan_witness :
  wf hole_example /\ 0 <= 0x2000 /\ 0 <= 0x15000
  /\ 0x15000 + 0x2000 < 2 ^ 64
  /\ find_hole hole_example 0x15000 0x2000
     = find_hole_spec hole_example 0x15000 0x2000.
Proof.
  assert (W : wf hole_example) by solve_wf.
  assert (S : 0 <= 0x2000) by lia.
  assert (A : 0 <= 0x15000) by lia.
  assert (F : 0x15000 + 0x2000 < 2 ^ 64) by lia.
  split; [exact W|]. split; [exact S|]. split; [exact A|]. split; [exact F|].
  exact (proj1 find_hole_scan hole_example 0x15000 0x2000 W S A F).
Defined.

(** When [start + size] passes [2 ^ 64] the code compares the wrapped sum:
    on the initial tracker the hint [0xfffffffffffff000] is returned for a
    request of [0x2000] bytes, though [start + size] lies above the start of
    every node and no pair of neighbours has room for it. *)
Lemma find_hole_wraps :
  wf vma_list_init
  /\ find_hole vma_list_init 0xfffffffffffff000 0x2000
     = Some 0xfffffffffffff000
  /\ find_hole_spec vma_list_init 0xfffffffffffff000 0x2000 = None
  /\ Forall (fun y => _start y < 0xfffffffffffff000 + 0x2000) vma_list_init.
Proof.
  split; [exact (proj1 wf_vma_list_init)|].
  split; [reflexivity|]. split; [reflexivity|].
  rewrite vma_list_init_eq. repeat constructor.
Qed.

(** ** evacuate *)

Lemma clear_no_overlap v y : clear v y -> overlaps y v = false.
Proof. unfold clear, overlaps. intros H. apply Z.ltb_ge. lia. Qed.

Lemma degenerate_no_overlap v y : _start y = _end y -> overlaps y v = false.
Proof. unfold overlaps. intros H. apply Z.ltb_ge. lia. Qed.

(** C2, as the code has it.  On a well-formed tracker [evacuate] returns,
    leaves the tracker well formed, and no remaining VMA overlaps the target,
    however many VMAs overlapped it before.  A VMA starting at address 0
    cannot be tracked (the lower marker holds that key), so the example
    starts one page up: from [0x1000, 0x3000) and [0x4000, 0x7000),
    evacuating [0x2000, 0x5000) leaves exactly [0x1000, 0x2000) and
    [0x5000, 0x7000). *)
Theorem evacuate_clears :
  (forall v l,
      aligned64 (_start v) -> aligned64 (_end v) -> tracker_inv l ->
      exists l',
        evacuate v l = Some l' /\ tracker_inv l'
        /\ Forall (fun y => overlaps y v = false) l')
  /\ evacuate (vma_new 0x2000 0x5000) evacuate_example
     = Some [sentinel_lo; mk_vma 0x1000 0x2000; mk_vma 0x5000 0x7000;
             sentinel_hi].
Proof.
  split; [|reflexivity].
  intros v l Hs He [Hwf [body ->]].
  destruct (evacuate_ok v sentinel_lo body sentinel_hi Hs He Hwf)
    as (mid & E & W & C).
  exists (sentinel_lo :: mid ++ [sentinel_hi]). split; [exact E|]. split.
  - split; [exact W|now exists mid].
  - constructor; [now apply degenerate_no_overlap|].
    apply Forall_app. split.
    + eapply Forall_impl; [|exact C]. intros y. apply clear_no_overlap.
    + constructor; [now apply degenerate_no_overlap|constructor].
Qed.

Lemma evacuate_clears_witness :
  aligned64 0x2000 /\ aligned64 0x5000 /\ tracker_inv evacuate_example
  /\ exists l',
      evacuate (mk_vma 0x2000 0x5000) evacuate_example = Some l'
      /\ tracker_inv l'
      /\ Forall (fun y => overlaps y (mk_vma 0x2000 0x5000) = false) l'.
Proof.
  assert (A : aligned64 0x2000) by solve_wf.
  assert (B : aligned64 0x5000) by solve_wf.
  assert (T : tracker_inv evacuate_example).
  { split; [solve_wf|]. now exists [mk_vma 0x1000 0x3000; mk_vma 0x4000 0x7000]. }
  split; [exact A|]. split; [exact B|]. split; [exact T|].
  exact (proj1 evacuate_clears (mk_vma 0x2000 0x5000) evacuate_example A B T).
Defined.

(** The example of C2 as the specification gives it.  A VMA [0, 0x2000)
    cannot be linked next to the lower marker, and a node with key 0 is
    never visited, so [0, 0x1000) is not what remains. *)
Lemma evacuate_example_fails :
  insert (vma_new 0x3000 0x6000) (insert (vma_new 0 0x2000) vma_list_init)
  = [sentinel_lo; mk_vma 0x3000 0x6000; sentinel_hi]
  /\ evacuate (vma_new 0x1000 0x4000)
       [sentinel_lo; mk_vma 0x3000 0x6000; sentinel_hi]
     = Some [sentinel_lo; mk_vma 0x4000 0x6000; sentinel_hi]
  /\ evacuate (vma_new 0x1000 0x4000)
       [mk_vma 0 0x2000; mk_vma 0x3000 0x6000; sentinel_hi]
     = Some [mk_vma 0 0x2000; mk_vma 0x4000 0x6000; sentinel_hi]
  /\ overlaps (mk_vma 0 0x2000) (vma_new 0x1000 0x4000) = true.
Proof. repeat split; reflexivity. Qed.

(** ** unmap *)

(** C1, evaluated.  [unmap(addr, size)] hands [evacuate] the VMA built from
    the pair (addr, size), so its end is [size] and not [addr + size]:
    unmapping the page at [0x3000] leaves the VMA [0x3000, 0x4000) in
    place. *)
Theorem unmap_passes_size_as_end :
  (forall addr size l, unmap addr size l = evacuate (vma_new addr size) l)
  /\ unmap 0x3000 0x1000 [sentinel_lo; mk_vma 0x3000 0x4000; sentinel_hi]
     = Some [sentinel_lo; mk_vma 0x3000 0x4000; sentinel_hi]
  /\ overlaps (mk_vma 0x3000 0x4000) (vma_new 0x3000 (0x3000 + 0x1000)) = true.
Proof. repeat split; reflexivity. Qed.

(** ** Inserting into a gap *)

Lemma insert_In n l y : In y (insert n l) -> y = n \/ In y l.
Proof.
  induction l as [|a l IH]; simpl.
  - intros [<-|[]]. now left.
  - destruct (_start n <? _start a); [simpl; intuition|].
    destruct (_start a <? _start n); [|simpl; intuition].
    simpl. intros [<-|H]; [intuition|]. destruct (IH H); intuition.
Qed.

Lemma wf_insert n l :
  wf l -> good_vma n -> Forall (clear n) l -> wf (insert n l).
Proof.
  intros Hwf Hn Hc. induction l as [|a l IH]; simpl.
  - split; [simpl; auto|auto].
  - inversion Hc as [|? ? Ha Hl]; subst.
    pose proof (wf_in_good _ a Hwf (or_introl eq_refl)) as (_ & _ & Hale).
    pose proof Hn as (Ns & Ne & Nle).
    destruct (Z.ltb_spec (_start n) (_start a)).
    + split; [|constructor; [exact Hn|apply Hwf]].
      split; [|apply Hwf]. rewrite Forall_forall. intros y Hy.
      rewrite Forall_forall in Hc. specialize (Hc y Hy).
      pose proof (wf_in_good _ y Hwf Hy) as (_ & _ & Hyle).
      assert (_start a <= _start y).
      { destruct Hy as [<-|Hy]; [lia|].
        destruct (wf_head_le a l y Hwf Hy). lia. }
      unfold clear, before in *. lia.
    + destruct (Z.ltb_spec (_start a) (_start n)); [|exact Hwf].
      specialize (IH (wf_tail _ _ Hwf) Hl). destruct IH as [IHs IHg].
      split; [|constructor; [exact (wf_in_good _ a Hwf (or_introl eq_refl))
                            |exact IHg]].
      split; [|exact IHs]. rewrite Forall_forall. intros y Hy.
      apply insert_In in Hy. destruct Hy as [->|Hy].
      * unfold clear, before in *. lia.
      * exact (wf_head_le a l y Hwf Hy).
Qed.

Lemma insert_keeps_last n mid lst :
  _start n <= _start lst -> exists mid', insert n (mid ++ [lst]) = mid' ++ [lst].
Proof.
  intros H. induction mid as [|a mid IH]; simpl.
  - destruct (Z.ltb_spec (_start n) (_start lst)); [now exists [n]|].
    destruct (Z.ltb_spec (_start lst) (_start n)); [lia|now exists []].
  - destruct (_start n <? _start a); [now exists (n :: a :: mid)|].
    destruct (_start a <? _start n); [|now exists (a :: mid)].
    destruct IH as [mid' ->]. now exists (a :: mid').
Qed.

Lemma tracker_inv_insert n l :
  tracker_inv l -> good_vma n -> _end n <= top -> Forall (clear n) l ->
  tracker_inv (insert n l).
Proof.
  intros [Hwf [mid E]] Hn Htop Hc. split; [now apply wf_insert|].
  subst l. destruct Hn as ((Ns & _) & _ & Nle). cbn [insert].
  change (_start sentinel_lo) with 0.
  destruct (Z.ltb_spec (_start n) 0); [lia|].
  destruct (Z.ltb_spec 0 (_start n)); [|now exists mid].
  destruct (insert_keeps_last n mid sentinel_hi) as [mid' ->];
    [unfold top in Htop; simpl; lia|].
  now exists mid'.
Qed.

Lemma align_down_ge a x :
  aligned64 a -> 0 <= x < 2 ^ 64 -> a <= x -> a <= align_down x.
Proof.
  intros [Ha Ma] Hx Hle. rewrite align_down_eq by exact Hx.
  unfold page_size in Ma. pose proof (Z.div_mod a 4096 ltac:(lia)).
  assert (a / 4096 <= x / 4096) by (apply Z.div_le_mono; lia). lia.
Qed.

Lemma align_up_le b x :
  aligned64 b -> 0 <= x <= b -> align_up x <= b.
Proof.
  intros Hb Hx. pose proof (aligned64_top b Hb). destruct Hb as [Rb Mb].
  unfold align_up, page_size. rewrite wrap64_small by lia.
  rewrite align_down_eq by lia.
  unfold page_size in Mb. pose proof (Z.div_mod b 4096 ltac:(lia)).
  assert ((x + 4096 - 1) / 4096 <= b / 4096).
  { apply Z.lt_succ_r. apply Z.div_lt_upper_bound; lia. }
  lia.
Qed.

Lemma aligned64_top_const : aligned64 top.
Proof. unfold aligned64, top, page_size. split; [lia|reflexivity]. Qed.

Lemma vma_new_good s e :
  0 <= s <= e -> e <= top ->
  good_vma (vma_new s e) /\ _end (vma_new s e) <= top
  /\ _start (vma_new s e) <= s /\ e <= _end (vma_new s e).
Proof.
  intros Hse He. unfold top in *. simpl.
  pose proof (align_down_aligned s ltac:(lia)).
  pose proof (align_up_aligned e).
  pose proof (align_down_le s ltac:(lia)).
  pose proof (align_up_ge e ltac:(lia)).
  pose proof (align_up_le top e aligned64_top_const ltac:(unfold top; lia)).
  unfold good_vma, aligned64, top in *. simpl. intuition lia.
Qed.

(** The tracker half of [map_anon_dontzero]: evacuate, then insert. *)
Lemma evacuate_insert_inv s e l :
  tracker_inv l -> 0 <= s <= e -> e <= top ->
  exists l1,
    evacuate (vma_new s e) l = Some l1
    /\ tracker_inv (insert (vma_new s e) l1).
Proof.
  intros [Hwf [body ->]] Hse He.
  destruct (vma_new_good s e Hse He) as (G & Gt & _ & _).
  pose proof G as (Gs & Ge & Gle).
  destruct (evacuate_ok _ sentinel_lo body sentinel_hi Gs Ge Hwf)
    as (mid & E & W & C).
  exists (sentinel_lo :: mid ++ [sentinel_hi]). split; [exact E|].
  apply tracker_inv_insert; trivial.
  - split; [exact W|now exists mid].
  - constructor; [left; simpl; apply Gs|].
    apply Forall_app. split; [exact C|].
    constructor; [right; exact Gt|constructor].
Qed.

Lemma unmap_inv addr size l :
  tracker_inv l -> 0 <= addr < 2 ^ 64 ->
  exists l', unmap addr size l = Some l' /\ tracker_inv l'.
Proof.
  intros [Hwf [body ->]] Ha. unfold unmap.
  destruct (evacuate_ok (vma_new addr size) sentinel_lo body sentinel_hi)
    as (mid & E & W & C); trivial.
  - now apply align_down_aligned.
  - apply align_up_aligned.
  - exists (sentinel_lo :: mid ++ [sentinel_hi]). split; [exact E|].
    split; [exact W|now exists mid].
Qed.

(** Where [find_hole] answers, the range it answers for lies in a gap. *)
Lemma find_hole_from_gap start size h :
  0 <= size -> start + size < 2 ^ 64 -> 0 <= start ->
  forall rest p,
    wf (p :: rest) ->
    find_hole_from p rest start size = Some h ->
    _end p <= h
    /\ (forall y, In y rest -> _end y <= h \/ h + size <= _start y)
    /\ exists n, In n rest /\ h + size <= _start n.
Proof.
  intros Hsz Hsum Hst. induction rest as [|n rest IH]; intros p Hwf;
    [discriminate|].
  cbn [find_hole_from].
  destruct (wf_head_le p _ n Hwf (or_introl eq_refl)) as [Hpn _].
  destruct (wf_in_good _ p Hwf (or_introl eq_refl)) as (_ & ((Pe & _) & _)).
  destruct (wf_in_good _ n Hwf (or_intror (or_introl eq_refl)))
    as ((Ns & _) & _ & Nle).
  assert (Hrest : forall y, In y (n :: rest) -> _start n <= _start y).
  { intros y [<-|Hy]; [lia|].
    destruct (wf_head_le n _ y (wf_tail _ _ Hwf) Hy). lia. }
  destruct ((_end p <=? start) && (wrap64 (start + size) <=? _start n)) eqn:H1.
  - intros [= <-]. apply andb_true_iff in H1. destruct H1 as [H1 H1'].
    apply Z.leb_le in H1, H1'. rewrite wrap64_small in H1' by lia.
    split; [exact H1|]. split.
    + intros y Hy. specialize (Hrest y Hy). lia.
    + exists n. split; [now left|lia].
  - destruct ((start <=? _end p) && (size <=? wrap64 (_start n - _end p)))
      eqn:H2.
    + intros [= <-]. apply andb_true_iff in H2. destruct H2 as [H2 H2'].
      apply Z.leb_le in H2, H2'. rewrite wrap64_small in H2' by lia.
      split; [lia|]. split.
      * intros y Hy. specialize (Hrest y Hy). lia.
      * exists n. split; [now left|lia].
    + intros Hf. destruct (IH n (wf_tail _ _ Hwf) Hf) as (Hn & Hall & m & Hm & Hm').
      split; [lia|]. split.
      * intros y [<-|Hy]; [lia|now apply Hall].
      * exists m. split; [now right|exact Hm'].
Qed.

Lemma reserve_inv hint size l v l' :
  tracker_inv l -> in_area (Reserve hint size) ->
  reserve hint size l = Some (v, l') -> tracker_inv l'.
Proof.
  intros Hinv (Hh & Hsz & Hsum). unfold reserve.
  set (start := if hint =? 0 then mmap_base else hint) in *.
  assert (Hst : 0 <= start)
    by (subst start; destruct (hint =? 0); unfold mmap_base; lia).
  destruct (find_hole l start size) as [h|] eqn:Hf; [|discriminate].
  intros [= <- <-]. pose proof Hinv as [Hwf [mid E]]. subst l.
  cbn [find_hole] in Hf.
  destruct (find_hole_from_gap start size h Hsz Hsum Hst _ _ Hwf Hf)
    as (Hlo & Hall & n & Hn & Hn').
  simpl in Hlo.
  assert (Hntop : _start n <= top).
  { apply in_app_or in Hn. destruct Hn as [Hn|[<-|[]]]; [|unfold top; simpl; lia].
    assert (Hin : In sentinel_hi (mid ++ [sentinel_hi]))
      by (apply in_or_app; right; now left).
    apply in_split in Hn. destruct Hn as (m1 & m2 & ->).
    destruct Hwf as [[_ Hs] _]. rewrite <- app_assoc in Hs. simpl in Hs.
    apply sorted_zip in Hs. destruct Hs as [_ Hs].
    rewrite Forall_app in Hs. destruct Hs as [_ Hs]. inversion Hs; subst.
    unfold before, top in *. simpl in *. lia. }
  assert (Hn64 : h + size < 2 ^ 64) by (unfold top in *; lia).
  rewrite wrap64_small by lia.
  destruct (vma_new_good h (h + size) ltac:(lia) ltac:(lia))
    as (G & Gt & Gs & Ge).
  apply tracker_inv_insert; trivial.
  rewrite Forall_forall. intros y Hy.
  pose proof (wf_in_good _ y Hwf Hy) as (Ys & Ye & _).
  assert (Hy' : _end y <= h \/ h + size <= _start y).
  { destruct Hy as [<-|Hy]; [left; exact Hlo|now apply Hall]. }
  unfold clear. simpl. destruct Hy' as [Hy'|Hy'].
  - left. apply align_down_ge; trivial. unfold top in *. lia.
  - right. apply align_up_le; trivial. lia.
Qed.

(** ** The walker leaves the tracker alone *)

Lemma Some_eq {A : Type} (a b : A) : Some a = Some b -> a = b.
Proof. congruence. Qed.

Lemma is_some_run {A : Type} (o : option A) :
  match o with Some _ => true | None => false end = true ->
  exists a, o = Some a.
Proof. destruct o as [a|]; [now exists a|discriminate]. Qed.

Lemma frame_refl st : frame st st.
Proof. now repeat split. Qed.

Lemma frame_trans a b c : frame a b -> frame b c -> frame a c.
Proof. unfold frame. intros (-> & -> & ->) (-> & -> & ->). now repeat split. Qed.

Lemma allocate_intermediate_level_eq ptep st :
  allocate_intermediate_level ptep st =
  match free_pages st with
  | [] => None
  | p :: rest =>
      Some (mk_state (vma_list st)
              (upd (store_table p (fun _ => 0) 0 512 (mem st)) ptep
                   (Z.lor p 0x63))
              rest (cr3 st) (contents st))
  end.
Proof.
  unfold allocate_intermediate_level, alloc_page, memory_alloc_page.
  now destruct (free_pages st).
Qed.

Lemma allocate_intermediate_level_frame ptep st st' :
  allocate_intermediate_level ptep st = Some st' -> frame st st'.
Proof.
  rewrite allocate_intermediate_level_eq.
  destruct (free_pages st); [discriminate|].
  intros E. apply Some_eq in E. subst st'. now repeat split.
Qed.

Lemma split_large_page_frame ptep level st st' :
  split_large_page ptep level st = Some st' -> frame st st'.
Proof.
  unfold split_large_page.
  destruct (allocate_intermediate_level ptep st) as [s1|] eqn:E; [|discriminate].
  apply allocate_intermediate_level_frame in E.
  intros E'. apply Some_eq in E'. subst st'.
  eapply frame_trans; [exact E|]. now repeat split.
Qed.

Lemma populate_page_loop_frame addr level :
  forall ptep st ptep' st',
    populate_page_loop level addr ptep st = Some (ptep', st') -> frame st st'.
Proof.
  induction level as [|level IH]; intros ptep st ptep' st'; cbn [populate_page_loop].
  - intros [= _ <-]. apply frame_refl.
  - destruct (if negb (pte_present (mem st ptep))
              then allocate_intermediate_level ptep st
              else if pte_large (mem st ptep)
                   then split_large_page ptep (S level) st else Some st)
      as [s1|] eqn:E; [|discriminate].
    intros H. apply IH in H. eapply frame_trans; [|exact H].
    destruct (negb (pte_present (mem st ptep))).
    + now apply allocate_intermediate_level_frame in E.
    + destruct (pte_large (mem st ptep)).
      * now apply split_large_page_frame in E.
      * injection E as <-. apply frame_refl.
Qed.

Lemma populate_page_frame addr st st' :
  populate_page addr st = Some st' -> frame st st'.
Proof.
  unfold populate_page.
  destruct (populate_page_loop _ _ _ _) as [[ptep s1]|] eqn:E; [|discriminate].
  apply populate_page_loop_frame in E.
  unfold alloc_page, memory_alloc_page.
  destruct (free_pages s1); [discriminate|]. intros [= <-].
  eapply frame_trans; [exact E|]. now repeat split.
Qed.

Lemma populate_loop_frame limit fuel :
  forall addr st st',
    populate_loop fuel addr limit st = Some st' -> frame st st'.
Proof.
  induction fuel as [|fuel IH]; intros addr st st'; cbn [populate_loop];
    destruct (addr <? limit); try discriminate;
    try (intros [= <-]; apply frame_refl).
  destruct (populate_page addr st) as [s1|] eqn:E; [|discriminate].
  intros H. apply populate_page_frame in E. apply IH in H.
  eapply frame_trans; eassumption.
Qed.

Lemma populate_frame v st st' : populate v st = Some st' -> frame st st'.
Proof. apply populate_loop_frame. Qed.

(** ** The tracker invariant along a run *)

Lemma map_anon_dontzero_tracker s e perm st v st' :
  tracker_inv (vma_list st) -> 0 <= s <= e -> e <= top ->
  map_anon_dontzero s e perm st = Some (v, st') ->
  tracker_inv (vma_list st').
Proof.
  intros Hinv Hse He. unfold map_anon_dontzero.
  destruct (evacuate_insert_inv s e _ Hinv Hse He) as (l1 & -> & Hl1).
  destruct (populate _ _) as [s1|] eqn:E; [|discriminate].
  intros [= _ <-]. apply populate_frame in E. destruct E as (-> & _).
  exact Hl1.
Qed.

Lemma store_byte_tables va v st st' :
  store_byte va v st = Some st' -> same_tables st st'.
Proof.
  unfold store_byte. destruct (translate st va); [|discriminate].
  intros E. apply Some_eq in E. subst st'. now repeat split.
Qed.

Lemma same_tables_trans a b c :
  same_tables a b -> same_tables b c -> same_tables a c.
Proof.
  unfold same_tables. intros (-> & -> & -> & ->) (-> & -> & -> & ->).
  now repeat split.
Qed.

Lemma memset_loop_tables c n :
  forall s st st', memset_loop n s c st = Some st' -> same_tables st st'.
Proof.
  induction n as [|n IH]; intros s st st'; cbn [memset_loop].
  - intros E. apply Some_eq in E. subst st'. now repeat split.
  - destruct (store_byte s c st) as [s1|] eqn:E1; [|discriminate].
    intros E. apply store_byte_tables in E1. apply IH in E.
    exact (same_tables_trans _ _ _ E1 E).
Qed.

Lemma memset_tables s c n st st' :
  memset s c n st = Some st' -> same_tables st st'.
Proof. apply memset_loop_tables. Qed.

Lemma f_read_loop_tables f n :
  forall buffer offset st st',
    f_read_loop n f buffer offset st = Some st' -> same_tables st st'.
Proof.
  induction n as [|n IH]; intros buffer offset st st'; cbn [f_read_loop].
  - intros E. apply Some_eq in E. subst st'. now repeat split.
  - destruct (store_byte buffer _ st) as [s1|] eqn:E1; [|discriminate].
    intros E. apply store_byte_tables in E1. apply IH in E.
    exact (same_tables_trans _ _ _ E1 E).
Qed.

Lemma f_read_tables f buffer offset len st st' :
  f_read f buffer offset len st = Some st' -> same_tables st st'.
Proof. apply f_read_loop_tables. Qed.

Lemma map_anon_tracker addr size perm st v st' :
  tracker_inv (vma_list st) -> 0 <= addr -> 0 <= size -> addr + size <= top ->
  map_anon addr size perm st = Some (v, st') ->
  tracker_inv (vma_list st').
Proof.
  intros Hinv Ha Hs Ht. unfold map_anon.
  rewrite wrap64_small by (unfold top in Ht; lia).
  destruct (map_anon_dontzero _ _ _ _) as [[ret s1]|] eqn:E; [|discriminate].
  destruct (memset _ _ _ _) as [s2|] eqn:E2; [|discriminate].
  intros [= _ <-]. rewrite (proj1 (memset_tables _ _ _ _ _ E2)).
  eapply map_anon_dontzero_tracker; [exact Hinv| | |exact E]; lia.
Qed.

Lemma run_call_tracker c st st' :
  tracker_inv (vma_list st) -> in_area c ->
  run_call c st = Some st' -> tracker_inv (vma_list st').
Proof.
  intros Hinv Hc. destruct c as [hint size|addr size perm|s e perm
                                 |addr size perm f offset|addr size];
    cbn [run_call].
  - destruct (reserve hint size (vma_list st)) as [[v l]|] eqn:E; [|discriminate].
    intros [= <-]. simpl. eapply reserve_inv; eassumption.
  - destruct Hc as (Ha & Hs & Ht).
    destruct (map_anon _ _ _ _) as [[v s1]|] eqn:E; [|discriminate].
    simpl. intros [= <-]. exact (map_anon_tracker _ _ _ _ _ _ Hinv Ha Hs Ht E).
  - destruct Hc as (Hse & Ht).
    destruct (map_anon_dontzero _ _ _ _) as [[v s1]|] eqn:E; [|discriminate].
    simpl. intros [= <-]. exact (map_anon_dontzero_tracker _ _ _ _ _ _ Hinv Hse Ht E).
  - destruct Hc as (Ha & Hs & Ht). unfold map_file.
    destruct (f_size f <=? offset).
    + destruct (map_anon _ _ _ _) as [[v s1]|] eqn:E; [|discriminate].
      simpl. intros [= <-]. exact (map_anon_tracker _ _ _ _ _ _ Hinv Ha Hs Ht E).
    + rewrite (wrap64_small (addr + size)) by (unfold top in Ht; lia).
      destruct (map_anon_dontzero _ _ _ _) as [[v s1]|] eqn:E; [|discriminate].
      destruct (f_read _ _ _ _ _) as [s2|] eqn:E2; [|discriminate].
      destruct (memset _ _ _ _) as [s3|] eqn:E3; [|discriminate].
      simpl. intros [= <-].
      rewrite (proj1 (memset_tables _ _ _ _ _ E3)).
      rewrite (proj1 (f_read_tables _ _ _ _ _ _ E2)).
      eapply map_anon_dontzero_tracker; [exact Hinv| | |exact E]; lia.
  - destruct Hc as (Ha & _).
    destruct (unmap_inv addr size _ Hinv Ha) as (l' & -> & Hl').
    intros [= <-]. exact Hl'.
Qed.

(** ** Bits of page-table entries *)

Lemma pte_mask_eq : pte_mask = Z.shiftl (Z.ones 41) 12.
Proof. reflexivity. Qed.

Lemma pte_phys_fix s : phys_page s -> pte_phys s = s.
Proof.
  intros [R M]. unfold pte_phys. rewrite pte_mask_eq.
  pose proof (Z.div_mod s 4096 ltac:(lia)).
  assert (Q : 0 <= s / 4096 < 2 ^ 41).
  { split; [apply Z.div_pos; lia|apply Z.div_lt_upper_bound; lia]. }
  replace s with (Z.shiftl (s / 4096) 12) at 1 2
    by (rewrite Z.shiftl_mul_pow2 by lia; change (2 ^ 12) with 4096; lia).
  rewrite <- Z.shiftl_land, Z.land_ones by lia.
  rewrite Z.mod_small by exact Q.
  rewrite Z.shiftl_mul_pow2 by lia. change (2 ^ 12) with 4096. lia.
Qed.

Lemma land_disjoint a s m :
  0 <= m -> a mod 2 ^ m = 0 -> 0 <= s < 2 ^ m -> Z.land a s = 0.
Proof.
  intros Hm Ha Hs. apply Z.bits_inj'. intros n Hn.
  rewrite Z.land_spec, Z.bits_0.
  destruct (Z.lt_ge_cases n m) as [L|G].
  - replace a with (a / 2 ^ m * 2 ^ m)
      by (pose proof (Z.div_mod a (2 ^ m) ltac:(lia)); lia).
    now rewrite Z.mul_pow2_bits_low by lia.
  - rewrite <- (Z.mod_small s (2 ^ m)) by exact Hs.
    rewrite Z.mod_pow2_bits_high by lia. apply andb_false_r.
Qed.

Lemma lor_disjoint a s m :
  0 <= m -> a mod 2 ^ m = 0 -> 0 <= s < 2 ^ m -> Z.lor a s = a + s.
Proof. intros. apply Z.or_to_plus. eapply land_disjoint; eauto. Qed.

Lemma ldiff_lor a b c :
  Z.ldiff (Z.lor a b) c = Z.lor (Z.ldiff a c) (Z.ldiff b c).
Proof. Z.bitblast. Qed.

Lemma ldiff_land_comm a b c : Z.ldiff (Z.land a b) c = Z.land (Z.ldiff a c) b.
Proof. Z.bitblast. Qed.

Lemma ldiff_fix s m : Z.land s m = s -> Z.ldiff s m = 0.
Proof. intros H. rewrite <- H. Z.bitblast. Qed.

Lemma page_land_low p c : p mod 4096 = 0 -> 0 <= c < 4096 -> Z.land p c = 0.
Proof. intros. apply (land_disjoint p c 12); trivial; lia. Qed.

Lemma page_low_bit p k : p mod 4096 = 0 -> 0 <= k < 12 -> Z.testbit p k = false.
Proof.
  intros M K.
  replace p with (p / 2 ^ 12 * 2 ^ 12)
    by (pose proof (Z.div_mod p (2 ^ 12) ltac:(lia));
        change (2 ^ 12) with 4096 in *; lia).
  now rewrite Z.mul_pow2_bits_low by lia.
Qed.

Lemma make_pte_phys p : phys_page p -> pte_phys (Z.lor p 0x63) = p.
Proof.
  intros H. unfold pte_phys. rewrite Z.land_lor_distr_l.
  change (Z.land 0x63 pte_mask) with 0. rewrite Z.lor_0_r.
  now apply pte_phys_fix.
Qed.

Lemma make_pte_present p : p mod 4096 = 0 -> pte_present (Z.lor p 0x63) = true.
Proof.
  intros H. unfold pte_present. rewrite Z.land_lor_distr_l.
  rewrite page_land_low by (trivial; lia). reflexivity.
Qed.

Lemma make_pte_large p : p mod 4096 = 0 -> pte_large (Z.lor p 0x63) = false.
Proof.
  intros H. unfold pte_large. rewrite Z.land_lor_distr_l.
  rewrite page_land_low by (trivial; simpl; lia). reflexivity.
Qed.

Lemma make_pte_flags p : phys_page p -> pte_flags (Z.lor p 0x63) = 0x63.
Proof.
  intros H. unfold pte_flags. rewrite ldiff_lor.
  rewrite (ldiff_fix p) by now apply pte_phys_fix. reflexivity.
Qed.

Lemma make_pte_bit p k :
  p mod 4096 = 0 -> 0 <= k < 12 ->
  Z.testbit (Z.lor p 0x63) k = Z.testbit 0x63 k.
Proof. intros M K. now rewrite Z.lor_spec, page_low_bit. Qed.

Lemma pt_index_range addr level : 0 <= pt_index addr level < 512.
Proof.
  unfold pt_index. change 511 with (Z.ones 9). rewrite Z.land_ones by lia.
  apply Z.mod_pos_bound. lia.
Qed.

(** ** Tables in memory *)

Lemma upd_same m a v : upd m a v a = v.
Proof. unfold upd. now rewrite Z.eqb_refl. Qed.

Lemma upd_other m a v b : b <> a -> upd m a v b = m b.
Proof. unfold upd. intros H. now destruct (Z.eqb_spec b a). Qed.

Lemma store_table_out pt f n :
  forall i m a,
    (forall j, i <= j < i + Z.of_nat n -> a <> pt + 8 * j) ->
    store_table pt f i n m a = m a.
Proof.
  induction n as [|n IH]; intros i m a H; [reflexivity|].
  cbn [store_table]. rewrite IH by (intros j Hj; apply H; lia).
  apply upd_other. apply H. lia.
Qed.

Lemma store_table_in pt f n :
  forall i m j,
    i <= j < i + Z.of_nat n -> store_table pt f i n m (pt + 8 * j) = f j.
Proof.
  induction n as [|n IH]; intros i m j H; [lia|].
  cbn [store_table]. destruct (Z.eq_dec j i) as [->|Hne].
  - rewrite store_table_out by (intros k Hk; lia). apply upd_same.
  - apply IH. lia.
Qed.

Lemma store_table_page pt f m a :
  ~ in_page pt a -> store_table pt f 0 512 m a = m a.
Proof.
  intros H. apply store_table_out. intros j Hj. unfold in_page in H.
  change (Z.of_nat 512) with 512 in Hj. lia.
Qed.

(** ** allocate_intermediate_level *)

Lemma allocate_intermediate_level_mem ptep st p rest :
  free_pages st = p :: rest ->
  exists st',
    allocate_intermediate_level ptep st = Some st'
    /\ free_pages st' = rest
    /\ mem st' = upd (store_table p (fun _ => 0) 0 512 (mem st)) ptep
                   (Z.lor p 0x63)
    /\ frame st st'.
Proof.
  intros Hf. rewrite allocate_intermediate_level_eq, Hf.
  eexists. split; [reflexivity|]. repeat split.
Qed.

(** C5, as the code has it.  [allocate_intermediate_level] takes one page
    from the allocator, leaves zero in all 512 slots of it, and makes the
    caller's entry the page's address with the bits [0x63]: present,
    writable, accessed and dirty.  The user bit is not among them. *)
Theorem allocate_intermediate_level_correct ptep st p rest :
  free_pages st = p :: rest -> phys_page p -> ~ in_page p ptep ->
  exists st',
    allocate_intermediate_level ptep st = Some st'
    /\ free_pages st' = rest
    /\ (forall i, 0 <= i < 512 -> mem st' (p + 8 * i) = 0)
    /\ pte_phys (mem st' ptep) = p
    /\ pte_flags (mem st' ptep) = 0x63
    /\ pte_present (mem st' ptep) = true
    /\ pte_writable (mem st' ptep) = true
    /\ pte_accessed (mem st' ptep) = true
    /\ pte_dirty (mem st' ptep) = true
    /\ pte_user (mem st' ptep) = false.
Proof.
  intros Hf Hp Hout.
  destruct (allocate_intermediate_level_mem ptep st p rest Hf)
    as (st' & E & F & M & _).
  exists st'. split; [exact E|]. split; [exact F|]. rewrite M.
  pose proof Hp as [_ Hal]. rewrite upd_same. split.
  - intros i Hi. rewrite upd_other by (unfold in_page in Hout; lia).
    apply (store_table_in p (fun _ => 0) 512 0). simpl. lia.
  - split; [now apply make_pte_phys|]. split; [now apply make_pte_flags|].
    split; [now apply make_pte_present|].
    unfold pte_writable, pte_accessed, pte_dirty, pte_user.
    rewrite !make_pte_bit by (trivial; lia). now repeat split.
Qed.

Lemma allocate_intermediate_level_correct_witness :
  free_pages (boot_state [0x2000]) = [0x2000] /\ phys_page 0x2000
  /\ ~ in_page 0x2000 0x1000
  /\ exists st',
      allocate_intermediate_level 0x1000 (boot_state [0x2000]) = Some st'
      /\ free_pages st' = []
      /\ (forall i, 0 <= i < 512 -> mem st' (0x2000 + 8 * i) = 0)
      /\ pte_phys (mem st' 0x1000) = 0x2000
      /\ pte_flags (mem st' 0x1000) = 0x63
      /\ pte_present (mem st' 0x1000) = true
      /\ pte_writable (mem st' 0x1000) = true
      /\ pte_accessed (mem st' 0x1000) = true
      /\ pte_dirty (mem st' 0x1000) = true
      /\ pte_user (mem st' 0x1000) = false.
Proof.
  assert (P : phys_page 0x2000) by (split; [lia|reflexivity]).
  assert (O : ~ in_page 0x2000 0x1000) by (unfold in_page; lia).
  split; [reflexivity|]. split; [exact P|]. split; [exact O|].
  exact (allocate_intermediate_level_correct 0x1000 (boot_state [0x2000])
           0x2000 [] eq_refl P O).
Defined.

(** C5 as the specification gives it: the entry written carries no user
    bit. *)
Lemma intermediate_entry_not_user :
  option_map (fun st' => (mem st' 0x1000, pte_user (mem st' 0x1000)))
    (allocate_intermediate_level 0x1000 (boot_state [0x2000]))
  = Some (0x2063, false).
Proof. reflexivity. Qed.

(** ** split_large_page *)

Lemma split_entry e i k :
  12 <= k -> k + 9 <= 53 -> 0 <= i < 512 ->
  pte_phys e mod 2 ^ (k + 9) = 0 ->
  let x := Z.lor e (wrap64 (Z.shiftl i k)) in
  pte_phys x = pte_phys e + i * 2 ^ k
  /\ pte_flags x = pte_flags e
  /\ Z.land x (Z.shiftl 1 7) = Z.land e (Z.shiftl 1 7).
Proof.
  intros Hk Hk' Hi Ha x. subst x.
  assert (P9 : 2 ^ (k + 9) = 2 ^ k * 512)
    by (rewrite Z.pow_add_r by lia; reflexivity).
  assert (Pk : 0 < 2 ^ k) by (apply Z.pow_pos_nonneg; lia).
  assert (P53 : 2 ^ (k + 9) <= 2 ^ 53) by (apply Z.pow_le_mono_r; lia).
  assert (P12 : 2 ^ k = 2 ^ (k - 12) * 4096).
  { replace k with (k - 12 + 12) at 1 by lia.
    rewrite Z.pow_add_r by lia. reflexivity. }
  rewrite Z.shiftl_mul_pow2 by lia.
  assert (Hs : 0 <= i * 2 ^ k < 2 ^ (k + 9)) by nia.
  rewrite wrap64_small by lia.
  assert (Hpg : phys_page (i * 2 ^ k)).
  { split; [lia|]. rewrite P12, Z.mul_assoc. apply Z.mod_mul. lia. }
  split; [|split].
  - unfold pte_phys at 1. rewrite Z.land_lor_distr_l.
    fold (pte_phys e). fold (pte_phys (i * 2 ^ k)).
    rewrite (pte_phys_fix _ Hpg). apply (lor_disjoint _ _ (k + 9)); trivial; lia.
  - unfold pte_flags. rewrite ldiff_lor.
    rewrite (ldiff_fix (i * 2 ^ k)) by (apply pte_phys_fix, Hpg).
    apply Z.lor_0_r.
  - rewrite Z.land_lor_distr_l.
    rewrite (page_land_low (i * 2 ^ k)) by (try apply Hpg; simpl; lia).
    apply Z.lor_0_r.
Qed.

Lemma pte_present_bit e : pte_present e = Z.testbit e 0.
Proof.
  unfold pte_present. change 1 with (Z.ones 1).
  rewrite Z.land_ones by lia. change (2 ^ 1) with 2.
  rewrite <- Z.bit0_mod. now destruct (Z.testbit e 0).
Qed.

Lemma split_entry_bit e i k b :
  12 <= k -> 0 <= b < 12 ->
  Z.testbit (Z.lor e (wrap64 (Z.shiftl i k))) b = Z.testbit e b.
Proof.
  intros Hk Hb. rewrite Z.lor_spec. unfold wrap64.
  rewrite Z.mod_pow2_bits_low by lia.
  rewrite Z.shiftl_spec_low by lia. apply orb_false_r.
Qed.

Lemma clear_large_bit e b :
  0 <= b < 7 ->
  Z.testbit (Z.land e (not64 (Z.shiftl 1 7))) b = Z.testbit e b.
Proof.
  intros Hb. rewrite Z.land_spec. unfold not64.
  rewrite Z.lxor_spec, Z.shiftl_spec_low by lia.
  rewrite Z.ones_spec_low by lia. apply andb_true_r.
Qed.

(** C4, as the code has it.  For a large entry at level 1, 2 or 3 whose
    physical base is aligned to the size it maps, [split_large_page] points
    the caller's entry at a new table whose entry [i] maps the base advanced
    by [i] strides, with the flags of the original; below level 1 there are
    only leaves, so there the large bit is cleared.  The caller's entry
    itself gets the flags [0x63].  Every byte of the large page is therefore
    found at the same physical address as before, present and writable as
    before; it can no longer be reached from user mode, whatever the user
    bit of the original. *)
Theorem split_large_page_correct ptep level st p rest :
  free_pages st = p :: rest -> phys_page p -> ~ in_page p ptep ->
  (1 <= level <= 3)%nat ->
  pte_large (mem st ptep) = true ->
  pte_phys (mem st ptep) mod 2 ^ (12 + 9 * Z.of_nat level) = 0 ->
  exists st',
    split_large_page ptep level st = Some st'
    /\ free_pages st' = rest
    /\ pte_phys (mem st' ptep) = p
    /\ pte_flags (mem st' ptep) = 0x63
    /\ pte_present (mem st' ptep) = true
    /\ pte_large (mem st' ptep) = false
    /\ (forall i, 0 <= i < 512 ->
         let entry := mem st' (p + 8 * i) in
         pte_phys entry
         = pte_phys (mem st ptep) + i * 2 ^ (12 + 9 * (Z.of_nat level - 1))
         /\ pte_flags entry
            = (if Nat.eqb level 1
               then Z.land (pte_flags (mem st ptep)) (not64 (Z.shiftl 1 7))
               else pte_flags (mem st ptep))
         /\ pte_large entry = negb (Nat.eqb level 1))
    /\ (forall off, 0 <= off < 2 ^ (12 + 9 * Z.of_nat level) ->
         let stride := 2 ^ (12 + 9 * (Z.of_nat level - 1)) in
         let before := through None (mem st ptep) off in
         let after :=
           through (Some (mem st' ptep)) (mem st' (p + 8 * (off / stride)))
             (off mod stride) in
         acc_phys after = acc_phys before
         /\ acc_present after = acc_present before
         /\ acc_write after = acc_write before
         /\ acc_user after = false).
Proof.
  intros Hf Hp Hout Hl Hlarge Hal.
  destruct (allocate_intermediate_level_mem ptep st p rest Hf)
    as (s1 & E & F & M & _).
  unfold split_large_page. rewrite E.
  assert (M1 : mem s1 ptep = Z.lor p 0x63) by (rewrite M; apply upd_same).
  rewrite M1, make_pte_phys by exact Hp. unfold phys_cast.
  eexists. split; [reflexivity|]. cbn [free_pages mem set_mem].
  split; [exact F|].
  rewrite store_table_page by exact Hout. rewrite M1.
  pose proof Hp as [_ Hpal].
  split; [now apply make_pte_phys|]. split; [now apply make_pte_flags|].
  split; [now apply make_pte_present|].
  split; [now apply make_pte_large|].
  set (e := mem st ptep) in *.
  set (e' := if Nat.eqb level 1 then Z.land e (not64 (Z.shiftl 1 7)) else e).
  assert (Hphys : pte_phys e' = pte_phys e).
  { subst e'. destruct (Nat.eqb level 1); [|reflexivity].
    unfold pte_phys. rewrite <- Z.land_assoc, (Z.land_comm (not64 _)).
    change (Z.land pte_mask (not64 (Z.shiftl 1 7))) with pte_mask.
    reflexivity. }
  assert (Hbit : forall b, 0 <= b < 7 -> Z.testbit e' b = Z.testbit e b).
  { intros b Hb. subst e'. destruct (Nat.eqb level 1); [|reflexivity].
    apply clear_large_bit; lia. }
  set (k := 12 + 9 * (Z.of_nat level - 1)).
  assert (Hk : 12 <= k <= 30) by (subst k; lia).
  assert (Hk9 : 12 + 9 * Z.of_nat level = k + 9) by (subst k; lia).
  assert (Hentry : forall i, 0 <= i < 512 ->
            pte_phys (Z.lor e' (wrap64 (Z.shiftl i k)))
            = pte_phys e + i * 2 ^ k
            /\ pte_flags (Z.lor e' (wrap64 (Z.shiftl i k))) = pte_flags e'
            /\ Z.land (Z.lor e' (wrap64 (Z.shiftl i k))) (Z.shiftl 1 7)
               = Z.land e' (Z.shiftl 1 7)).
  { intros i Hi. rewrite <- Hphys.
    apply (split_entry e' i k); try lia. rewrite Hphys, <- Hk9. exact Hal. }
  split.
  - intros i Hi. cbv zeta.
    rewrite (store_table_in p _ 512 0) by (simpl; lia).
    destruct (Hentry i Hi) as (H1 & H2 & H3).
    rewrite H1, H2. split; [reflexivity|]. split.
    + subst e'. destruct (Nat.eqb level 1); [|reflexivity].
      unfold pte_flags. apply ldiff_land_comm.
    + unfold pte_large in *. rewrite H3. subst e'.
      destruct (Nat.eqb level 1); [|exact Hlarge].
      rewrite <- Z.land_assoc.
      change (Z.land (not64 (Z.shiftl 1 7)) (Z.shiftl 1 7)) with 0.
      now rewrite Z.land_0_r.
  - intros off Hoff. cbv zeta. rewrite Hk9 in Hoff.
    assert (Pk : 0 < 2 ^ k) by (apply Z.pow_pos_nonneg; lia).
    assert (P9 : 2 ^ (k + 9) = 2 ^ k * 512)
      by (rewrite Z.pow_add_r by lia; reflexivity).
    assert (Hi : 0 <= off / 2 ^ k < 512).
    { split; [apply Z.div_pos; lia|apply Z.div_lt_upper_bound; lia]. }
    rewrite (store_table_in p _ 512 0) by (simpl; lia).
    destruct (Hentry _ Hi) as (H1 & _ & _).
    unfold through. cbn [acc_phys acc_present acc_write acc_user].
    rewrite H1. rewrite !pte_present_bit.
    unfold pte_writable, pte_user.
    rewrite !split_entry_bit, !Hbit by lia.
    rewrite !make_pte_bit by (trivial; lia).
    split; [|now repeat split].
    pose proof (Z.div_mod off (2 ^ k) ltac:(lia)). lia.
Qed.

Lemma split_large_page_correct_witness :
  free_pages (large_state 0x2000e3) = [0x2000] /\ phys_page 0x2000
  /\ ~ in_page 0x2000 0x1008 /\ (1 <= 1 <= 3)%nat
  /\ pte_large (mem (large_state 0x2000e3) 0x1008) = true
  /\ pte_phys (mem (large_state 0x2000e3) 0x1008) mod 2 ^ (12 + 9 * 1) = 0
  /\ exists st',
      split_large_page 0x1008 1 (large_state 0x2000e3) = Some st'
      /\ pte_flags (mem st' 0x1008) = 0x63
      /\ pte_phys (mem st' (0x2000 + 8 * 3)) = 0x200000 + 3 * 4096
      /\ pte_flags (mem st' (0x2000 + 8 * 3)) = 0x63.
Proof.
  assert (P : phys_page 0x2000) by (split; [lia|reflexivity]).
  assert (O : ~ in_page 0x2000 0x1008) by (unfold in_page; lia).
  assert (L : (1 <= 1 <= 3)%nat) by lia.
  split; [reflexivity|]. split; [exact P|]. split; [exact O|].
  split; [exact L|]. split; [reflexivity|]. split; [reflexivity|].
  destruct (split_large_page_correct 0x1008 1 (large_state 0x2000e3)
              0x2000 [] eq_refl P O L eq_refl eq_refl)
    as (st' & E & _ & _ & Hfl & _ & _ & H & _).
  exists st'. split; [exact E|]. split; [exact Hfl|].
  destruct (H 3 ltac:(lia)) as (H1 & H2 & _). split; [exact H1|exact H2].
Defined.

(** C4 as the specification gives it, for every large entry.  The index is
    or-ed into the entry, so with a base that is not aligned to the size of
    the large page (here [0x201000] at level 1) entry 1 maps the base itself
    and not the base plus one stride.  And the mapping does not stay what it
    was: the large entry [0x400000e7] at level 2, aligned and with the user
    bit, is replaced by [0x2063], without it; the bytes it mapped for user
    mode are then supervisor-only. *)
Lemma split_large_page_unaligned :
  pte_large (mem (large_state 0x2010e3) 0x1008) = true
  /\ pte_phys (mem (large_state 0x2010e3) 0x1008) + 1 * 2 ^ (12 + 9 * (1 - 1))
     = 0x202000
  /\ option_map (fun st' => pte_phys (mem st' (0x2000 + 8 * 1)))
       (split_large_page 0x1008 1 (large_state 0x2010e3))
     = Some 0x201000
  /\ pte_large (mem (large_state 0x400000e7) 0x1008) = true
  /\ pte_phys (mem (large_state 0x400000e7) 0x1008) mod 2 ^ (12 + 9 * 2) = 0
  /\ acc_user (through None (mem (large_state 0x400000e7) 0x1008) 0) = true
  /\ option_map
       (fun st' =>
          (mem st' 0x1008,
           acc_user (through (Some (mem st' 0x1008)) (mem st' 0x2000) 0)))
       (split_large_page 0x1008 2 (large_state 0x400000e7))
     = Some (0x2063, false).
Proof. repeat split; reflexivity. Qed.

(** ** populate_page on a mapped address *)

Lemma populate_page_loop_ready addr :
  forall level ptep st,
    levels_ready (mem st) level addr ptep = true ->
    populate_page_loop level addr ptep st
    = Some (walk_ptep (mem st) level addr ptep, st).
Proof.
  induction level as [|level IH]; intros ptep st H; [reflexivity|].
  cbn [levels_ready] in H. apply andb_true_iff in H. destruct H as [H Hn].
  apply andb_true_iff in H. destruct H as [Hp Hl].
  apply negb_true_iff in Hl.
  cbn [populate_page_loop walk_ptep]. rewrite Hp, Hl. simpl negb. cbv iota.
  unfold phys_cast. now apply IH.
Qed.

Lemma populate_page_ready addr st :
  ready st addr = true -> populate_page addr st = repopulate_page addr st.
Proof.
  intros H. unfold populate_page, repopulate_page, phys_cast.
  fold (root_ptep st addr).
  rewrite (populate_page_loop_ready addr _ _ _ H).
  fold (leaf_ptep st addr).
  unfold alloc_page, memory_alloc_page. now destruct (free_pages st).
Qed.

(** C10. When the leaf entry for an address is present, [populate_page]
    still takes the next page from the allocator and overwrites that entry
    with it.  Nothing goes back to the allocator, and the page that was
    mapped before, not being a free page, is not the one now mapped. *)
Theorem populate_page_overwrites st addr p rest :
  mapped st addr = true -> free_pages st = p :: rest ->
  exists st',
    populate_page addr st = Some st'
    /\ mem st' = upd (mem st) (leaf_ptep st addr) (make_pte p)
    /\ mem st' (leaf_ptep st addr) = make_pte p
    /\ free_pages st' = rest
    /\ (phys_page p ->
        ~ In (pte_phys (mem st (leaf_ptep st addr))) (free_pages st) ->
        pte_phys (mem st' (leaf_ptep st addr)) = p
        /\ p <> pte_phys (mem st (leaf_ptep st addr))).
Proof.
  intros Hm Hf. unfold mapped in Hm. apply andb_true_iff in Hm.
  destruct Hm as [Hr _].
  rewrite (populate_page_ready _ _ Hr). unfold repopulate_page. rewrite Hf.
  eexists. split; [reflexivity|]. cbn [mem free_pages].
  split; [reflexivity|]. split; [apply upd_same|]. split; [reflexivity|].
  intros Hp Hold. rewrite upd_same. unfold make_pte. split.
  - now apply make_pte_phys.
  - intros ->. apply Hold. now left.
Qed.

Lemma populate_page_overwrites_witness :
  mapped mapped_state 0x400000 = true
  /\ free_pages mapped_state = 0x6000 :: pages_from 0x7000 3
  /\ exists st',
      populate_page 0x400000 mapped_state = Some st'
      /\ mem st' (leaf_ptep mapped_state 0x400000) = make_pte 0x6000
      /\ free_pages st' = pages_from 0x7000 3.
Proof.
  assert (M : mapped mapped_state 0x400000 = true) by (vm_compute; reflexivity).
  assert (F : free_pages mapped_state = 0x6000 :: pages_from 0x7000 3)
    by (vm_compute; reflexivity).
  split; [exact M|]. split; [exact F|].
  destruct (populate_page_overwrites mapped_state 0x400000 0x6000
              (pages_from 0x7000 3) M F) as (st' & E & _ & H1 & H2 & _).
  exists st'. split; [exact E|]. split; [exact H1|exact H2].
Defined.

(** ** The page-table invariant along the walk *)

Lemma slot_inj p q i j :
  p mod 4096 = 0 -> q mod 4096 = 0 -> 0 <= i < 512 -> 0 <= j < 512 ->
  p + 8 * i = q + 8 * j -> p = q /\ i = j.
Proof.
  intros Hp Hq Hi Hj E.
  pose proof (Z.div_mod p 4096 ltac:(lia)).
  pose proof (Z.div_mod q 4096 ltac:(lia)). lia.
Qed.

Lemma slot_not_in_page p q i :
  p mod 4096 = 0 -> q mod 4096 = 0 -> 0 <= i < 512 -> p <> q ->
  ~ in_page q (p + 8 * i).
Proof.
  intros Hp Hq Hi Hne. unfold in_page.
  pose proof (Z.div_mod p 4096 ltac:(lia)).
  pose proof (Z.div_mod q 4096 ltac:(lia)). lia.
Qed.

Lemma extends_refl tbl m : extends tbl m tbl m.
Proof. split; auto. Qed.

Lemma extends_trans tbl m tbl1 m1 tbl2 m2 :
  extends tbl m tbl1 m1 -> extends tbl1 m1 tbl2 m2 -> extends tbl m tbl2 m2.
Proof.
  intros [A1 A2] [B1 B2]. split; [auto|].
  intros p l i Hp Hi Hpr Hlg.
  pose proof (A2 p l i Hp Hi Hpr Hlg) as E1.
  rewrite <- E1 in Hpr, Hlg.
  rewrite (B2 p l i (A1 _ _ Hp) Hi Hpr Hlg). exact E1.
Qed.

Lemma levels_ready_extends tbl st tbl' m' addr :
  tables_ok tbl st -> extends tbl (mem st) tbl' m' ->
  forall level p i,
    tbl p = Some level -> 0 <= i < 512 ->
    levels_ready (mem st) level addr (p + 8 * i) = true ->
    levels_ready m' level addr (p + 8 * i) = true
    /\ walk_ptep m' level addr (p + 8 * i)
       = walk_ptep (mem st) level addr (p + 8 * i).
Proof.
  intros Hok [_ Hext]. induction level as [|level IH]; intros p i Hp Hi H;
    [now split|].
  cbn [levels_ready walk_ptep] in *.
  apply andb_true_iff in H. destruct H as [H Hn].
  apply andb_true_iff in H. destruct H as [Hpr Hlg].
  apply negb_true_iff in Hlg.
  rewrite (Hext p level i Hp Hi Hpr Hlg), Hpr, Hlg. simpl.
  apply IH; trivial.
  - exact (ok_entries _ _ Hok p level i Hp Hi Hpr Hlg).
  - apply pt_index_range.
Qed.

Lemma walk_leaf_table tbl st addr :
  tables_ok tbl st ->
  forall level p i,
    tbl p = Some level -> 0 <= i < 512 ->
    levels_ready (mem st) level addr (p + 8 * i) = true ->
    exists p0 i0,
      walk_ptep (mem st) level addr (p + 8 * i) = p0 + 8 * i0
      /\ tbl p0 = Some 0%nat /\ 0 <= i0 < 512.
Proof.
  intros Hok. induction level as [|level IH]; intros p i Hp Hi H.
  - now exists p, i.
  - cbn [levels_ready walk_ptep] in *.
    apply andb_true_iff in H. destruct H as [H Hn].
    apply andb_true_iff in H. destruct H as [Hpr Hlg].
    apply negb_true_iff in Hlg.
    apply IH; trivial.
    + exact (ok_entries _ _ Hok p level i Hp Hi Hpr Hlg).
    + apply pt_index_range.
Qed.

(** Linking the fresh page [q] below the entry at [p + 8 * i]. *)
Lemma install_table tbl st st1 p i l q rest :
  tables_ok tbl st -> tbl p = Some (S l) -> 0 <= i < 512 ->
  pte_present (mem st (p + 8 * i)) = false
  \/ pte_large (mem st (p + 8 * i)) = true ->
  free_pages st = q :: rest -> free_pages st1 = rest -> cr3 st1 = cr3 st ->
  mem st1 (p + 8 * i) = Z.lor q 0x63 ->
  (forall a, ~ in_page q a -> a <> p + 8 * i -> mem st1 a = mem st a) ->
  (forall j, 0 <= j < 512 ->
     l = 0%nat \/ pte_present (mem st1 (q + 8 * j)) = false
     \/ pte_large (mem st1 (q + 8 * j)) = true) ->
  tables_ok (set_tbl tbl q l) st1
  /\ extends tbl (mem st) (set_tbl tbl q l) (mem st1).
Proof.
  intros Hok Hp Hi Hold Hf Hf1 Hcr Hent Hkeep Hnew.
  destruct (ok_free _ _ Hok q) as [Hq Hqp]; [rewrite Hf; now left|].
  pose proof Hqp as [_ Hqal].
  assert (Hne : forall p' l', tbl p' = Some l' -> p' <> q)
    by (intros p' l' H ->; congruence).
  assert (Hset : forall p' l', tbl p' = Some l' -> set_tbl tbl q l p' = Some l').
  { intros p' l' H. unfold set_tbl.
    destruct (Z.eqb_spec p' q); [now apply Hne in H|exact H]. }
  assert (Hsame : forall p' l' j,
             tbl p' = Some l' -> 0 <= j < 512 -> p' + 8 * j <> p + 8 * i ->
             mem st1 (p' + 8 * j) = mem st (p' + 8 * j)).
  { intros p' l' j H Hj Hd. apply Hkeep; [|exact Hd].
    apply slot_not_in_page; eauto using ok_aligned. }
  split; [constructor|split].
  - rewrite Hcr. apply Hset. exact (ok_root _ _ Hok).
  - intros p' l'. unfold set_tbl. destruct (Z.eqb_spec p' q) as [->|_].
    + intros _. exact Hqal.
    + exact (ok_aligned _ _ Hok p' l').
  - intros p' l' j Hp' Hj Hpr Hlg. unfold set_tbl in Hp'.
    destruct (Z.eqb_spec p' q) as [->|Hpq].
    + injection Hp' as ->. destruct (Hnew j Hj) as [H|[H|H]]; congruence.
    + destruct (Z.eq_dec (p' + 8 * j) (p + 8 * i)) as [E|D].
      * apply slot_inj in E; eauto using ok_aligned. destruct E as [-> ->].
        rewrite Hent, make_pte_phys by exact Hqp.
        unfold set_tbl. rewrite Z.eqb_refl. congruence.
      * rewrite (Hsame p' _ j Hp' Hj D) in *. apply Hset.
        exact (ok_entries _ _ Hok p' l' j Hp' Hj Hpr Hlg).
  - intros r Hr. rewrite Hf1 in Hr.
    destruct (ok_free _ _ Hok r) as [Hr1 Hr2]; [rewrite Hf; now right|].
    split; [|exact Hr2]. unfold set_tbl.
    destruct (Z.eqb_spec r q) as [->|_]; [|exact Hr1].
    pose proof (ok_nodup _ _ Hok) as Hnd. rewrite Hf in Hnd.
    now inversion Hnd.
  - rewrite Hf1. pose proof (ok_nodup _ _ Hok) as Hnd. rewrite Hf in Hnd.
    now inversion Hnd.
  - exact Hset.
  - intros p' l' j Hp' Hj Hpr Hlg. apply (Hsame p' _ j Hp' Hj).
    intros E. rewrite E in Hpr, Hlg. destruct Hold; congruence.
Qed.

Lemma allocate_intermediate_level_ok tbl st st1 p i l :
  tables_ok tbl st -> tbl p = Some (S l) -> 0 <= i < 512 ->
  pte_present (mem st (p + 8 * i)) = false ->
  allocate_intermediate_level (p + 8 * i) st = Some st1 ->
  exists tbl1,
    tables_ok tbl1 st1 /\ extends tbl (mem st) tbl1 (mem st1)
    /\ pte_present (mem st1 (p + 8 * i)) = true
    /\ pte_large (mem st1 (p + 8 * i)) = false.
Proof.
  intros Hok Hp Hi Hnp E.
  destruct (free_pages st) as [|q rest] eqn:Hf;
    [rewrite allocate_intermediate_level_eq, Hf in E; discriminate|].
  destruct (allocate_intermediate_level_mem (p + 8 * i) st q rest Hf)
    as (s & E' & F & M & (_ & Hcr & _)).
  rewrite E in E'. injection E' as <-.
  destruct (ok_free _ _ Hok q) as [Hq Hqp]; [rewrite Hf; now left|].
  pose proof Hqp as [_ Hqal].
  assert (Hout : ~ in_page q (p + 8 * i)).
  { apply slot_not_in_page; eauto using ok_aligned. congruence. }
  assert (M1 : mem st1 (p + 8 * i) = Z.lor q 0x63)
    by (rewrite M; apply upd_same).
  exists (set_tbl tbl q l).
  destruct (install_table tbl st st1 p i l q rest) as [H1 H2]; trivial.
  - now left.
  - intros a Ha Hd. rewrite M, upd_other by exact Hd.
    now apply store_table_page.
  - intros j Hj. right. left. rewrite M.
    rewrite upd_other by (unfold in_page in Hout; lia).
    rewrite (store_table_in q _ 512 0) by (simpl; lia). reflexivity.
  - rewrite M1. split; [exact H1|]. split; [exact H2|].
    split; [now apply make_pte_present|now apply make_pte_large].
Qed.

Lemma split_large_page_ok tbl st st1 p i l :
  tables_ok tbl st -> tbl p = Some (S l) -> 0 <= i < 512 ->
  pte_large (mem st (p + 8 * i)) = true ->
  split_large_page (p + 8 * i) (S l) st = Some st1 ->
  exists tbl1,
    tables_ok tbl1 st1 /\ extends tbl (mem st) tbl1 (mem st1)
    /\ pte_present (mem st1 (p + 8 * i)) = true
    /\ pte_large (mem st1 (p + 8 * i)) = false.
Proof.
  intros Hok Hp Hi Hlg E. unfold split_large_page in E.
  destruct (free_pages st) as [|q rest] eqn:Hf;
    [rewrite allocate_intermediate_level_eq, Hf in E; discriminate|].
  destruct (allocate_intermediate_level_mem (p + 8 * i) st q rest Hf)
    as (s & E' & F & M & (_ & Hcr & _)).
  rewrite E' in E.
  destruct (ok_free _ _ Hok q) as [Hq Hqp]; [rewrite Hf; now left|].
  pose proof Hqp as [_ Hqal].
  assert (Hout : ~ in_page q (p + 8 * i)).
  { apply slot_not_in_page; eauto using ok_aligned. congruence. }
  assert (M0 : mem s (p + 8 * i) = Z.lor q 0x63)
    by (rewrite M; apply upd_same).
  rewrite M0, make_pte_phys in E by exact Hqp. unfold phys_cast in E.
  match type of E with
  | Some (set_mem _ (store_table _ ?g _ _ _)) = _ => set (fill := g) in E
  end.
  assert (Est : st1 = set_mem s (store_table q fill 0 512 (mem s)))
    by congruence.
  clear E. subst st1.
  assert (M1 : forall a, ~ in_page q a ->
                 store_table q fill 0 512 (mem s) a = mem s a)
    by (intros a Ha; now apply store_table_page).
  assert (Mm : mem (set_mem s (store_table q fill 0 512 (mem s)))
               = store_table q fill 0 512 (mem s)) by reflexivity.
  exists (set_tbl tbl q l).
  destruct (install_table tbl st
              (set_mem s (store_table q fill 0 512 (mem s))) p i l q rest)
    as [H1 H2]; trivial.
  - now right.
  - rewrite Mm. now rewrite M1.
  - intros a Ha Hd. rewrite Mm. rewrite M1 by exact Ha.
    rewrite M, upd_other by exact Hd. now apply store_table_page.
  - intros j Hj. rewrite Mm.
    rewrite (store_table_in q _ 512 0) by (simpl; lia).
    destruct l as [|l]; [now left|]. right. right. subst fill. cbn [Nat.eqb].
    unfold pte_large in *. rewrite Z.land_lor_distr_l.
    apply negb_true_iff. apply Z.eqb_neq. intros H0.
    apply Z.lor_eq_0_iff in H0. destruct H0 as [H0 _].
    rewrite H0 in Hlg. discriminate Hlg.
  - rewrite Mm. rewrite M1 by exact Hout. rewrite M0.
    split; [exact H1|]. split; [exact H2|].
    split; [now apply make_pte_present|now apply make_pte_large].
Qed.

Lemma populate_page_loop_ok addr :
  forall level tbl st p i ptep' st',
    tables_ok tbl st -> tbl p = Some level -> 0 <= i < 512 ->
    populate_page_loop level addr (p + 8 * i) st = Some (ptep', st') ->
    exists tbl',
      tables_ok tbl' st' /\ extends tbl (mem st) tbl' (mem st')
      /\ levels_ready (mem st') level addr (p + 8 * i) = true
      /\ ptep' = walk_ptep (mem st') level addr (p + 8 * i)
      /\ exists p0 i0,
          ptep' = p0 + 8 * i0 /\ tbl' p0 = Some 0%nat /\ 0 <= i0 < 512.
Proof.
  induction level as [|level IH]; intros tbl st p i ptep' st' Hok Hp Hi E.
  - injection E as <- <-. exists tbl. split; [exact Hok|].
    split; [apply extends_refl|]. split; [reflexivity|].
    split; [reflexivity|]. now exists p, i.
  - cbn [populate_page_loop] in E.
    assert (Hstep : exists tbl1 st1,
               (if negb (pte_present (mem st (p + 8 * i)))
                then allocate_intermediate_level (p + 8 * i) st
                else if pte_large (mem st (p + 8 * i))
                     then split_large_page (p + 8 * i) (S level) st
                     else Some st) = Some st1
               /\ tables_ok tbl1 st1 /\ extends tbl (mem st) tbl1 (mem st1)
               /\ pte_present (mem st1 (p + 8 * i)) = true
               /\ pte_large (mem st1 (p + 8 * i)) = false).
    { destruct (pte_present (mem st (p + 8 * i))) eqn:Hpr; cbn [negb] in *.
      - destruct (pte_large (mem st (p + 8 * i))) eqn:Hlg.
        + destruct (split_large_page _ _ _) as [s1|] eqn:E1; [|discriminate].
          destruct (split_large_page_ok tbl st s1 p i level Hok Hp Hi Hlg E1)
            as (tbl1 & H). now exists tbl1, s1.
        + exists tbl, st. split; [reflexivity|]. split; [exact Hok|].
          split; [apply extends_refl|]. now split.
      - destruct (allocate_intermediate_level _ _) as [s1|] eqn:E1;
          [|discriminate].
        destruct (allocate_intermediate_level_ok tbl st s1 p i level
                    Hok Hp Hi Hpr E1) as (tbl1 & H).
        now exists tbl1, s1. }
    destruct Hstep as (tbl1 & st1 & Hs & Hok1 & Hext1 & Hpr1 & Hlg1).
    rewrite Hs in E. unfold phys_cast in E.
    pose proof (proj1 Hext1 _ _ Hp) as Hp1.
    pose proof (ok_entries _ _ Hok1 p level i Hp1 Hi Hpr1 Hlg1) as Hnext.
    destruct (IH tbl1 st1 _ _ ptep' st' Hok1 Hnext
                (pt_index_range addr level) E)
      as (tbl' & Hok' & Hext' & Hrdy & Hw & Hleaf).
    exists tbl'. split; [exact Hok'|].
    split; [exact (extends_trans _ _ _ _ _ _ Hext1 Hext')|].
    pose proof (proj2 Hext' p level i Hp1 Hi Hpr1 Hlg1) as Hsame.
    cbn [levels_ready walk_ptep]. rewrite Hsame, Hpr1, Hlg1. simpl.
    split; [exact Hrdy|]. split; [exact Hw|exact Hleaf].
Qed.

(** Writing a leaf entry. *)
Lemma leaf_write_ok tbl st p0 i0 v q rest :
  tables_ok tbl st -> tbl p0 = Some 0%nat -> 0 <= i0 < 512 ->
  free_pages st = q :: rest ->
  let st' := mk_state (vma_list st) (upd (mem st) (p0 + 8 * i0) v) rest
               (cr3 st) (contents st) in
  tables_ok tbl st' /\ extends tbl (mem st) tbl (mem st').
Proof.
  intros Hok Hp0 Hi0 Hf st'.
  assert (Hsame : forall p l i,
             tbl p = Some (S l) -> 0 <= i < 512 ->
             mem st' (p + 8 * i) = mem st (p + 8 * i)).
  { intros p l i Hp Hi. subst st'. cbn [mem]. apply upd_other.
    intros E. apply slot_inj in E; eauto using ok_aligned.
    destruct E as [-> _]. congruence. }
  split; [constructor|split; [auto|]].
  - exact (ok_root _ _ Hok).
  - exact (ok_aligned _ _ Hok).
  - intros p l i Hp Hi. rewrite (Hsame p l i Hp Hi).
    exact (ok_entries _ _ Hok p l i Hp Hi).
  - intros r Hr. apply (ok_free _ _ Hok). rewrite Hf. now right.
  - pose proof (ok_nodup _ _ Hok) as Hnd. rewrite Hf in Hnd.
    now inversion Hnd.
  - intros p l i Hp Hi _ _. exact (Hsame p l i Hp Hi).
Qed.

Lemma ready_preserved tbl st tbl' st' a :
  tables_ok tbl st -> extends tbl (mem st) tbl' (mem st') ->
  cr3 st' = cr3 st -> ready st a = true ->
  ready st' a = true /\ leaf_ptep st' a = leaf_ptep st a.
Proof.
  intros Hok Hext Hcr H. unfold ready, leaf_ptep, root_ptep in *.
  rewrite Hcr.
  exact (levels_ready_extends tbl st tbl' (mem st') a Hok Hext _ _ _
           (ok_root _ _ Hok) (pt_index_range a _) H).
Qed.

Lemma populate_page_ok tbl st addr st' :
  tables_ok tbl st -> populate_page addr st = Some st' ->
  exists tbl',
    tables_ok tbl' st' /\ extends tbl (mem st) tbl' (mem st')
    /\ cr3 st' = cr3 st /\ ready st' addr = true.
Proof.
  intros Hok E. unfold populate_page, phys_cast in E.
  destruct (populate_page_loop _ _ _ _) as [[ptep s1]|] eqn:E1;
    [|discriminate].
  pose proof (populate_page_loop_frame _ _ _ _ _ _ E1) as (_ & Hcr1 & _).
  destruct (populate_page_loop_ok addr _ tbl st _ _ ptep s1 Hok
              (ok_root _ _ Hok) (pt_index_range addr _) E1)
    as (tbl1 & Hok1 & Hext1 & Hrdy & Hw & p0 & i0 & -> & Hp0 & Hi0).
  unfold alloc_page, memory_alloc_page in E.
  destruct (free_pages s1) as [|q rest] eqn:Hf; [discriminate|].
  injection E as <-. unfold virt_to_phys, set_mem, set_free_pages.
  cbn [mem vma_list free_pages cr3 contents].
  destruct (leaf_write_ok tbl1 s1 p0 i0 (make_pte q) q rest Hok1 Hp0 Hi0 Hf)
    as [Hok2 Hext2].
  exists tbl1. split; [exact Hok2|].
  split; [exact (extends_trans _ _ _ _ _ _ Hext1 Hext2)|].
  split; [exact Hcr1|].
  assert (R1 : ready s1 addr = true)
    by (unfold ready, root_ptep; rewrite Hcr1; exact Hrdy).
  exact (proj1 (ready_preserved tbl1 s1 tbl1 _ addr Hok1 Hext2 eq_refl R1)).
Qed.

(** ** populate, twice *)

Lemma populate_loop_ok limit :
  forall fuel tbl addr st st',
    tables_ok tbl st ->
    populate_loop fuel addr limit st = Some st' ->
    exists tbl',
      tables_ok tbl' st' /\ extends tbl (mem st) tbl' (mem st')
      /\ cr3 st' = cr3 st
      /\ forall a, visited fuel addr limit a -> ready st' a = true.
Proof.
  induction fuel as [|fuel IH]; intros tbl addr st st' Hok E;
    cbn [populate_loop visited] in *; destruct (addr <? limit);
    try discriminate;
    try (injection E as <-; exists tbl; split; [exact Hok|];
         split; [apply extends_refl|]; split; [reflexivity|intros a []]).
  destruct (populate_page addr st) as [s1|] eqn:E1; [|discriminate].
  destruct (populate_page_ok tbl st addr s1 Hok E1)
    as (tbl1 & Hok1 & Hext1 & Hcr1 & Hr1).
  destruct (IH tbl1 _ s1 st' Hok1 E) as (tbl' & Hok' & Hext' & Hcr' & Hr').
  exists tbl'. split; [exact Hok'|].
  split; [exact (extends_trans _ _ _ _ _ _ Hext1 Hext')|].
  split; [congruence|].
  intros a [->|Ha]; [|now apply Hr'].
  exact (proj1 (ready_preserved tbl1 s1 tbl' st' addr Hok1 Hext' Hcr' Hr1)).
Qed.

Lemma repopulate_page_ok tbl st addr st' :
  tables_ok tbl st -> ready st addr = true ->
  repopulate_page addr st = Some st' ->
  tables_ok tbl st' /\ extends tbl (mem st) tbl (mem st')
  /\ cr3 st' = cr3 st.
Proof.
  intros Hok Hr E. unfold repopulate_page in E.
  destruct (free_pages st) as [|q rest] eqn:Hf; [discriminate|].
  destruct (walk_leaf_table tbl st addr Hok _ _ _ (ok_root _ _ Hok)
              (pt_index_range addr (nlevels - 1)) Hr)
    as (p0 & i0 & Hw & Hp0 & Hi0).
  unfold leaf_ptep, root_ptep in E.
  change (nlevels - 1)%nat with 3%nat in *. rewrite Hw in E.
  assert (Est : st' = mk_state (vma_list st)
                        (upd (mem st) (p0 + 8 * i0) (make_pte q)) rest
                        (cr3 st) (contents st)) by congruence.
  subst st'.
  destruct (leaf_write_ok tbl st p0 i0 (make_pte q) q rest Hok Hp0 Hi0 Hf)
    as [H1 H2].
  split; [exact H1|]. split; [exact H2|reflexivity].
Qed.

Lemma populate_loop_again limit :
  forall fuel tbl addr st,
    tables_ok tbl st ->
    (forall a, visited fuel addr limit a -> ready st a = true) ->
    populate_loop fuel addr limit st = repopulate_loop fuel addr limit st.
Proof.
  induction fuel as [|fuel IH]; intros tbl addr st Hok Hr;
    cbn [populate_loop repopulate_loop visited] in *;
    destruct (addr <? limit); try reflexivity.
  assert (Ha : ready st addr = true) by (apply Hr; now left).
  rewrite (populate_page_ready addr st Ha).
  destruct (repopulate_page addr st) as [s1|] eqn:E1; [|reflexivity].
  destruct (repopulate_page_ok tbl st addr s1 Hok Ha E1)
    as (Hok1 & Hext1 & Hcr1).
  apply (IH tbl); [exact Hok1|].
  intros a Hv.
  exact (proj1 (ready_preserved tbl st tbl s1 a Hok Hext1 Hcr1
                  (Hr a (or_intror Hv)))).
Qed.

(** C9. On well-formed page tables, with an allocator that hands out
    fresh pages, populating a VMA a second time is the run that only takes
    one page per page address and writes it as the leaf entry: every level
    above the bottom is found present and its table is used as it is. *)
Theorem populate_twice v st st1 :
  page_tables_ok st -> populate v st = Some st1 ->
  populate v st1 = repopulate v st1 /\ page_tables_ok st1.
Proof.
  intros [tbl Hok] E. unfold populate in E.
  destruct (populate_loop_ok _ _ tbl _ st st1 Hok E)
    as (tbl1 & Hok1 & _ & _ & Hr).
  split; [|now exists tbl1].
  unfold populate, repopulate. now apply (populate_loop_again _ _ tbl1).
Qed.

Lemma boot_state_ok : page_tables_ok (boot_state (pages_from 0x2000 8)).
Proof.
  exists boot_tbl. constructor.
  - reflexivity.
  - intros p l. unfold boot_tbl. destruct (Z.eqb_spec p 0x1000) as [->|_];
      [reflexivity|discriminate].
  - intros p l i _ _ H. discriminate H.
  - intros p Hp. simpl in Hp.
    repeat (destruct Hp as [<-|Hp];
            [split; [reflexivity|split; [lia|reflexivity]]|]).
    destruct Hp.
  - unfold boot_state, pages_from. cbn [free_pages map seq].
    repeat (constructor; [simpl; intros H;
                          repeat (destruct H as [H|H]; [lia|]); exact H|]).
    constructor.
Qed.

Lemma populate_twice_witness :
  page_tables_ok (boot_state (pages_from 0x2000 8))
  /\ match populate (mk_vma 0x400000 0x402000)
             (boot_state (pages_from 0x2000 8)) with
     | Some st1 =>
         populate (mk_vma 0x400000 0x402000) st1
         = repopulate (mk_vma 0x400000 0x402000) st1
         /\ page_tables_ok st1
     | None => False
     end.
Proof.
  split; [exact boot_state_ok|].
  destruct (is_some_run (populate (mk_vma 0x400000 0x402000)
                           (boot_state (pages_from 0x2000 8))))
    as [st1 E]; [vm_compute; reflexivity|].
  rewrite E. exact (populate_twice _ _ st1 boot_state_ok E).
Defined.

(** * Further properties of the code *)

(** ** align_down, align_up and the constructor *)

(** X1. [align_down] of a 64-bit word is the largest multiple of the page
    size that is not above it. *)
Theorem align_down_spec x :
  0 <= x < 2 ^ 64 ->
  align_down x mod page_size = 0
  /\ align_down x <= x < align_down x + page_size
  /\ forall a, a mod page_size = 0 -> a <= x -> a <= align_down x.
Proof.
  intros H. pose proof (align_down_aligned x H) as [R M].
  pose proof (align_down_le x H). unfold page_size in *.
  split; [exact M|]. split; [lia|].
  intros a Ma Ha. rewrite align_down_eq by exact H.
  pose proof (Z.div_mod a 4096 ltac:(lia)).
  assert (a / 4096 <= x / 4096) by (apply Z.div_le_mono; lia). lia.
Qed.

Lemma align_down_spec_witness :
  0 <= 0x12345 < 2 ^ 64 /\ align_down 0x12345 <= 0x12345.
Proof.
  assert (H : 0 <= 0x12345 < 2 ^ 64) by lia.
  split; [exact H|]. exact (proj1 (proj1 (proj2 (align_down_spec _ H)))).
Defined.

(** X2. Up to the last page-aligned word [align_up] is the least multiple
    of the page size that is not below its argument; above it the sum wraps
    around and [align_up] is 0. *)
Theorem align_up_spec x :
  0 <= x < 2 ^ 64 ->
  (x <= 2 ^ 64 - 4096 ->
     align_up x mod page_size = 0 /\ x <= align_up x < x + page_size
     /\ forall b, 0 <= b < 2 ^ 64 -> b mod page_size = 0 -> x <= b ->
                  align_up x <= b)
  /\ (2 ^ 64 - 4096 < x -> align_up x = 0).
Proof.
  intros H. split.
  - intros Hx. pose proof (align_up_aligned x) as [_ M].
    pose proof (align_up_ge x ltac:(lia)). unfold page_size in *.
    split; [exact M|]. split; [lia|].
    intros b Rb Mb Hb. apply align_up_le; [split; assumption|lia].
  - intros Hx. unfold align_up, page_size, wrap64.
    replace (x + 4096 - 1) with (x + 4095 - 2 ^ 64 + 1 * 2 ^ 64) by lia.
    rewrite Z.mod_add by lia. rewrite Z.mod_small by lia.
    rewrite align_down_eq by lia.
    rewrite Z.div_small by lia. reflexivity.
Qed.

Lemma align_up_spec_witness :
  0 <= 2 ^ 64 - 1 < 2 ^ 64 /\ 2 ^ 64 - 4096 < 2 ^ 64 - 1
  /\ align_up (2 ^ 64 - 1) = 0.
Proof.
  assert (H : 0 <= 2 ^ 64 - 1 < 2 ^ 64) by lia.
  assert (G : 2 ^ 64 - 4096 < 2 ^ 64 - 1) by lia.
  split; [exact H|]. split; [exact G|].
  exact (proj2 (align_up_spec _ H) G).
Defined.

(** X3. The constructor rounds outwards: for [start <= end] below the last
    page the VMA has page-aligned bounds, contains [start, end) and adds
    less than a page at either side; and it gives back a VMA whose bounds
    are already aligned, which is what [vma::split] relies on. *)
Theorem vma_new_covers s e :
  0 <= s <= e -> e <= 2 ^ 64 - 4096 ->
  let v := vma_new s e in
  aligned64 (_start v) /\ aligned64 (_end v)
  /\ s - page_size < _start v <= s /\ e <= _end v < e + page_size
  /\ (aligned64 s -> aligned64 e -> v = mk_vma s e).
Proof.
  intros Hse He v. subst v. simpl.
  pose proof (align_down_aligned s ltac:(lia)).
  pose proof (align_up_aligned e).
  pose proof (align_down_le s ltac:(lia)).
  pose proof (align_up_ge e ltac:(lia)). unfold page_size.
  split; [assumption|]. split; [assumption|]. split; [lia|]. split; [lia|].
  intros As Ae. now apply vma_new_aligned.
Qed.

Lemma vma_new_covers_witness :
  0 <= 0x1234 <= 0x5678 /\ 0x5678 <= 2 ^ 64 - 4096
  /\ _start (vma_new 0x1234 0x5678) <= 0x1234
  /\ 0x5678 <= _end (vma_new 0x1234 0x5678).
Proof.
  assert (A : 0 <= 0x1234 <= 0x5678) by lia.
  assert (B : 0x5678 <= 2 ^ 64 - 4096) by lia.
  split; [exact A|]. split; [exact B|].
  destruct (vma_new_covers 0x1234 0x5678 A B) as (_ & _ & H1 & H2 & _).
  split; [exact (proj2 H1)|exact (proj1 H2)].
Defined.

(** ** Page-table entries *)

(** X4. [make_pte] and [pte_phys] round trip: for a page-aligned physical
    address below 2^53 the entry decodes to the address it was made from,
    and it is present and not large. *)
Theorem make_pte_roundtrip p :
  phys_page p ->
  pte_phys (make_pte p) = p
  /\ pte_present (make_pte p) = true
  /\ pte_large (make_pte p) = false.
Proof.
  intros H. pose proof H as [_ M]. unfold make_pte.
  split; [now apply make_pte_phys|].
  split; [now apply make_pte_present|now apply make_pte_large].
Qed.

Lemma make_pte_roundtrip_witness :
  phys_page 0x5000 /\ pte_phys (make_pte 0x5000) = 0x5000.
Proof.
  assert (H : phys_page 0x5000) by (split; [lia|reflexivity]).
  split; [exact H|]. exact (proj1 (make_pte_roundtrip _ H)).
Defined.

Lemma pt_index_div virt level :
  pt_index virt level = (virt / 2 ^ (12 + Z.of_nat level * 9)) mod 512.
Proof.
  unfold pt_index. change 511 with (Z.ones 9).
  rewrite Z.land_ones by lia. rewrite Z.shiftr_div_pow2 by lia. reflexivity.
Qed.

(** X5. The four indices and the offset in the page are the digits of the
    address: every address below 2^48 is put together again from
    [pt_index] at levels 3 to 0 and its low 12 bits, and each index is
    below 512. *)
Theorem pt_index_decompose virt :
  0 <= virt < 2 ^ 48 ->
  virt
  = pt_index virt 3 * 2 ^ 39 + pt_index virt 2 * 2 ^ 30
    + pt_index virt 1 * 2 ^ 21 + pt_index virt 0 * 2 ^ 12 + virt mod 4096
  /\ forall level, 0 <= pt_index virt level < 512.
Proof.
  intros H. split; [|intros level; apply pt_index_range].
  rewrite !pt_index_div.
  change (2 ^ (12 + Z.of_nat 3 * 9)) with (2 ^ 39).
  change (2 ^ (12 + Z.of_nat 2 * 9)) with (2 ^ 30).
  change (2 ^ (12 + Z.of_nat 1 * 9)) with (2 ^ 21).
  change (2 ^ (12 + Z.of_nat 0 * 9)) with (2 ^ 12).
  change (2 ^ 39) with 549755813888. change (2 ^ 30) with 1073741824.
  change (2 ^ 21) with 2097152. change (2 ^ 12) with 4096.
  change (2 ^ 48) with 281474976710656 in H.
  Z.div_mod_to_equations. lia.
Qed.

Lemma pt_index_decompose_witness :
  0 <= 0x7f1234567abc < 2 ^ 48
  /\ 0x7f1234567abc
     = pt_index 0x7f1234567abc 3 * 2 ^ 39 + pt_index 0x7f1234567abc 2 * 2 ^ 30
       + pt_index 0x7f1234567abc 1 * 2 ^ 21
       + pt_index 0x7f1234567abc 0 * 2 ^ 12 + 0x7f1234567abc mod 4096.
Proof.
  assert (H : 0 <= 0x7f1234567abc < 2 ^ 48) by lia.
  split; [exact H|]. exact (proj1 (pt_index_decompose _ H)).
Defined.

(** ** The ordered set *)

Lemma deref_none_keys l k :
  deref l k = None -> Forall (fun y => _start y <> k) l.
Proof.
  unfold deref. induction l as [|a l IH]; simpl; [constructor|].
  destruct (Z.eqb_spec (_start a) k); [discriminate|].
  intros H. constructor; [assumption|now apply IH].
Qed.

Lemma insert_keys_above n l k :
  k < _start n -> keys_above k l -> keys_above k (insert n l).
Proof.
  intros Hn H. unfold keys_above in *. rewrite Forall_forall in *.
  intros y Hy. apply insert_In in Hy. destruct Hy as [->|Hy]; auto.
Qed.

(** X6. [insert] keeps the set ordered with unique keys and loses no node;
    the node inserted is the one a lookup of its key then finds, unless a
    node with that key was already there, in which case the set is left as
    it was. *)
Theorem insert_lookup n l :
  key_sorted l ->
  key_sorted (insert n l)
  /\ (forall y, In y l -> In y (insert n l))
  /\ (deref l (_start n) = None -> deref (insert n l) (_start n) = Some n)
  /\ (forall y, deref l (_start n) = Some y ->
                insert n l = l /\ deref (insert n l) (_start n) = Some y).
Proof.
  intros Hs. induction l as [|a l IH]; simpl.
  - repeat split; try discriminate; try contradiction.
    + constructor.
    + intros _. unfold deref. simpl. now rewrite Z.eqb_refl.
  - destruct Hs as [Ha Hs]. specialize (IH Hs).
    destruct IH as (I1 & I2 & I3 & I4).
    unfold deref in *. simpl.
    destruct (Z.ltb_spec (_start n) (_start a)) as [L|L].
    + split; [|split; [|split]].
      * simpl. split; [|split; assumption].
        constructor; [exact L|].
        eapply Forall_impl; [|exact Ha]. simpl. intros; lia.
      * intros y Hy. now right.
      * intros _. simpl. now rewrite Z.eqb_refl.
      * intros y. destruct (Z.eqb_spec (_start a) (_start n)); [lia|].
        intros Hy. apply find_some in Hy. destruct Hy as [Hy Hk].
        apply Z.eqb_eq in Hk. unfold keys_above in Ha.
        rewrite Forall_forall in Ha. specialize (Ha y Hy). lia.
    + destruct (Z.ltb_spec (_start a) (_start n)) as [G|G].
      * destruct (Z.eqb_spec (_start a) (_start n)); [lia|].
        split; [|split; [|split]].
        -- simpl. split; [now apply insert_keys_above|exact I1].
        -- intros y [<-|Hy]; [now left|right; now apply I2].
        -- simpl. destruct (Z.eqb_spec (_start a) (_start n)); [lia|].
           exact I3.
        -- intros y Hy. destruct (I4 y Hy) as [E1 E2]. rewrite E1.
           split; [reflexivity|]. simpl.
           destruct (Z.eqb_spec (_start a) (_start n)); [lia|exact Hy].
      * assert (E : _start a = _start n) by lia.
        destruct (Z.eqb_spec (_start a) (_start n)); [|lia].
        split; [|split; [|split]].
        -- simpl. now split.
        -- auto.
        -- discriminate.
        -- intros y [= <-]. split; [reflexivity|]. simpl.
           destruct (Z.eqb_spec (_start a) (_start n)); [reflexivity|lia].
Qed.

Lemma key_sorted_init : key_sorted vma_list_init.
Proof.
  rewrite vma_list_init_eq. simpl.
  repeat split; repeat constructor; simpl; lia.
Qed.

Lemma insert_lookup_witness :
  key_sorted vma_list_init
  /\ deref (insert (mk_vma 0x1000 0x3000) vma_list_init) 0x1000
     = Some (mk_vma 0x1000 0x3000)
  /\ insert (mk_vma 0 0x3000) vma_list_init = vma_list_init.
Proof.
  pose proof key_sorted_init as K.
  split; [exact K|].
  destruct (insert_lookup (mk_vma 0x1000 0x3000) _ K) as (_ & _ & H3 & _).
  destruct (insert_lookup (mk_vma 0 0x3000) _ K) as (_ & _ & _ & H4).
  split; [exact (H3 eq_refl)|].
  exact (proj1 (H4 sentinel_lo eq_refl)).
Defined.

(** X7. [erase] undoes [insert]: in an ordered set without the key,
    inserting a node and erasing it by its key gives the set back; erasing
    a key that is not there changes nothing. *)
Theorem erase_insert n l :
  key_sorted l -> deref l (_start n) = None ->
  erase (_start n) (insert n l) = l /\ erase (_start n) l = l.
Proof.
  intros Hs Hn. apply deref_none_keys in Hn.
  induction l as [|a l IH]; simpl.
  - now rewrite Z.eqb_refl.
  - destruct Hs as [Ha Hs]. inversion Hn as [|? ? Hne Hl]; subst.
    specialize (IH Hs Hl). destruct IH as [I1 I2].
    destruct (Z.eqb_spec (_start a) (_start n)); [contradiction|].
    rewrite I2. split; [|reflexivity].
    destruct (Z.ltb_spec (_start n) (_start a)).
    + simpl. now rewrite Z.eqb_refl.
    + destruct (Z.ltb_spec (_start a) (_start n)); [|lia].
      simpl. destruct (Z.eqb_spec (_start a) (_start n)); [contradiction|].
      now rewrite I1.
Qed.

Lemma erase_insert_witness :
  key_sorted vma_list_init /\ deref vma_list_init 0x1000 = None
  /\ erase 0x1000 (insert (mk_vma 0x1000 0x3000) vma_list_init)
     = vma_list_init.
Proof.
  pose proof key_sorted_init as K.
  split; [exact K|]. split; [reflexivity|].
  exact (proj1 (erase_insert (mk_vma 0x1000 0x3000) _ K eq_refl)).
Defined.

(** ** find_hole and reserve *)

Lemma find_hole_from_ge start size h :
  forall rest p,
    find_hole_from p rest start size = Some h -> start <= h.
Proof.
  induction rest as [|n rest IH]; intros p; cbn [find_hole_from];
    [discriminate|].
  destruct ((_end p <=? start) && (wrap64 (start + size) <=? _start n)).
  - intros [= <-]. lia.
  - destruct ((start <=? _end p) && (size <=? wrap64 (_start n - _end p)))
      eqn:H2.
    + intros [= <-]. apply andb_true_iff in H2. destruct H2 as [H2 _].
      now apply Z.leb_le in H2.
    + apply IH.
Qed.

(** X8. What [find_hole] answers is a hole: on a sorted, non-overlapping
    tracker, for a request that does not wrap around, the address returned
    is at or above the hint and the range of [size] bytes from it meets no
    tracked VMA. *)
Theorem find_hole_sound l start size h :
  wf l -> 0 <= start -> 0 <= size -> start + size < 2 ^ 64 ->
  find_hole l start size = Some h ->
  start <= h
  /\ forall y, In y l -> _end y <= h \/ h + size <= _start y.
Proof.
  intros Hwf Hst Hsz Hsum Hf. destruct l as [|p rest]; [discriminate|].
  cbn [find_hole] in Hf. split; [exact (find_hole_from_ge _ _ _ _ _ Hf)|].
  destruct (find_hole_from_gap start size h Hsz Hsum Hst _ _ Hwf Hf)
    as (Hp & Hall & _).
  intros y [<-|Hy]; [now left|now apply Hall].
Qed.

Lemma find_hole_sound_witness :
  wf hole_example /\ 0 <= 0x15000 /\ 0 <= 0x2000 /\ 0x15000 + 0x2000 < 2 ^ 64
  /\ find_hole hole_example 0x15000 0x2000 = Some 0x20000
  /\ 0x15000 <= 0x20000.
Proof.
  assert (W : wf hole_example) by solve_wf.
  assert (A : 0 <= 0x15000) by lia.
  assert (B : 0 <= 0x2000) by lia.
  assert (C : 0x15000 + 0x2000 < 2 ^ 64) by lia.
  assert (F : find_hole hole_example 0x15000 0x2000 = Some 0x20000)
    by reflexivity.
  split; [exact W|]. split; [exact A|]. split; [exact B|].
  split; [exact C|]. split; [exact F|].
  exact (proj1 (find_hole_sound _ _ _ _ W A B C F)).
Defined.

Lemma find_hole_from_above start size lim :
  0 <= size -> 0 <= start -> start + size < 2 ^ 64 -> lim < start ->
  forall rest p,
    Forall (fun y => _start y <= lim /\ _end y <= lim) (p :: rest) ->
    find_hole_from p rest start size = None.
Proof.
  intros Hsz Hst Hsum Hlim. induction rest as [|n rest IH]; intros p Hall;
    [reflexivity|].
  cbn [find_hole_from]. inversion Hall as [|? ? [_ Hp] Hr]; subst.
  pose proof Hr as Hr'. inversion Hr' as [|? ? [Hn _] _]; subst.
  rewrite wrap64_small by lia.
  destruct (Z.leb_spec (start + size) (_start n)); [lia|].
  destruct (Z.leb_spec start (_end p)); [lia|].
  rewrite andb_false_r. simpl. now apply IH.
Qed.

Lemma tracker_inv_below_top l :
  tracker_inv l -> Forall (fun y => _start y <= top /\ _end y <= top) l.
Proof.
  intros [[Hs Hg] [mid ->]].
  change (sentinel_lo :: mid ++ [sentinel_hi])
    with ((sentinel_lo :: mid) ++ [sentinel_hi]) in *.
  apply Forall_app. split.
  - apply sorted_zip in Hs. destruct Hs as [Hs _].
    rewrite Forall_app in Hg. destruct Hg as [Hg _].
    rewrite Forall_forall in *. intros y Hy.
    destruct (Hs y Hy) as [H1 H2]. destruct (Hg y Hy) as (_ & _ & H3).
    unfold top. simpl in *. lia.
  - constructor; [|constructor]. unfold top. simpl. lia.
Qed.

(** X9. Above the upper marker there is no hole: for a hint beyond
    [0x800000000000] (and a request that does not wrap around) [find_hole]
    runs off the end of the tracker and aborts, and so does [reserve]. *)
Theorem find_hole_above_top l start size :
  tracker_inv l -> 0 <= size -> start + size < 2 ^ 64 -> top < start ->
  find_hole l start size = None /\ reserve start size l = None.
Proof.
  intros Hinv Hsz Hsum Htop.
  assert (Hf : find_hole l start size = None).
  { pose proof (tracker_inv_below_top l Hinv) as Hall.
    destruct l as [|p rest]; [reflexivity|].
    apply (find_hole_from_above start size top); trivial.
    unfold top in Htop. lia. }
  split; [exact Hf|]. unfold reserve.
  destruct (Z.eqb_spec start 0); [unfold top in Htop; lia|].
  now rewrite Hf.
Qed.

Lemma find_hole_above_top_witness :
  tracker_inv vma_list_init /\ 0 <= 0x1000
  /\ 0x900000000000 + 0x1000 < 2 ^ 64 /\ top < 0x900000000000
  /\ reserve 0x900000000000 0x1000 vma_list_init = None.
Proof.
  assert (A : 0 <= 0x1000) by lia.
  assert (B : 0x900000000000 + 0x1000 < 2 ^ 64) by lia.
  assert (C : top < 0x900000000000) by (unfold top; lia).
  split; [exact wf_vma_list_init|]. split; [exact A|]. split; [exact B|].
  split; [exact C|].
  exact (proj2 (find_hole_above_top _ _ _ wf_vma_list_init A B C)).
Defined.

(** X10. [reserve] claims a hole: on a well-formed tracker, when it returns
    for a request that does not wrap around, the VMA it returns contains the
    range of [size] bytes from an address at or above the hint (or the mmap
    base when the hint is 0), overlaps no VMA tracked before, and every VMA
    tracked before is still tracked. *)
Theorem reserve_claims_hole hint size l v l' :
  tracker_inv l -> in_area (Reserve hint size) ->
  reserve hint size l = Some (v, l') ->
  (exists h,
      (if hint =? 0 then mmap_base else hint) <= h
      /\ _start v <= h /\ h + size <= _end v)
  /\ Forall (fun y => overlaps y v = false) l
  /\ (forall y, In y l -> In y l')
  /\ tracker_inv l'.
Proof.
  intros Hinv Harea Hr.
  pose proof (reserve_inv _ _ _ _ _ Hinv Harea Hr) as Hinv'.
  destruct Harea as (Hh & Hsz & Hsum). unfold reserve in Hr.
  set (start := if hint =? 0 then mmap_base else hint) in *.
  assert (Hst : 0 <= start)
    by (subst start; destruct (hint =? 0); unfold mmap_base; lia).
  destruct (find_hole l start size) as [h|] eqn:Hf; [|discriminate].
  injection Hr as <- <-. pose proof Hinv as [Hwf _].
  assert (Hge : start <= h)
    by (destruct l; [discriminate|exact (find_hole_from_ge _ _ _ _ _ Hf)]).
  assert (Hall : forall y, In y l -> _end y <= h \/ h + size <= _start y).
  { destruct l as [|p rest]; [discriminate|]. cbn [find_hole] in Hf.
    destruct (find_hole_from_gap start size h Hsz Hsum Hst _ _ Hwf Hf)
      as (Hp & Hr & _).
    intros y [<-|Hy]; [now left|now apply Hr]. }
  pose proof (tracker_inv_below_top l Hinv) as Hbelow.
  assert (Hhs : h + size <= top).
  { destruct l as [|p rest]; [discriminate|]. cbn [find_hole] in Hf.
    destruct (find_hole_from_gap start size h Hsz Hsum Hst _ _ Hwf Hf)
      as (_ & _ & n & Hn & Hn').
    rewrite Forall_forall in Hbelow.
    destruct (Hbelow n (or_intror Hn)) as [Hnt _]. lia. }
  assert (Hn64 : h + size < 2 ^ 64) by (unfold top in *; lia).
  rewrite wrap64_small in * by lia.
  destruct (vma_new_good h (h + size) ltac:(lia) Hhs) as (G & Gt & Gs & Ge).
  split; [exists h; repeat split; assumption|].
  split; [|split; [|exact Hinv']].
  - rewrite Forall_forall. intros y Hy. apply clear_no_overlap.
    pose proof (wf_in_good _ y Hwf Hy) as (Ys & Ye & _).
    unfold clear. simpl. destruct (Hall y Hy) as [H|H].
    + left. apply align_down_ge; trivial. unfold top in *. lia.
    + right. apply align_up_le; trivial. lia.
  - intros y Hy. clear - Hy. induction l as [|a l IH]; [contradiction|].
    simpl. destruct (_ <? _); [now right|].
    destruct (_ <? _); [|exact Hy].
    destruct Hy as [<-|Hy]; [now left|right; now apply IH].
Qed.

Lemma reserve_claims_hole_witness :
  tracker_inv hole_example /\ in_area (Reserve 0x15000 0x2000)
  /\ match reserve 0x15000 0x2000 hole_example with
     | Some (v, l') =>
         Forall (fun y => overlaps y v = false) hole_example
         /\ tracker_inv l'
     | None => False
     end.
Proof.
  assert (T : tracker_inv hole_example).
  { split; [solve_wf|]. now exists [mk_vma 0x10000 0x20000]. }
  assert (A : in_area (Reserve 0x15000 0x2000)) by (simpl; lia).
  split; [exact T|]. split; [exact A|].
  destruct (is_some_run (reserve 0x15000 0x2000 hole_example))
    as [[v l'] E]; [reflexivity|].
  rewrite E.
  destruct (reserve_claims_hole _ _ _ _ _ T A E) as (_ & H1 & _ & H2).
  split; [exact H1|exact H2].
Defined.

(** X11. Page 0 cannot be mapped in the tracker: the lower marker holds key
    0, so a VMA whose start rounds down to 0 is refused by [insert], and
    [map_anon_dontzero] from a start below the page size returns a VMA that
    the tracker does not hold. *)
Theorem page_zero_untracked s e perm st v st' :
  tracker_inv (vma_list st) -> 0 <= s < page_size -> s <= e -> e <= top ->
  map_anon_dontzero s e perm st = Some (v, st') ->
  _start v = 0 /\ evacuate v (vma_list st) = Some (vma_list st')
  /\ (v <> sentinel_lo -> ~ In v (vma_list st')).
Proof.
  intros Hinv Hs Hse He Hm. unfold map_anon_dontzero in Hm.
  assert (H0 : _start (vma_new s e) = 0).
  { simpl. rewrite align_down_eq by (unfold page_size in *; lia).
    unfold page_size in Hs. rewrite Z.div_small by lia. reflexivity. }
  destruct (evacuate_insert_inv s e _ Hinv ltac:(lia) He) as (l1 & E1 & Hl1).
  rewrite E1 in Hm.
  destruct (populate _ _) as [s1|] eqn:E; [|discriminate].
  apply populate_frame in E. destruct E as (E & _).
  apply Some_eq in Hm. injection Hm as <- <-. rewrite E. cbn [vma_list set_vma_list].
  destruct Hl1 as [[Hsort _] [mid Hshape]].
  assert (Hl1' : exists r, l1 = sentinel_lo :: r /\ insert (vma_new s e) l1 = l1).
  { destruct Hinv as [Hwf [body Hb]]. rewrite Hb in E1.
    destruct (vma_new_good s e ltac:(lia) He) as ((Gs & Ge & _) & _).
    destruct (evacuate_ok _ sentinel_lo body sentinel_hi Gs Ge) as (m & Em & _).
    { now rewrite <- Hb. }
    rewrite Em in E1. apply Some_eq in E1. subst l1.
    eexists. split; [reflexivity|]. cbn [insert]. rewrite H0. reflexivity. }
  destruct Hl1' as (r & -> & Hins). rewrite Hins in *.
  split; [exact H0|]. split; [exact E1|].
  intros Hne [Hin|Hin]; [now symmetry in Hin|].
  destruct Hsort as [Hb _]. rewrite Forall_forall in Hb.
  destruct (Hb _ Hin) as [_ Hlt]. rewrite H0 in Hlt. simpl in Hlt. lia.
Qed.

Lemma page_zero_untracked_witness :
  tracker_inv (vma_list (boot_state (pages_from 0x2000 8)))
  /\ 0 <= 0x10 < page_size /\ 0x10 <= 0x1000 /\ 0x1000 <= top
  /\ match map_anon_dontzero 0x10 0x1000 0 (boot_state (pages_from 0x2000 8))
     with
     | Some (v, st') => _start v = 0 /\ vma_list st' = vma_list_init
     | None => False
     end.
Proof.
  pose proof wf_vma_list_init as T.
  assert (A : 0 <= 0x10 < page_size) by (unfold page_size; lia).
  assert (B : 0x10 <= 0x1000) by lia.
  assert (C : 0x1000 <= top) by (unfold top; lia).
  split; [exact T|]. split; [exact A|]. split; [exact B|]. split; [exact C|].
  destruct (is_some_run (map_anon_dontzero 0x10 0x1000 0
                           (boot_state (pages_from 0x2000 8))))
    as [[v st'] E]; [vm_compute; reflexivity|].
  rewrite E.
  destruct (page_zero_untracked _ _ _ (boot_state (pages_from 0x2000 8))
              _ _ T A B C E) as (H1 & H2 & _).
  split; [exact H1|].
  assert (Hv : v = mk_vma 0 0x1000).
  { unfold map_anon_dontzero in E.
    destruct (evacuate _ _); [|discriminate].
    destruct (populate _ _); [|discriminate].
    apply Some_eq in E. injection E as <- _. reflexivity. }
  rewrite Hv in H2. cbn [boot_state vma_list] in H2.
  change (evacuate (mk_vma 0 0x1000) vma_list_init) with (Some vma_list_init)
    in H2.
  now apply Some_eq in H2.
Defined.

(** ** What evacuate removes *)

(** One round of the loop of [evacuate] on the node at the head of
    [x :: body]. *)
Lemma evacuate_loop_step v fuel pre x body lst :
  aligned64 (_start v) -> aligned64 (_end v) ->
  wf (pre ++ (x :: body) ++ [lst]) -> pre <> [] ->
  let x2 := trunc (trunc x (_end v)) (_start v) in
  let B2 := remainder (trunc x (_end v)) (_start v)
            ++ remainder x (_end v) ++ body in
  wf ((pre ++ [x2]) ++ B2 ++ [lst]) /\ wf (pre ++ B2 ++ [lst])
  /\ evacuate_loop (S fuel) v (begin ((x :: body) ++ [lst]))
       (pre ++ (x :: body) ++ [lst])
     = if contains v x2
       then evacuate_loop fuel v (begin (B2 ++ [lst])) (pre ++ B2 ++ [lst])
       else evacuate_loop fuel v (begin (B2 ++ [lst]))
              ((pre ++ [x2]) ++ B2 ++ [lst]).
Proof.
  intros Hs He Hwf Hne. simpl app in *. rewrite begin_cons.
  cbn [evacuate_loop].
  replace (prev_end (pre ++ x :: body ++ [lst])) with (Some (_start lst))
    by (rewrite app_comm_cons, app_assoc; symmetry; apply prev_end_snoc).
  cbn [iterator_eqb].
  pose proof Hwf as [Hsorted _].
  pose proof (sorted_keys _ _ _ Hsorted) as [Kb Ka].
  assert (Hlt : _start x < _start lst).
  { unfold keys_above in Ka. rewrite Forall_app in Ka.
    destruct Ka as [_ Ka]. now inversion Ka. }
  destruct (Z.eqb_spec (_start x) (_start lst)) as [|_]; [lia|].
  rewrite (vma_split_zip pre x (body ++ [lst]) (_end v) Hwf He).
  pose proof (wf_split pre x _ (_end v) Hwf He) as Hwf1.
  set (x1 := trunc x (_end v)) in *.
  rewrite <- (trunc_start x (_end v)). fold x1.
  rewrite (vma_split_zip pre x1 _ (_start v) Hwf1 Hs).
  pose proof (wf_split pre x1 _ (_start v) Hwf1 Hs) as Hwf2.
  set (x2 := trunc x1 (_start v)) in *.
  rewrite <- (trunc_start x1 (_start v)). fold x2.
  set (B2 := remainder x1 (_start v) ++ remainder x (_end v) ++ body).
  assert (EB : remainder x1 (_start v) ++ remainder x (_end v) ++ body ++ [lst]
               = B2 ++ [lst])
    by (unfold B2; now rewrite <- !app_assoc).
  rewrite EB in *. cbv zeta.
  pose proof Hwf2 as [Hs2 _].
  pose proof (sorted_keys _ _ _ Hs2) as [Kb2 Ka2].
  rewrite deref_zip by exact Kb2.
  pose proof (wf_erase _ _ _ Hwf2) as Hwf3.
  split; [rewrite <- app_assoc; exact Hwf2|]. split; [exact Hwf3|].
  destruct (contains v x2) eqn:Hc.
  - rewrite prev_key_zip by exact Kb2.
    destruct (exists_last Hne) as (pre' & y & ->).
    rewrite prev_end_snoc, erase_zip by exact Kb2.
    assert (Hn : next_key ((pre' ++ [y]) ++ B2 ++ [lst]) (_start y)
                 = begin (B2 ++ [lst])).
    { destruct Hwf3 as [Hs3 _]. rewrite <- app_assoc in *. simpl in *.
      pose proof (sorted_keys _ _ _ Hs3) as [? ?].
      now apply next_key_zip. }
    now rewrite Hn.
  - rewrite next_key_zip by assumption. now rewrite <- app_assoc.
Qed.

Lemma covered_cons x l a : covered (x :: l) a <-> covers x a \/ covered l a.
Proof. unfold covered. apply Exists_cons. Qed.

Lemma covered_app l1 l2 a :
  covered (l1 ++ l2) a <-> covered l1 a \/ covered l2 a.
Proof. unfold covered. apply Exists_app. Qed.

Lemma covered_nil a : ~ covered [] a.
Proof. unfold covered. intros H. inversion H. Qed.

Lemma covers_split x edge a :
  covers x a <-> covers (trunc x edge) a \/ covered (remainder x edge) a.
Proof.
  unfold trunc, remainder. destruct (inside x edge) eqn:Hin.
  - apply inside_iff in Hin. rewrite covered_cons. unfold covers. simpl.
    pose proof (covered_nil a). intuition lia.
  - pose proof (covered_nil a). intuition.
Qed.

Lemma cuts_trunc v x :
  cuts v (trunc (trunc x (_end v)) (_start v)) = O.
Proof. split_cases. Qed.

Lemma contains_covers v y a :
  contains v y = true -> covers y a -> covers v a.
Proof.
  unfold contains, covers. intros H. apply andb_true_iff in H.
  destruct H as [H1 H2]. apply Z.leb_le in H1, H2. lia.
Qed.

Lemma clear_covers v y a : clear v y -> covers y a -> ~ covers v a.
Proof. unfold clear, covers. lia. Qed.

(** The loop leaves nodes that no bound of [v] cuts and that [v] does not
    contain, and it takes away the addresses of [v] and no others. *)
Lemma evacuate_loop_cover v :
  aligned64 (_start v) -> aligned64 (_end v) ->
  forall fuel pre body lst,
    wf (pre ++ body ++ [lst]) -> pre <> [] ->
    (weight v body < fuel)%nat ->
    exists mid,
      evacuate_loop fuel v (begin (body ++ [lst])) (pre ++ body ++ [lst])
      = Some (pre ++ mid ++ [lst])
      /\ Forall (fun y => cuts v y = O /\ contains v y = false) mid
      /\ forall a, covered mid a <-> covered body a /\ ~ covers v a.
Proof.
  intros Hs He. induction fuel as [|fuel IH];
    intros pre body lst Hwf Hne Hw; [lia|].
  destruct body as [|x body].
  - exists []. simpl app. cbn [evacuate_loop].
    rewrite prev_end_snoc. simpl. rewrite Z.eqb_refl.
    split; [reflexivity|]. split; [constructor|].
    intros a. pose proof (covered_nil a). tauto.
  - destruct (evacuate_loop_step v fuel pre x body lst Hs He Hwf Hne)
      as (Hwf2 & Hwf3 & ->).
    pose proof (weight_split v x (_end v) (or_introl eq_refl)) as W1.
    pose proof (weight_split v (trunc x (_end v)) (_start v)
                  (or_intror eq_refl)) as W2.
    pose proof (trunc_clear v x) as Hclear. cbv zeta in Hclear.
    pose proof (cuts_trunc v x) as Hcuts.
    assert (Hcov : forall a,
               covers x a <->
               covers (trunc (trunc x (_end v)) (_start v)) a
               \/ covered (remainder (trunc x (_end v)) (_start v)
                           ++ remainder x (_end v)) a).
    { intros a. rewrite covered_app.
      rewrite (covers_split x (_end v) a).
      rewrite (covers_split (trunc x (_end v)) (_start v) a). tauto. }
    set (x2 := trunc (trunc x (_end v)) (_start v)) in *.
    set (B2 := remainder (trunc x (_end v)) (_start v)
               ++ remainder x (_end v) ++ body) in *.
    assert (HwB : (weight v B2 < fuel)%nat).
    { unfold B2. rewrite !weight_app. simpl in Hw. lia. }
    assert (HcB : forall a, covered (x :: body) a
                            <-> covers x2 a \/ covered B2 a).
    { intros a. rewrite covered_cons, Hcov. unfold B2.
      rewrite !covered_app. tauto. }
    destruct (contains v x2) eqn:Hc.
    + destruct (IH pre B2 lst Hwf3 Hne HwB) as (mid & E & F & C).
      exists mid. split; [exact E|]. split; [exact F|].
      intros a. rewrite C, HcB.
      pose proof (contains_covers v x2 a Hc). tauto.
    + destruct (IH (pre ++ [x2]) B2 lst Hwf2) as (mid & E & F & C).
      { intros Hnil. now apply app_eq_nil in Hnil. }
      { exact HwB. }
      exists (x2 :: mid).
      replace (pre ++ (x2 :: mid) ++ [lst])
        with ((pre ++ [x2]) ++ mid ++ [lst]) by (now rewrite <- app_assoc).
      split; [exact E|]. split; [constructor; [now split|exact F]|].
      intros a. rewrite covered_cons, C, HcB.
      pose proof (clear_covers v x2 a (Hclear eq_refl)). tauto.
Qed.

Lemma evacuate_cover v first body lst :
  aligned64 (_start v) -> aligned64 (_end v) ->
  wf (first :: body ++ [lst]) ->
  exists mid,
    evacuate v (first :: body ++ [lst]) = Some (first :: mid ++ [lst])
    /\ Forall (fun y => cuts v y = O /\ contains v y = false) mid
    /\ forall a, covered mid a <-> covered body a /\ ~ covers v a.
Proof.
  intros Hs He Hwf. unfold evacuate. rewrite begin_cons.
  pose proof Hwf as [Hsorted _].
  pose proof (sorted_keys [] first _ Hsorted) as [Kb Ka].
  pose proof (next_key_zip [] first _ Kb Ka) as Hn. simpl app in Hn.
  rewrite Hn.
  apply (evacuate_loop_cover v Hs He _ [first] body lst Hwf); [discriminate|].
  pose proof (weight_bound v body). simpl length. rewrite length_app. simpl. lia.
Qed.

Lemma sentinel_covers a : ~ covers sentinel_lo a /\ ~ covers sentinel_hi a.
Proof. unfold covers. simpl. lia. Qed.

Lemma tracker_covered mid a :
  covered (sentinel_lo :: mid ++ [sentinel_hi]) a <-> covered mid a.
Proof.
  rewrite covered_cons, covered_app, covered_cons.
  pose proof (sentinel_covers a). pose proof (covered_nil a). tauto.
Qed.

(** X12. [evacuate] takes away the addresses of its target and no others:
    on a well-formed tracker, an address is covered by a VMA afterwards
    exactly when it was covered before and does not lie in
    [target.start, target.end). *)
Theorem evacuate_coverage v l :
  aligned64 (_start v) -> aligned64 (_end v) -> tracker_inv l ->
  exists l',
    evacuate v l = Some l'
    /\ forall a, covered l' a <-> covered l a /\ ~ covers v a.
Proof.
  intros Hs He [Hwf [body ->]].
  destruct (evacuate_cover v sentinel_lo body sentinel_hi Hs He Hwf)
    as (mid & E & _ & C).
  exists (sentinel_lo :: mid ++ [sentinel_hi]). split; [exact E|].
  intros a. rewrite !tracker_covered. apply C.
Qed.

Lemma evacuate_coverage_witness :
  aligned64 0x2000 /\ aligned64 0x5000 /\ tracker_inv evacuate_example
  /\ exists l',
      evacuate (mk_vma 0x2000 0x5000) evacuate_example = Some l'
      /\ forall a, covered l' a
                   <-> covered evacuate_example a
                       /\ ~ covers (mk_vma 0x2000 0x5000) a.
Proof.
  assert (A : aligned64 0x2000) by solve_wf.
  assert (B : aligned64 0x5000) by solve_wf.
  assert (T : tracker_inv evacuate_example).
  { split; [solve_wf|]. now exists [mk_vma 0x1000 0x3000; mk_vma 0x4000 0x7000]. }
  split; [exact A|]. split; [exact B|]. split; [exact T|].
  exact (evacuate_coverage (mk_vma 0x2000 0x5000) evacuate_example A B T).
Defined.

(** Nodes that no bound of [v] cuts and that [v] does not contain are
    passed over. *)
Lemma evacuate_loop_noop v :
  aligned64 (_start v) -> aligned64 (_end v) ->
  forall body fuel pre lst,
    wf (pre ++ body ++ [lst]) -> pre <> [] ->
    (length body < fuel)%nat ->
    Forall (fun y => cuts v y = O /\ contains v y = false) body ->
    evacuate_loop fuel v (begin (body ++ [lst])) (pre ++ body ++ [lst])
    = Some (pre ++ body ++ [lst]).
Proof.
  intros Hs He. induction body as [|x body IH];
    intros fuel pre lst Hwf Hne Hf Hall;
    (destruct fuel as [|fuel]; [simpl in Hf; lia|]).
  - simpl app. cbn [evacuate_loop]. rewrite prev_end_snoc. simpl.
    now rewrite Z.eqb_refl.
  - inversion Hall as [|? ? [Hc Hn] Hrest]; subst.
    destruct (evacuate_loop_step v fuel pre x body lst Hs He Hwf Hne)
      as (Hwf2 & _ & ->).
    assert (I1 : inside x (_end v) = false)
      by (unfold cuts in Hc; destruct (inside x (_end v)); [lia|reflexivity]).
    assert (I2 : inside x (_start v) = false)
      by (unfold cuts in Hc; destruct (inside x (_start v)),
            (inside x (_end v)); try lia; reflexivity).
    assert (T1 : trunc x (_end v) = x) by (unfold trunc; now rewrite I1).
    assert (R1 : remainder x (_end v) = [])
      by (unfold remainder; now rewrite I1).
    rewrite T1 in *.
    assert (T2 : trunc x (_start v) = x) by (unfold trunc; now rewrite I2).
    assert (R2 : remainder x (_start v) = [])
      by (unfold remainder; now rewrite I2).
    rewrite T2, R1, R2 in *. simpl app in *. rewrite Hn.
    rewrite (IH fuel (pre ++ [x]) lst); trivial.
    + now rewrite <- app_assoc.
    + intros Hnil. now apply app_eq_nil in Hnil.
    + simpl in Hf. lia.
Qed.

(** X13. [evacuate] is idempotent: what one call leaves, a second call with
    the same target leaves as it is. *)
Theorem evacuate_idempotent v l l' :
  aligned64 (_start v) -> aligned64 (_end v) -> tracker_inv l ->
  evacuate v l = Some l' -> evacuate v l' = Some l'.
Proof.
  intros Hs He [Hwf [body ->]] E.
  destruct (evacuate_cover v sentinel_lo body sentinel_hi Hs He Hwf)
    as (mid & E1 & F & _).
  destruct (evacuate_ok v sentinel_lo body sentinel_hi Hs He Hwf)
    as (mid' & E2 & Hwf' & _).
  rewrite E in E1, E2. apply Some_eq in E1, E2. subst l'.
  injection E2 as E2. apply app_inv_tail in E2. subst mid'.
  unfold evacuate. rewrite begin_cons.
  pose proof Hwf' as [Hsorted _].
  pose proof (sorted_keys [] sentinel_lo _ Hsorted) as [Kb Ka].
  pose proof (next_key_zip [] sentinel_lo _ Kb Ka) as Hn. simpl app in Hn.
  rewrite Hn.
  apply (evacuate_loop_noop v Hs He mid _ [sentinel_lo] sentinel_hi);
    trivial; [discriminate|].
  simpl length. rewrite length_app. simpl. lia.
Qed.

Lemma evacuate_idempotent_witness :
  aligned64 0x2000 /\ aligned64 0x5000 /\ tracker_inv evacuate_example
  /\ match evacuate (mk_vma 0x2000 0x5000) evacuate_example with
     | Some l' => evacuate (mk_vma 0x2000 0x5000) l' = Some l'
     | None => False
     end.
Proof.
  assert (A : aligned64 0x2000) by solve_wf.
  assert (B : aligned64 0x5000) by solve_wf.
  assert (T : tracker_inv evacuate_example).
  { split; [solve_wf|]. now exists [mk_vma 0x1000 0x3000; mk_vma 0x4000 0x7000]. }
  split; [exact A|]. split; [exact B|]. split; [exact T|].
  destruct (is_some_run (evacuate (mk_vma 0x2000 0x5000) evacuate_example))
    as [l' E]; [reflexivity|].
  rewrite E.
  exact (evacuate_idempotent (mk_vma 0x2000 0x5000) evacuate_example l'
           A B T E).
Defined.

(** X14. What [unmap] does take away: called with [addr] and [size] it
    returns on every well-formed tracker, and afterwards an address is
    covered exactly when it was covered before and is not between [addr]
    rounded down and [size] rounded up. *)
Theorem unmap_coverage addr size l :
  tracker_inv l -> 0 <= addr < 2 ^ 64 ->
  exists l',
    unmap addr size l = Some l' /\ tracker_inv l'
    /\ forall a, covered l' a
                 <-> covered l a /\ ~ (align_down addr <= a < align_up size).
Proof.
  intros Hinv Ha.
  destruct (unmap_inv addr size l Hinv Ha) as (l' & E & Hinv').
  exists l'. split; [exact E|]. split; [exact Hinv'|].
  unfold unmap in E. destruct Hinv as [Hwf [body ->]].
  destruct (evacuate_cover (vma_new addr size) sentinel_lo body sentinel_hi)
    as (mid & E' & _ & C); trivial.
  - now apply align_down_aligned.
  - apply align_up_aligned.
  - rewrite E in E'. apply Some_eq in E'. subst l'.
    intros a. rewrite !tracker_covered. apply C.
Qed.

Lemma unmap_coverage_witness :
  tracker_inv evacuate_example /\ 0 <= 0x2000 < 2 ^ 64
  /\ exists l',
      unmap 0x2000 0x5000 evacuate_example = Some l' /\ tracker_inv l'
      /\ forall a, covered l' a
                   <-> covered evacuate_example a
                       /\ ~ (align_down 0x2000 <= a < align_up 0x5000).
Proof.
  assert (T : tracker_inv evacuate_example).
  { split; [solve_wf|]. now exists [mk_vma 0x1000 0x3000; mk_vma 0x4000 0x7000]. }
  assert (A : 0 <= 0x2000 < 2 ^ 64) by lia.
  split; [exact T|]. split; [exact A|].
  exact (unmap_coverage 0x2000 0x5000 evacuate_example T A).
Defined.

(** ** How many pages populate_page takes *)

Lemma level_step_pages ptep level st st1 :
  (if negb (pte_present (mem st ptep))
   then allocate_intermediate_level ptep st
   else if pte_large (mem st ptep)
        then split_large_page ptep level st else Some st) = Some st1 ->
  exists used,
    free_pages st = used ++ free_pages st1 /\ (length used <= 1)%nat.
Proof.
  assert (A : forall s s1, allocate_intermediate_level ptep s = Some s1 ->
                           exists q, free_pages s = q :: free_pages s1).
  { intros s s1 E. rewrite allocate_intermediate_level_eq in E.
    destruct (free_pages s) as [|q rest]; [discriminate|].
    apply Some_eq in E. subst s1. now exists q. }
  destruct (negb (pte_present (mem st ptep))).
  - intros E. destruct (A _ _ E) as [q Hq]. exists [q]. now split.
  - destruct (pte_large (mem st ptep)).
    + unfold split_large_page.
      destruct (allocate_intermediate_level ptep st) as [s|] eqn:E;
        [|discriminate].
      intros E1. apply Some_eq in E1. subst st1.
      destruct (A _ _ E) as [q Hq]. exists [q].
      split; [exact Hq|simpl; lia].
    + intros E. apply Some_eq in E. subst st1.
      exists []. split; [reflexivity|simpl; lia].
Qed.

Lemma level_step_returns ptep level st :
  free_pages st <> [] ->
  (if negb (pte_present (mem st ptep))
   then allocate_intermediate_level ptep st
   else if pte_large (mem st ptep)
        then split_large_page ptep level st else Some st) <> None.
Proof.
  intros Hf.
  assert (A : allocate_intermediate_level ptep st <> None).
  { rewrite allocate_intermediate_level_eq.
    destruct (free_pages st); [contradiction|discriminate]. }
  destruct (negb (pte_present (mem st ptep))); [exact A|].
  destruct (pte_large (mem st ptep)); [|discriminate].
  unfold split_large_page.
  destruct (allocate_intermediate_level ptep st); [discriminate|contradiction].
Qed.

Lemma populate_page_loop_pages addr :
  forall level ptep st,
    (forall ptep' st',
        populate_page_loop level addr ptep st = Some (ptep', st') ->
        exists used,
          free_pages st = used ++ free_pages st'
          /\ (length used <= level)%nat)
    /\ ((level <= length (free_pages st))%nat ->
        populate_page_loop level addr ptep st <> None).
Proof.
  induction level as [|level IH]; intros ptep st; cbn [populate_page_loop].
  - split; [|discriminate]. intros ptep' st' E. apply Some_eq in E.
    injection E as _ <-. exists []. split; [reflexivity|simpl; lia].
  - split.
    + intros ptep' st'.
      destruct (if negb (pte_present (mem st ptep)) then _ else _)
        as [s1|] eqn:E1; [|discriminate].
      intros E. destruct (level_step_pages _ _ _ _ E1) as (u1 & H1 & L1).
      destruct (proj1 (IH _ s1) _ _ E) as (u2 & H2 & L2).
      exists (u1 ++ u2). rewrite <- app_assoc, <- H2, H1.
      split; [reflexivity|]. rewrite length_app. lia.
    + intros Hlen.
      destruct (if negb (pte_present (mem st ptep)) then _ else _)
        as [s1|] eqn:E1.
      * destruct (level_step_pages _ _ _ _ E1) as (u1 & H1 & L1).
        apply (proj2 (IH _ s1)). rewrite H1, length_app in Hlen. lia.
      * exfalso. revert E1. apply level_step_returns.
        destruct (free_pages st); [simpl in Hlen; lia|discriminate].
Qed.

(** X15. [populate_page] takes between one and four pages from the
    allocator, in the order the allocator gives them; it returns whenever
    four pages are left, and aborts when none is. *)
Theorem populate_page_pages addr st :
  (forall st',
      populate_page addr st = Some st' ->
      exists used,
        free_pages st = used ++ free_pages st'
        /\ (1 <= length used <= 4)%nat)
  /\ ((4 <= length (free_pages st))%nat -> populate_page addr st <> None)
  /\ (free_pages st = [] -> populate_page addr st = None).
Proof.
  unfold populate_page, phys_cast. change (nlevels - 1)%nat with 3%nat.
  set (ptep := pte_phys (cr3 st) + 8 * pt_index addr 3).
  destruct (populate_page_loop_pages addr 3 ptep st) as [P1 P2].
  split; [|split].
  - intros st'.
    destruct (populate_page_loop _ _ _ _) as [[pt s1]|] eqn:E; [|discriminate].
    destruct (P1 _ _ eq_refl) as (u & Hu & Lu).
    unfold alloc_page, memory_alloc_page.
    destruct (free_pages s1) as [|q rest] eqn:Hf; [discriminate|].
    intros E1. apply Some_eq in E1. subst st'.
    exists (u ++ [q]). cbn [free_pages set_mem set_free_pages].
    rewrite <- app_assoc. split; [exact Hu|].
    rewrite length_app. cbn [length]. lia.
  - intros Hlen.
    destruct (populate_page_loop _ _ _ _) as [[pt s1]|] eqn:E.
    + destruct (P1 _ _ eq_refl) as (u & Hu & Lu).
      unfold alloc_page, memory_alloc_page.
      destruct (free_pages s1) as [|q rest] eqn:Hf; [|discriminate].
      rewrite Hu, length_app in Hlen. cbn [length] in Hlen. lia.
    + exfalso. apply P2; [lia|reflexivity].
  - intros Hnil.
    destruct (populate_page_loop _ _ _ _) as [[pt s1]|] eqn:E; [|reflexivity].
    destruct (P1 _ _ eq_refl) as (u & Hu & _). rewrite Hnil in Hu.
    symmetry in Hu. apply app_eq_nil in Hu. destruct Hu as [_ Hu].
    unfold alloc_page, memory_alloc_page. now rewrite Hu.
Qed.

Lemma populate_page_pages_witness :
  (4 <= length (free_pages (boot_state (pages_from 0x2000 8))))%nat
  /\ populate_page 0x400000 (boot_state (pages_from 0x2000 8)) <> None.
Proof.
  assert (L : (4 <= length (free_pages (boot_state (pages_from 0x2000 8))))%nat)
    by (simpl; lia).
  split; [exact L|].
  exact (proj1 (proj2 (populate_page_pages 0x400000 _)) L).
Defined.

(** ** populate_page and populate map what they are asked to *)

Lemma level_step_ok tbl st p i l st1 :
  tables_ok tbl st -> tbl p = Some (S l) -> 0 <= i < 512 ->
  (if negb (pte_present (mem st (p + 8 * i)))
   then allocate_intermediate_level (p + 8 * i) st
   else if pte_large (mem st (p + 8 * i))
        then split_large_page (p + 8 * i) (S l) st else Some st) = Some st1 ->
  exists tbl1,
    tables_ok tbl1 st1 /\ extends tbl (mem st) tbl1 (mem st1)
    /\ pte_present (mem st1 (p + 8 * i)) = true
    /\ pte_large (mem st1 (p + 8 * i)) = false.
Proof.
  intros Hok Hp Hi.
  destruct (pte_present (mem st (p + 8 * i))) eqn:Hpr; cbn [negb].
  - destruct (pte_large (mem st (p + 8 * i))) eqn:Hlg.
    + intros E. exact (split_large_page_ok tbl st st1 p i l Hok Hp Hi Hlg E).
    + intros E. apply Some_eq in E. subst st1. exists tbl.
      split; [exact Hok|]. split; [apply extends_refl|]. now split.
  - intros E.
    exact (allocate_intermediate_level_ok tbl st st1 p i l Hok Hp Hi Hpr E).
Qed.

(** A step of the walk writes the entry it stands on and the page it takes
    from the allocator, so the bottom-level tables keep their entries. *)
Lemma level_step_keeps tbl st p i l st1 :
  tables_ok tbl st -> tbl p = Some (S l) -> 0 <= i < 512 ->
  (if negb (pte_present (mem st (p + 8 * i)))
   then allocate_intermediate_level (p + 8 * i) st
   else if pte_large (mem st (p + 8 * i))
        then split_large_page (p + 8 * i) (S l) st else Some st) = Some st1 ->
  forall p' i',
    tbl p' = Some 0%nat -> 0 <= i' < 512 ->
    mem st1 (p' + 8 * i') = mem st (p' + 8 * i').
Proof.
  intros Hok Hp Hi E p' i' Hp' Hi'.
  assert (Hslot : p' + 8 * i' <> p + 8 * i).
  { intros Eq. apply slot_inj in Eq; eauto using ok_aligned.
    destruct Eq as [-> _]. congruence. }
  assert (Halloc : forall s,
             allocate_intermediate_level (p + 8 * i) st = Some s ->
             exists q, phys_page q /\ ~ in_page q (p' + 8 * i')
                       /\ ~ in_page q (p + 8 * i)
                       /\ mem s (p + 8 * i) = Z.lor q 0x63
                       /\ mem s (p' + 8 * i') = mem st (p' + 8 * i')).
  { intros s Es.
    destruct (free_pages st) as [|q rest] eqn:Hf;
      [rewrite allocate_intermediate_level_eq, Hf in Es; discriminate|].
    destruct (allocate_intermediate_level_mem (p + 8 * i) st q rest Hf)
      as (s' & E' & _ & M & _).
    rewrite Es in E'. apply Some_eq in E'. subst s'.
    destruct (ok_free _ _ Hok q) as [Hq Hqp]; [rewrite Hf; now left|].
    pose proof Hqp as [_ Hqal].
    assert (O1 : ~ in_page q (p' + 8 * i')).
    { apply slot_not_in_page; eauto using ok_aligned. congruence. }
    assert (O2 : ~ in_page q (p + 8 * i)).
    { apply slot_not_in_page; eauto using ok_aligned. congruence. }
    exists q. split; [exact Hqp|]. split; [exact O1|]. split; [exact O2|].
    rewrite M. split; [apply upd_same|].
    rewrite upd_other by exact Hslot. now apply store_table_page. }
  destruct (negb (pte_present (mem st (p + 8 * i)))).
  - destruct (Halloc _ E) as (q & _ & _ & _ & _ & H). exact H.
  - destruct (pte_large (mem st (p + 8 * i))).
    + unfold split_large_page in E.
      destruct (allocate_intermediate_level (p + 8 * i) st) as [s|] eqn:Es;
        [|discriminate].
      destruct (Halloc s eq_refl) as (q & Hqp & O1 & O2 & M0 & H).
      rewrite M0, make_pte_phys in E by exact Hqp. unfold phys_cast in E.
      match type of E with
      | Some (set_mem _ (store_table _ ?g _ _ _)) = _ => set (fill := g) in E
      end.
      assert (Est : st1 = set_mem s (store_table q fill 0 512 (mem s)))
        by congruence.
      rewrite Est.
      change (mem (set_mem s (store_table q fill 0 512 (mem s))))
        with (store_table q fill 0 512 (mem s)).
      rewrite store_table_page by exact O1. exact H.
    + apply Some_eq in E. now subst st1.
Qed.

Lemma populate_page_loop_keeps addr :
  forall level tbl st p i ptep' st',
    tables_ok tbl st -> tbl p = Some level -> 0 <= i < 512 ->
    populate_page_loop level addr (p + 8 * i) st = Some (ptep', st') ->
    forall p' i',
      tbl p' = Some 0%nat -> 0 <= i' < 512 ->
      mem st' (p' + 8 * i') = mem st (p' + 8 * i').
Proof.
  induction level as [|level IH]; intros tbl st p i ptep' st' Hok Hp Hi E.
  - apply Some_eq in E. injection E as _ <-. reflexivity.
  - cbn [populate_page_loop] in E.
    destruct (if negb (pte_present (mem st (p + 8 * i))) then _ else _)
      as [s1|] eqn:E1; [|discriminate].
    destruct (level_step_ok tbl st p i level s1 Hok Hp Hi E1)
      as (tbl1 & Hok1 & Hext1 & Hpr1 & Hlg1).
    pose proof (level_step_keeps tbl st p i level s1 Hok Hp Hi E1) as K1.
    unfold phys_cast in E.
    pose proof (proj1 Hext1 _ _ Hp) as Hp1.
    pose proof (ok_entries _ _ Hok1 p level i Hp1 Hi Hpr1 Hlg1) as Hnext.
    intros p' i' Hp' Hi'.
    rewrite (IH tbl1 s1 _ _ ptep' st' Hok1 Hnext (pt_index_range addr level) E
               p' i' (proj1 Hext1 _ _ Hp') Hi').
    now apply K1.
Qed.

Lemma populate_page_full tbl st addr st' :
  tables_ok tbl st -> populate_page addr st = Some st' ->
  exists tbl',
    tables_ok tbl' st' /\ extends tbl (mem st) tbl' (mem st')
    /\ cr3 st' = cr3 st
    /\ mapped st' addr = true
    /\ (forall a, mapped st a = true -> mapped st' a = true)
    /\ exists q,
        In q (free_pages st) /\ ~ In q (free_pages st')
        /\ pte_phys (mem st' (leaf_ptep st' addr)) = q.
Proof.
  intros Hok E.
  unfold populate_page, phys_cast in E.
  destruct (populate_page_loop _ _ _ _) as [[ptep s1]|] eqn:E1;
    [|discriminate].
  pose proof (populate_page_loop_frame _ _ _ _ _ _ E1) as (_ & Hcr1 & _).
  pose proof (populate_page_loop_keeps addr _ tbl st _ _ ptep s1 Hok
                (ok_root _ _ Hok) (pt_index_range addr _) E1) as Hkeep.
  destruct (proj1 (populate_page_loop_pages addr _ _ st) _ _ E1)
    as (u1 & Hu1 & _).
  destruct (populate_page_loop_ok addr _ tbl st _ _ ptep s1 Hok
              (ok_root _ _ Hok) (pt_index_range addr _) E1)
    as (tbl1 & Hok1 & Hext1 & Hrdy & Hw & p0 & i0 & Hptep & Hp0 & Hi0).
  unfold alloc_page, memory_alloc_page in E.
  destruct (free_pages s1) as [|q rest] eqn:Hf; [discriminate|].
  apply Some_eq in E. unfold virt_to_phys, set_mem, set_free_pages in E.
  cbn [mem vma_list free_pages cr3 contents] in E.
  destruct (ok_free _ _ Hok1 q) as [_ Hqp]; [rewrite Hf; now left|].
  pose proof Hqp as [_ Hqal].
  destruct (leaf_write_ok tbl1 s1 p0 i0 (make_pte q) q rest Hok1 Hp0 Hi0 Hf)
    as [Hok2 Hext2].
  rewrite <- Hptep in Hok2, Hext2. rewrite E in Hok2, Hext2.
  assert (Hmem : mem st' = upd (mem s1) ptep (make_pte q))
    by (rewrite <- E; reflexivity).
  assert (Hcr : cr3 st' = cr3 st) by (rewrite <- E; exact Hcr1).
  assert (Hfree : free_pages st' = rest) by (rewrite <- E; reflexivity).
  assert (R1 : ready s1 addr = true)
    by (unfold ready, root_ptep; rewrite Hcr1; exact Hrdy).
  assert (Hcr' : cr3 st' = cr3 s1) by congruence.
  destruct (ready_preserved tbl1 s1 tbl1 st' addr Hok1 Hext2 Hcr' R1)
    as [R2 L2].
  assert (Hleaf : leaf_ptep st' addr = ptep).
  { rewrite L2, Hw. unfold leaf_ptep, root_ptep. now rewrite Hcr1. }
  exists tbl1. split; [exact Hok2|].
  split; [exact (extends_trans _ _ _ _ _ _ Hext1 Hext2)|].
  split; [exact Hcr|]. split; [|split].
  - unfold mapped. rewrite R2, Hleaf, Hmem, upd_same.
    unfold make_pte. now rewrite make_pte_present.
  - intros a Ha. unfold mapped in *. apply andb_true_iff in Ha.
    destruct Ha as [Ra Pa].
    destruct (ready_preserved tbl st tbl1 st' a Hok
                (extends_trans _ _ _ _ _ _ Hext1 Hext2) Hcr Ra) as [Ra' La'].
    rewrite Ra', La'. simpl.
    destruct (walk_leaf_table tbl st a Hok _ _ _ (ok_root _ _ Hok)
                (pt_index_range a (nlevels - 1)) Ra)
      as (pa & ia & Hwa & Hpa & Hia).
    assert (La : leaf_ptep st a = pa + 8 * ia) by exact Hwa.
    rewrite La in *. rewrite Hmem. unfold upd.
    destruct (Z.eqb_spec (pa + 8 * ia) ptep).
    + unfold make_pte. now apply make_pte_present.
    + rewrite (Hkeep pa ia Hpa Hia). exact Pa.
  - exists q. split; [|split].
    + rewrite Hu1. apply in_or_app. right. now left.
    + rewrite Hfree. pose proof (ok_nodup _ _ Hok1) as Hnd.
      rewrite Hf in Hnd. now inversion Hnd.
    + rewrite Hleaf, Hmem, upd_same. unfold make_pte.
      now apply make_pte_phys.
Qed.

(** X16. [populate_page] maps its address: on well-formed page tables,
    when it returns the walk for the address reaches a present leaf entry,
    the page behind it is one the allocator held before and no longer
    holds, and every address that was mapped is still mapped. *)
Theorem populate_page_maps addr st st' :
  page_tables_ok st -> populate_page addr st = Some st' ->
  page_tables_ok st'
  /\ mapped st' addr = true
  /\ (exists q,
         In q (free_pages st) /\ ~ In q (free_pages st')
         /\ pte_phys (mem st' (leaf_ptep st' addr)) = q)
  /\ forall a, mapped st a = true -> mapped st' a = true.
Proof.
  intros [tbl Hok] E.
  destruct (populate_page_full tbl st addr st' Hok E)
    as (tbl' & Hok' & _ & _ & Hm & Hk & Hq).
  split; [now exists tbl'|]. split; [exact Hm|]. split; [exact Hq|exact Hk].
Qed.

Lemma populate_page_maps_witness :
  page_tables_ok (boot_state (pages_from 0x2000 8))
  /\ match populate_page 0x400000 (boot_state (pages_from 0x2000 8)) with
     | Some st' => mapped st' 0x400000 = true
     | None => False
     end.
Proof.
  split; [exact boot_state_ok|].
  destruct (is_some_run (populate_page 0x400000
                           (boot_state (pages_from 0x2000 8))))
    as [st' E]; [vm_compute; reflexivity|].
  rewrite E.
  exact (proj1 (proj2 (populate_page_maps _ _ st' boot_state_ok E))).
Defined.

Lemma populate_loop_maps limit :
  forall fuel tbl addr st st',
    tables_ok tbl st ->
    populate_loop fuel addr limit st = Some st' ->
    exists tbl',
      tables_ok tbl' st'
      /\ (forall a, visited fuel addr limit a -> mapped st' a = true)
      /\ (forall a, mapped st a = true -> mapped st' a = true).
Proof.
  induction fuel as [|fuel IH]; intros tbl addr st st' Hok E;
    cbn [populate_loop visited] in *; destruct (addr <? limit);
    try discriminate;
    try (apply Some_eq in E; subst st'; exists tbl; split; [exact Hok|];
         split; [intros a []|auto]).
  destruct (populate_page addr st) as [s1|] eqn:E1; [|discriminate].
  destruct (populate_page_full tbl st addr s1 Hok E1)
    as (tbl1 & Hok1 & _ & _ & Hm1 & Hk1 & _).
  destruct (IH tbl1 _ s1 st' Hok1 E) as (tbl' & Hok' & Hv & Hk).
  exists tbl'. split; [exact Hok'|]. split.
  - intros a [->|Ha]; [now apply Hk|now apply Hv].
  - intros a Ha. apply Hk. now apply Hk1.
Qed.

Lemma visited_pages limit :
  limit <= 2 ^ 64 ->
  forall fuel addr k,
    0 <= k -> (Z.to_nat k < fuel)%nat -> 0 <= addr ->
    addr + 4096 * k < limit ->
    visited fuel addr limit (addr + 4096 * k).
Proof.
  intros Hlim. induction fuel as [|fuel IH]; intros addr k Hk Hf Ha Hlt;
    [lia|].
  cbn [visited]. destruct (Z.ltb_spec addr limit); [|lia].
  destruct (Z.eq_dec k 0) as [->|Hne]; [left; lia|]. right.
  rewrite wrap64_small by lia.
  replace (addr + 4096 * k) with (addr + 4096 + 4096 * (k - 1)) by lia.
  apply IH; lia.
Qed.

Lemma populate_loop_maps_vma v st st' :
  page_tables_ok st -> good_vma v -> populate v st = Some st' ->
  forall k, 0 <= k -> _start v + 4096 * k < _end v ->
            mapped st' (_start v + 4096 * k) = true.
Proof.
  intros [tbl Hok] ((Rs & _) & (Re & _) & Hle) E. unfold populate in E.
  unfold vma_addr, vma_size in E.
  rewrite (wrap64_small (_end v - _start v)) in E by lia.
  replace (_start v + (_end v - _start v)) with (_end v) in E by lia.
  rewrite (wrap64_small (_end v)) in E by lia.
  destruct (populate_loop_maps _ _ tbl _ st st' Hok E) as (tbl' & _ & Hv & _).
  intros k Hk0 Hlt. apply Hv. apply visited_pages; try lia.
  assert (k <= (_end v - _start v) / 4096)
    by (apply Z.div_le_lower_bound; lia).
  lia.
Qed.

(** X17. [populate] maps every page of the VMA: on well-formed page tables
    and for a VMA with aligned bounds, when it returns every page address
    from [start] up to [end] is mapped, and so is every address that was
    mapped before. *)
Theorem populate_maps v st st' :
  page_tables_ok st -> good_vma v -> populate v st = Some st' ->
  page_tables_ok st'
  /\ (forall k, 0 <= k -> _start v + 4096 * k < _end v ->
                mapped st' (_start v + 4096 * k) = true)
  /\ forall a, mapped st a = true -> mapped st' a = true.
Proof.
  intros [tbl Hok] ((Rs & _) & (Re & _) & Hle) E. unfold populate in E.
  unfold vma_addr, vma_size in E.
  rewrite (wrap64_small (_end v - _start v)) in E by lia.
  replace (_start v + (_end v - _start v)) with (_end v) in E by lia.
  rewrite (wrap64_small (_end v)) in E by lia.
  destruct (populate_loop_maps _ _ tbl _ st st' Hok E) as (tbl' & Hok' & Hv & Hk).
  split; [now exists tbl'|]. split; [|exact Hk].
  intros k Hk0 Hlt. apply Hv. apply visited_pages; try lia.
  assert (k <= (_end v - _start v) / 4096)
    by (apply Z.div_le_lower_bound; lia).
  lia.
Qed.

Lemma populate_maps_witness :
  page_tables_ok (boot_state (pages_from 0x2000 8))
  /\ good_vma (mk_vma 0x400000 0x402000)
  /\ match populate (mk_vma 0x400000 0x402000)
             (boot_state (pages_from 0x2000 8)) with
     | Some st' =>
         mapped st' 0x400000 = true /\ mapped st' (0x400000 + 4096 * 1) = true
     | None => False
     end.
Proof.
  assert (G : good_vma (mk_vma 0x400000 0x402000)) by solve_wf.
  split; [exact boot_state_ok|]. split; [exact G|].
  destruct (is_some_run (populate (mk_vma 0x400000 0x402000)
                           (boot_state (pages_from 0x2000 8))))
    as [st' E]; [vm_compute; reflexivity|].
  rewrite E.
  destruct (populate_maps _ _ st' boot_state_ok G E) as (_ & H & _).
  split.
  - exact (H 0 ltac:(lia) ltac:(simpl; lia)).
  - exact (H 1 ltac:(lia) ltac:(simpl; lia)).
Defined.

(** ** map_anon_dontzero, put together *)

Lemma insert_covered n l a :
  deref l (_start n) = None ->
  In n (insert n l)
  /\ (covered (insert n l) a <-> covers n a \/ covered l a).
Proof.
  intros H. apply deref_none_keys in H.
  induction H as [|x l Hx Hl IH]; simpl.
  - split; [now left|]. now rewrite covered_cons.
  - destruct (Z.ltb_spec (_start n) (_start x)).
    + split; [now left|]. now rewrite covered_cons.
    + destruct (Z.ltb_spec (_start x) (_start n)); [|lia].
      destruct IH as [I1 I2]. split; [now right|].
      rewrite !covered_cons, I2. tauto.
Qed.

Lemma page_tables_ok_set_vma_list st l :
  page_tables_ok st -> page_tables_ok (set_vma_list st l).
Proof.
  intros [tbl H]. exists tbl. constructor.
  - exact (ok_root _ _ H).
  - exact (ok_aligned _ _ H).
  - exact (ok_entries _ _ H).
  - exact (ok_free _ _ H).
  - exact (ok_nodup _ _ H).
Qed.

(** X18. [map_anon_dontzero] on a range of the allocatable area above page
    0: when it returns, the VMA returned is the one built from the range
    and it is tracked; an address is covered afterwards exactly when it
    lies in that VMA or was covered before; and the page of every address
    of the range is mapped. *)
Theorem map_anon_dontzero_maps s e perm st v st' :
  tracker_inv (vma_list st) -> page_tables_ok st ->
  page_size <= s -> s < e -> e <= top ->
  map_anon_dontzero s e perm st = Some (v, st') ->
  v = vma_new s e /\ In v (vma_list st') /\ tracker_inv (vma_list st')
  /\ (forall a, covered (vma_list st') a
                <-> covers v a \/ covered (vma_list st) a)
  /\ forall a, s <= a < e ->
               covers v a /\ mapped st' (align_down a) = true.
Proof.
  intros Hinv Hpt Hs Hse He Hm. unfold page_size in Hs.
  assert (Hse' : 0 <= s <= e) by lia.
  pose proof (map_anon_dontzero_tracker s e perm st v st' Hinv
                Hse' He Hm) as Hinv'.
  unfold map_anon_dontzero in Hm.
  destruct (vma_new_good s e ltac:(lia) He) as (G & Gt & Gs & Ge).
  pose proof G as (As & Ae & Gle).
  set (n := vma_new s e) in *.
  assert (Hn0 : 4096 <= _start n).
  { apply align_down_ge; [split; [lia|reflexivity]|unfold top in *; lia|lia]. }
  destruct Hinv as [Hwf [body Hbody]]. rewrite Hbody in Hm.
  destruct (evacuate_ok n sentinel_lo body sentinel_hi As Ae)
    as (mid & E & W & C); [now rewrite <- Hbody|].
  destruct (evacuate_cover n sentinel_lo body sentinel_hi As Ae)
    as (mid' & E' & F & Cov); [now rewrite <- Hbody|].
  rewrite E in E'. apply Some_eq in E'. injection E' as E'.
  apply app_inv_tail in E'. subst mid'. rewrite E in Hm.
  destruct (populate n _) as [s1|] eqn:Ep; [|discriminate].
  apply Some_eq in Hm. injection Hm as <- <-.
  pose proof (populate_frame _ _ _ Ep) as (Hvl & _).
  cbn [vma_list set_vma_list] in Hvl.
  assert (Hkey : deref (sentinel_lo :: mid ++ [sentinel_hi]) (_start n) = None).
  { unfold deref. apply find_all_false. intros y Hy.
    apply Z.eqb_neq. intros Hk.
    destruct Hy as [<-|Hy];
      [change (_start sentinel_lo) with 0 in Hk; lia|].
    apply in_app_or in Hy. destruct Hy as [Hy|[<-|[]]].
    - rewrite Forall_forall in C, F.
      destruct (F y Hy) as [_ Hc]. specialize (C y Hy).
      pose proof (wf_in_good _ y W (or_intror (in_or_app _ _ _ (or_introl Hy))))
        as (_ & _ & Hyle).
      unfold contains in Hc. apply andb_false_iff in Hc.
      rewrite !Z.leb_gt in Hc. unfold clear in C. lia.
    - change (_start sentinel_hi) with 0x800000000000 in Hk.
      unfold top in *. lia. }
  pose proof (populate_loop_maps_vma n _ s1
                (page_tables_ok_set_vma_list _ _ Hpt) G Ep) as Hmap.
  split; [reflexivity|]. rewrite Hvl.
  split; [exact (proj1 (insert_covered n _ 0 Hkey))|].
  split; [rewrite <- Hvl; exact Hinv'|]. split.
  - intros a. rewrite (proj2 (insert_covered n _ a Hkey)).
    rewrite Hbody, !tracker_covered, Cov.
    assert (D : covers n a \/ ~ covers n a) by (unfold covers; lia).
    tauto.
  - intros a Ha. split; [unfold covers; lia|].
    assert (Ra : 0 <= a < 2 ^ 64) by (unfold top in *; lia).
    pose proof (align_down_aligned a Ra) as [_ Ma].
    pose proof (align_down_le a Ra) as La.
    assert (Hlo : _start n <= align_down a)
      by (apply align_down_ge; trivial; lia).
    destruct As as [_ Ms]. unfold page_size in *.
    pose proof (Z.div_mod (align_down a) 4096 ltac:(lia)).
    pose proof (Z.div_mod (_start n) 4096 ltac:(lia)).
    replace (align_down a)
      with (_start n + 4096 * (align_down a / 4096 - _start n / 4096))
      by lia.
    apply Hmap; lia.
Qed.

Lemma map_anon_dontzero_maps_witness :
  tracker_inv (vma_list (boot_state (pages_from 0x2000 8)))
  /\ page_tables_ok (boot_state (pages_from 0x2000 8))
  /\ page_size <= 0x400000 /\ 0x400000 < 0x401000 /\ 0x401000 <= top
  /\ match map_anon_dontzero 0x400000 0x401000 0
             (boot_state (pages_from 0x2000 8)) with
     | Some (v, st') =>
         In v (vma_list st') /\ mapped st' (align_down 0x400123) = true
     | None => False
     end.
Proof.
  pose proof wf_vma_list_init as T.
  assert (A : page_size <= 0x400000) by (unfold page_size; lia).
  assert (B : 0x400000 < 0x401000) by lia.
  assert (C : 0x401000 <= top) by (unfold top; lia).
  split; [exact T|]. split; [exact boot_state_ok|]. split; [exact A|].
  split; [exact B|]. split; [exact C|].
  destruct (is_some_run (map_anon_dontzero 0x400000 0x401000 0
                           (boot_state (pages_from 0x2000 8))))
    as [[v st'] E]; [vm_compute; reflexivity|].
  rewrite E.
  destruct (map_anon_dontzero_maps _ _ _ (boot_state (pages_from 0x2000 8))
              _ _ T boot_state_ok A B C E) as (_ & H1 & _ & _ & H2).
  split; [exact H1|]. exact (proj2 (H2 0x400123 ltac:(lia))).
Defined.

(** ** populate on an empty range *)

(** X19. A VMA whose end is not above its start has no page to populate:
    [populate] returns at once, takes nothing from the allocator and leaves
    memory as it was. *)
Theorem populate_empty v st :
  0 <= _end v <= _start v -> _start v < 2 ^ 64 ->
  populate v st = Some st.
Proof.
  intros H1 H2. unfold populate, vma_addr, vma_size.
  set (n := Z.to_nat _). clearbody n.
  assert (Hlim : wrap64 (_start v + wrap64 (_end v - _start v)) <= _start v).
  { destruct (Z.eq_dec (_end v) (_start v)) as [Heq|Hne].
    - rewrite Heq, Z.sub_diag. unfold wrap64 at 2. rewrite Z.mod_0_l by lia.
      rewrite Z.add_0_r, wrap64_small by lia. lia.
    - unfold wrap64 at 2.
      replace (_end v - _start v)
        with (2 ^ 64 + _end v - _start v + (-1) * 2 ^ 64) by lia.
      rewrite Z.mod_add by lia. rewrite Z.mod_small by lia.
      unfold wrap64.
      replace (_start v + (2 ^ 64 + _end v - _start v))
        with (_end v + 1 * 2 ^ 64) by lia.
      rewrite Z.mod_add by lia. rewrite Z.mod_small by lia. lia. }
  destruct n; cbn [populate_loop];
    destruct (Z.ltb_spec (_start v) (wrap64 (_start v + wrap64 (_end v - _start v))));
    try lia; reflexivity.
Qed.

Lemma populate_empty_witness :
  0 <= _end sentinel_hi <= _start sentinel_hi /\ _start sentinel_hi < 2 ^ 64
  /\ populate sentinel_hi (boot_state []) = Some (boot_state []).
Proof.
  assert (A : 0 <= _end sentinel_hi <= _start sentinel_hi) by (simpl; lia).
  assert (B : _start sentinel_hi < 2 ^ 64) by (simpl; lia).
  split; [exact A|]. split; [exact B|].
  exact (populate_empty sentinel_hi (boot_state []) A B).
Defined.

(** * The tracker along a run *)

Lemma mid_not_marker mid y :
  wf (sentinel_lo :: mid ++ [sentinel_hi]) -> In y mid ->
  y <> sentinel_lo /\ y <> sentinel_hi.
Proof.
  intros [Hs _] Hy. split.
  - destruct Hs as [Hb _]. rewrite Forall_forall in Hb.
    assert (Hin : In y (mid ++ [sentinel_hi])) by (apply in_or_app; now left).
    destruct (Hb y Hin) as [_ H]. intros ->. simpl in H. lia.
  - change (sentinel_lo :: mid ++ [sentinel_hi])
      with ((sentinel_lo :: mid) ++ [sentinel_hi]) in Hs.
    apply sorted_zip in Hs. destruct Hs as [Hs _].
    rewrite Forall_forall in Hs.
    destruct (Hs y (or_intror Hy)) as [_ H]. intros ->. lia.
Qed.

Lemma non_empty_mid mid :
  wf (sentinel_lo :: mid ++ [sentinel_hi]) ->
  non_empty_vmas (sentinel_lo :: mid ++ [sentinel_hi])
  <-> Forall non_empty mid.
Proof.
  intros Hwf. rewrite Forall_forall. split.
  - intros H y Hy. destruct (mid_not_marker mid y Hwf Hy) as [H1 H2].
    apply H; trivial. right. apply in_or_app. now left.
  - intros H y [<-|Hy] H1 H2; [congruence|].
    apply in_app_or in Hy. destruct Hy as [Hy|[<-|[]]]; [now apply H|].
    congruence.
Qed.

Lemma split_non_empty x edge :
  non_empty x ->
  non_empty (trunc x edge) /\ Forall non_empty (remainder x edge).
Proof.
  unfold non_empty, trunc, remainder. intros H.
  destruct (inside x edge) eqn:Hin.
  - apply inside_iff in Hin. simpl. split; [lia|].
    constructor; [simpl; lia|constructor].
  - split; [exact H|constructor].
Qed.

(** The loop of [evacuate] cuts non-empty nodes into non-empty pieces. *)
Lemma evacuate_loop_non_empty v :
  aligned64 (_start v) -> aligned64 (_end v) ->
  forall fuel pre body lst,
    wf (pre ++ body ++ [lst]) -> pre <> [] ->
    (weight v body < fuel)%nat ->
    Forall non_empty body ->
    exists mid,
      evacuate_loop fuel v (begin (body ++ [lst])) (pre ++ body ++ [lst])
      = Some (pre ++ mid ++ [lst])
      /\ Forall non_empty mid.
Proof.
  intros Hs He. induction fuel as [|fuel IH];
    intros pre body lst Hwf Hne Hw Hbody; [lia|].
  destruct body as [|x body].
  - exists []. simpl app. cbn [evacuate_loop].
    rewrite prev_end_snoc. simpl. rewrite Z.eqb_refl.
    split; [reflexivity|constructor].
  - destruct (evacuate_loop_step v fuel pre x body lst Hs He Hwf Hne)
      as (Hwf2 & Hwf3 & ->).
    pose proof (weight_split v x (_end v) (or_introl eq_refl)) as W1.
    pose proof (weight_split v (trunc x (_end v)) (_start v)
                  (or_intror eq_refl)) as W2.
    inversion Hbody as [|? ? Hx Hrest]; subst.
    destruct (split_non_empty x (_end v) Hx) as [Hx1 Hr1].
    destruct (split_non_empty (trunc x (_end v)) (_start v) Hx1)
      as [Hx2 Hr2].
    set (x2 := trunc (trunc x (_end v)) (_start v)) in *.
    set (B2 := remainder (trunc x (_end v)) (_start v)
               ++ remainder x (_end v) ++ body) in *.
    assert (HwB : (weight v B2 < fuel)%nat).
    { unfold B2. rewrite !weight_app. simpl in Hw. lia. }
    assert (HB : Forall non_empty B2).
    { unfold B2. rewrite !Forall_app. now repeat split. }
    destruct (contains v x2).
    + exact (IH pre B2 lst Hwf3 Hne HwB HB).
    + destruct (IH (pre ++ [x2]) B2 lst Hwf2) as (mid & E & F); trivial.
      { intros Hnil. now apply app_eq_nil in Hnil. }
      exists (x2 :: mid).
      replace (pre ++ (x2 :: mid) ++ [lst])
        with ((pre ++ [x2]) ++ mid ++ [lst]) by (now rewrite <- app_assoc).
      split; [exact E|]. now constructor.
Qed.

Lemma evacuate_non_empty v l l' :
  aligned64 (_start v) -> aligned64 (_end v) -> tracker_inv l ->
  non_empty_vmas l -> evacuate v l = Some l' ->
  tracker_inv l' /\ non_empty_vmas l'.
Proof.
  intros Hs He [Hwf [body ->]] Hne E.
  destruct (evacuate_ok v sentinel_lo body sentinel_hi Hs He Hwf)
    as (mid & E1 & Hwf' & _).
  rewrite E in E1. apply Some_eq in E1. subst l'.
  split; [split; [exact Hwf'|now exists mid]|].
  apply (non_empty_mid mid Hwf').
  apply (non_empty_mid body Hwf) in Hne.
  revert E. unfold evacuate. rewrite begin_cons.
  pose proof Hwf as [Hsorted _].
  pose proof (sorted_keys [] sentinel_lo _ Hsorted) as [Kb Ka].
  pose proof (next_key_zip [] sentinel_lo _ Kb Ka) as Hn. simpl app in Hn.
  rewrite Hn.
  match goal with
  | |- evacuate_loop ?f _ _ _ = _ -> _ =>
      destruct (evacuate_loop_non_empty v Hs He f
                  [sentinel_lo] body sentinel_hi Hwf) as (mid' & E2 & F);
        [discriminate| |exact Hne|]
  end.
  { pose proof (weight_bound v body). simpl length. rewrite length_app.
    simpl. lia. }
  simpl app in E2. rewrite E2. intros E. apply Some_eq in E.
  injection E as E. apply app_inv_tail in E. now subst mid'.
Qed.

Lemma insert_non_empty n l :
  non_empty n -> non_empty_vmas l -> non_empty_vmas (insert n l).
Proof.
  intros Hn Hl y Hy H1 H2. apply insert_In in Hy.
  destruct Hy as [->|Hy]; [exact Hn|now apply Hl].
Qed.

Lemma vma_new_non_empty s e :
  0 <= s -> s < e -> e <= top -> non_empty (vma_new s e).
Proof.
  intros Hs Hse He.
  destruct (vma_new_good s e ltac:(lia) He) as (_ & _ & H1 & H2).
  unfold non_empty. lia.
Qed.

Lemma map_anon_dontzero_non_empty s e perm st v st' :
  tracker_inv (vma_list st) -> non_empty_vmas (vma_list st) ->
  0 <= s -> s < e -> e <= top ->
  map_anon_dontzero s e perm st = Some (v, st') ->
  non_empty_vmas (vma_list st').
Proof.
  intros Hinv Hne Hs Hse He. unfold map_anon_dontzero.
  destruct (vma_new_good s e ltac:(lia) He) as ((Gs & Ge & _) & _).
  destruct (evacuate _ _) as [l1|] eqn:E1; [|discriminate].
  destruct (evacuate_non_empty _ _ l1 Gs Ge Hinv Hne E1) as [_ Hne1].
  destruct (populate _ _) as [s1|] eqn:E; [|discriminate].
  intros E2. apply Some_eq in E2. injection E2 as _ <-.
  apply populate_frame in E. destruct E as (-> & _).
  apply insert_non_empty; [now apply vma_new_non_empty|exact Hne1].
Qed.

Lemma map_anon_non_empty addr size perm st v st' :
  tracker_inv (vma_list st) -> non_empty_vmas (vma_list st) ->
  0 <= addr -> 0 < size -> addr + size <= top ->
  map_anon addr size perm st = Some (v, st') ->
  non_empty_vmas (vma_list st').
Proof.
  intros Hinv Hne Ha Hs Ht. unfold map_anon.
  rewrite wrap64_small by (unfold top in Ht; lia).
  destruct (map_anon_dontzero _ _ _ _) as [[ret s1]|] eqn:E; [|discriminate].
  destruct (memset _ _ _ _) as [s2|] eqn:E2; [|discriminate].
  intros E3. apply Some_eq in E3. injection E3 as _ <-.
  rewrite (proj1 (memset_tables _ _ _ _ _ E2)).
  eapply map_anon_dontzero_non_empty; [exact Hinv|exact Hne| | | |exact E];
    lia.
Qed.

Lemma reserve_non_empty hint size l v l' :
  tracker_inv l -> non_empty_vmas l ->
  in_area (Reserve hint size) -> 0 < size ->
  reserve hint size l = Some (v, l') -> non_empty_vmas l'.
Proof.
  intros Hinv Hne (Hh & Hsz & Hsum) Hpos. unfold reserve.
  set (start := if hint =? 0 then mmap_base else hint) in *.
  assert (Hst : 0 <= start)
    by (subst start; destruct (hint =? 0); unfold mmap_base; lia).
  destruct (find_hole l start size) as [h|] eqn:Hf; [|discriminate].
  intros E. apply Some_eq in E. injection E as _ <-.
  pose proof (tracker_inv_below_top l Hinv) as Hbelow.
  pose proof Hinv as [Hwf [mid El]]. subst l.
  cbn [find_hole] in Hf.
  destruct (find_hole_from_gap start size h Hsz Hsum Hst _ _ Hwf Hf)
    as (Hlo & _ & n & Hn & Hn').
  change (_end sentinel_lo) with 0 in Hlo.
  rewrite Forall_forall in Hbelow.
  destruct (Hbelow n (or_intror Hn)) as [Hntop _].
  assert (Ht : h + size <= top) by lia.
  rewrite wrap64_small by (unfold top in Ht; lia).
  apply insert_non_empty; [|exact Hne].
  apply vma_new_non_empty; lia.
Qed.

Lemma run_call_non_empty c st st' :
  tracker_inv (vma_list st) -> non_empty_vmas (vma_list st) ->
  in_area c -> positive_size c ->
  run_call c st = Some st' -> non_empty_vmas (vma_list st').
Proof.
  intros Hinv Hne Hc Hp.
  destruct c as [hint size|addr size perm|s e perm
                |addr size perm f offset|addr size];
    cbn [run_call positive_size] in *.
  - destruct (reserve hint size (vma_list st)) as [[v l]|] eqn:E;
      [|discriminate].
    intros E1. apply Some_eq in E1. subst st'. cbn [vma_list set_vma_list].
    exact (reserve_non_empty _ _ _ _ _ Hinv Hne Hc Hp E).
  - destruct Hc as (Ha & Hs & Ht).
    destruct (map_anon _ _ _ _) as [[v s1]|] eqn:E; [|discriminate].
    intros E1. apply Some_eq in E1. subst st'. cbn [snd].
    exact (map_anon_non_empty _ _ _ _ _ _ Hinv Hne Ha Hp Ht E).
  - destruct Hc as (Hse & Ht).
    destruct (map_anon_dontzero _ _ _ _) as [[v s1]|] eqn:E; [|discriminate].
    intros E1. apply Some_eq in E1. subst st'. cbn [snd].
    exact (map_anon_dontzero_non_empty _ _ _ _ _ _ Hinv Hne
             (proj1 Hse) Hp Ht E).
  - destruct Hc as (Ha & Hs & Ht). unfold map_file.
    destruct (f_size f <=? offset).
    + destruct (map_anon _ _ _ _) as [[v s1]|] eqn:E; [|discriminate].
      intros E1. apply Some_eq in E1. subst st'. cbn [snd].
      exact (map_anon_non_empty _ _ _ _ _ _ Hinv Hne Ha Hp Ht E).
    + rewrite (wrap64_small (addr + size)) by (unfold top in Ht; lia).
      destruct (map_anon_dontzero _ _ _ _) as [[v s1]|] eqn:E; [|discriminate].
      destruct (f_read _ _ _ _ _) as [s2|] eqn:E2; [|discriminate].
      destruct (memset _ _ _ _) as [s3|] eqn:E3; [|discriminate].
      intros E1. apply Some_eq in E1. subst st'. cbn [snd].
      rewrite (proj1 (memset_tables _ _ _ _ _ E3)).
      rewrite (proj1 (f_read_tables _ _ _ _ _ _ E2)).
      eapply map_anon_dontzero_non_empty;
        [exact Hinv|exact Hne| | | |exact E]; lia.
  - destruct Hc as (Ha & _). unfold unmap.
    destruct (evacuate _ _) as [l1|] eqn:E; [|discriminate].
    intros E1. apply Some_eq in E1. subst st'. cbn [vma_list set_vma_list].
    refine (proj2 (evacuate_non_empty _ _ l1 _ _ Hinv Hne E)).
    + now apply align_down_aligned.
    + apply align_up_aligned.
Qed.

Lemma non_empty_vmas_init : non_empty_vmas vma_list_init.
Proof.
  rewrite vma_list_init_eq. intros y [<-|[<-|[]]] H1 H2; congruence.
Qed.

(** C3, as the code has it.  Along every sequence of calls that stay inside
    the allocatable area, from the initial tracker, each state reached has
    the two markers in place, its VMAs sorted by start and pairwise
    non-overlapping, and every start and end a multiple of 4096 with
    [start <= end]; and when every request asks for at least one byte,
    [end > start] for every VMA other than the markers. *)
Theorem tracker_invariant cs :
  Forall in_area cs ->
  forall st st',
    vma_list st = vma_list_init ->
    run cs st = Some st' ->
    tracker_inv (vma_list st')
    /\ (Forall positive_size cs -> non_empty_vmas (vma_list st')).
Proof.
  intros Hcs st st' Hinit.
  assert (Hinv : tracker_inv (vma_list st))
    by (rewrite Hinit; apply wf_vma_list_init).
  assert (Hne : non_empty_vmas (vma_list st))
    by (rewrite Hinit; apply non_empty_vmas_init).
  clear Hinit. intros E.
  assert (G : forall s,
             tracker_inv (vma_list s) ->
             run cs s = Some st' ->
             tracker_inv (vma_list st')
             /\ (non_empty_vmas (vma_list s) -> Forall positive_size cs ->
                 non_empty_vmas (vma_list st'))).
  { clear st Hinv Hne E.
    induction Hcs as [|c cs Hc _ IH]; intros s Hinv; cbn [run].
    - intros E. apply Some_eq in E. subst st'. now split.
    - destruct (run_call c s) as [s1|] eqn:E; [|discriminate].
      intros E1.
      pose proof (run_call_tracker c s s1 Hinv Hc E) as Hinv1.
      destruct (IH s1 Hinv1 E1) as [H1 H2]. split; [exact H1|].
      intros Hne Hpos. inversion Hpos as [|? ? Hp Hps]; subst.
      apply H2; [|exact Hps].
      exact (run_call_non_empty c s s1 Hinv Hne Hc Hp E). }
  destruct (G st Hinv E) as [H1 H2]. split; [exact H1|].
  intros Hpos. exact (H2 Hne Hpos).
Qed.

Lemma tracker_invariant_witness :
  Forall in_area invariant_calls
  /\ Forall positive_size invariant_calls
  /\ vma_list (boot_state (pages_from 0x2000 16)) = vma_list_init
  /\ match run invariant_calls (boot_state (pages_from 0x2000 16)) with
     | Some st' =>
         tracker_inv (vma_list st') /\ non_empty_vmas (vma_list st')
     | None => False
     end.
Proof.
  assert (A : Forall in_area invariant_calls).
  { unfold invariant_calls, in_area, top, mmap_base.
    repeat constructor; simpl; lia. }
  assert (P : Forall positive_size invariant_calls).
  { unfold invariant_calls, positive_size. repeat constructor. }
  split; [exact A|]. split; [exact P|]. split; [reflexivity|].
  destruct (is_some_run (run invariant_calls
                           (boot_state (pages_from 0x2000 16))))
    as [st' E]; [vm_compute; reflexivity|].
  rewrite E.
  destruct (tracker_invariant invariant_calls A
              (boot_state (pages_from 0x2000 16)) st' eq_refl E) as [H1 H2].
  split; [exact H1|exact (H2 P)].
Defined.

(** The invariant of C3 as the specification gives it, for every sequence
    of calls.  A request of size zero leaves a VMA with [end = start] that
    is not a marker; above the upper marker the last node is never evacuated
    and two overlapping VMAs are tracked. *)
Lemma tracker_invariant_fails :
  option_map vma_list (run [Reserve 0x1000 0] (boot_state []))
  = Some [sentinel_lo; mk_vma 0x1000 0x1000; sentinel_hi]
  /\ option_map vma_list
       (run [MapAnonDontzero 0x800000001000 0x800000003000 0;
             MapAnonDontzero 0x800000002000 0x800000003000 0]
          (boot_state (pages_from 0x2000 16)))
     = Some [sentinel_lo; sentinel_hi;
             mk_vma 0x800000001000 0x800000003000;
             mk_vma 0x800000002000 0x800000003000]
  /\ overlaps (mk_vma 0x800000001000 0x800000003000)
       (mk_vma 0x800000002000 0x800000003000) = true.
Proof. repeat split; vm_compute; reflexivity. Qed.

(** * map_file *)

(** ** The tables stay a tree *)









(** ** Addresses and their slots *)






(** ** The pages behind a populated range *)





(** ** Data accesses through the tables *)












(** ** The range behind map_anon_dontzero *)





(** ** The raw mapping returns *)




(** ** map_file, put together *)





